(** * The memory pipeline of the assistant bot

    A shallow embedding of the parts of the bot that decide what is
    remembered:

    - [modules/aiChat.js]: the conversation cache and [handleAIChat];
    - [modules/memoryProcessor.js]: the wrappers around the classification
      collaborator;
    - [modules/vectorDB.js]: the Chroma collection, duplicate check,
      enrichment, [storeFactSafely] and [storeMemory];
    - [modules/sqlDB.js]: the event table and the processed-message ledger;
    - [utils/scheduler.js]: the nightly consolidation callback.

    JavaScript [async] functions are written in a state-and-exception monad
    over the process state [World].  Everything the process cannot decide on
    its own (the answers of the language model, of Chroma, of Prisma, the
    clock, [uuidv4]) is supplied from outside as an explicit argument, one
    answer per call, so every function below is executable.

    A second part embeds the todo list, which works on a table of its own:

    - [modules/sqlDB.js]: [addTodo], [getTodos], [completeTodo],
      [deleteTodo];
    - [commands/todo.js]: the todo command;
    - [modules/aiChat.js]: [executeToolCall] on the todo table;
    - [events/message.js]: the command line of a message. *)

From Stdlib Require Import Ascii String QArith.
From Stdlib Require OrderedTypeEx.
From stdpp Require Import base option list strings gmap pretty sorting.

Local Open Scope string_scope.
Local Open Scope list_scope.

(** ** JavaScript values and string helpers *)

Module Js.

(** Code units that [String.prototype.trim] removes.  Characters are
    bytes here, so only the ASCII white space is covered. *)
Definition is_space (c : ascii) : bool :=
  let n := nat_of_ascii c in
  (n =? 9)%nat || (n =? 10)%nat || (n =? 11)%nat || (n =? 12)%nat
  || (n =? 13)%nat || (n =? 32)%nat.

Definition is_digit (c : ascii) : bool :=
  let n := nat_of_ascii c in (48 <=? n)%nat && (n <=? 57)%nat.

Fixpoint drop_spaces (l : list ascii) : list ascii :=
  match l with
  | c :: l' => if is_space c then drop_spaces l' else l
  | [] => []
  end.

(** [s.trim()] *)
Definition trim (s : string) : string :=
  string_of_list_ascii
    (rev (drop_spaces (rev (drop_spaces (list_ascii_of_string s))))).

(** [s.split(sep)] for a one-character separator. *)
Fixpoint split_chars (sep : ascii) (cur : list ascii) (l : list ascii)
  : list string :=
  match l with
  | [] => [string_of_list_ascii (rev cur)]
  | c :: l' =>
      if Ascii.eqb c sep
      then string_of_list_ascii (rev cur) :: split_chars sep [] l'
      else split_chars sep (c :: cur) l'
  end.

Definition split (sep : ascii) (s : string) : list string :=
  split_chars sep [] (list_ascii_of_string s).

(** [arr.join(sep)] *)
Definition join (sep : string) (l : list string) : string :=
  String.concat sep l.

(** [arr.slice(-n)]: the last [n] elements, all of them when the array is
    shorter; [slice(-0)] is [slice(0)], the whole array. *)
Definition slice_last {A} (n : nat) (l : list A) : list A :=
  if (n =? 0)%nat then l else drop (length l - n) l.

(** Number of characters of a mention [<@123>] or [<@!123>] at the head of
    the text, if there is one: the regular expression [<@!?\d+>]. *)
Fixpoint digits_then_close (l : list ascii) (seen : nat) : option nat :=
  match l with
  | c :: l' =>
      if is_digit c then digits_then_close l' (S seen)
      else if Ascii.eqb c ">"%char
           then (if (seen =? 0)%nat then None else Some (S seen))
           else None
  | [] => None
  end.

Definition mention_length (l : list ascii) : option nat :=
  match l with
  | "<"%char :: "@"%char :: "!"%char :: l' =>
      match digits_then_close l' 0 with
      | Some n => Some (3 + n)%nat
      | None => None
      end
  | "<"%char :: "@"%char :: l' =>
      match digits_then_close l' 0 with
      | Some n => Some (2 + n)%nat
      | None => None
      end
  | _ => None
  end.

(** [text.replace(/<@!?\d+>/g, '')]: [skip] counts the characters of the
    current match that are still to be dropped. *)
Fixpoint strip_mentions_from (skip : nat) (l : list ascii) : list ascii :=
  match l with
  | [] => []
  | c :: l' =>
      match skip with
      | S k => strip_mentions_from k l'
      | O =>
          match mention_length l with
          | Some (S k) => strip_mentions_from k l'
          | _ => c :: strip_mentions_from 0 l'
          end
      end
  end.

Definition strip_mentions (s : string) : string :=
  string_of_list_ascii (strip_mentions_from 0 (list_ascii_of_string s)).

(** Values a Chroma metadata field can hold. *)
Inductive value :=
| VStr (s : string)
| VBool (b : bool)
| VNum (n : Z).

Definition truthy (v : value) : bool :=
  match v with
  | VStr s => negb (String.eqb s "")
  | VBool b => b
  | VNum n => negb (n =? 0)%Z
  end.

(** The string a value turns into under [+] with a string. *)
Definition to_string (v : value) : string :=
  match v with
  | VStr s => s
  | VBool true => "true"
  | VBool false => "false"
  | VNum n => pretty n
  end.

(** [x < y] on numbers; a distance is a rational here, [NaN] is left out. *)
Definition lt (x y : Q) : bool :=
  match (x ?= y)%Q with Lt => true | _ => false end.

End Js.

(** ** Data model *)

(** An entry of [conversation_cache].  The user entry carries [messageId] and
    [timestamp]; the assistant entry is pushed as [{role, content}] only, so
    both fields are [undefined] there. *)
Inductive Role := user | assistant.

Record CacheEntry := {
  role : Role;
  content : string;
  messageId : option string;
  timestamp : option string;
}.

(** A row of the Prisma model [ProcessedMessage]
    ([messageId String @id], [processedAt DateTime @default(now())],
    [processingType String], [storedIn String?]). *)
Record LedgerRecord := {
  lr_messageId : string;
  lr_processedAt : string;
  lr_processingType : string;
  lr_storedIn : option string;
}.

(** A row of the Prisma model [Event]. *)
Record Event := {
  ev_id : nat;
  ev_date : string;
  ev_description : string;
  ev_participants : option string;
  ev_context : option string;
}.

Definition Embedding := list Q.
Definition Metadata := gmap string Js.value.

(** A record of the Chroma collection, stored under its id. *)
Record Document := {
  doc_text : string;
  doc_embedding : Embedding;
  doc_metadata : Metadata;
}.

(** A row of a [collection.query] answer. *)
Record Neighbor := {
  nb_id : string;
  nb_document : string;
  nb_metadata : Metadata;
  nb_distance : Q;
}.

(** The process state: the module variables [conversation_cache] (aiChat.js)
    and [collection] (vectorDB.js, [null] until the collection is obtained),
    the contents of the Chroma collection, and the two relational tables the
    pipeline writes.  A table is the list of its rows in insertion order.
    The Todo and Reminder tables are touched only by the tool calls of the
    reply generation and are left out. *)
Record World := {
  conversation_cache : list CacheEntry;
  collection : bool;
  documents : gmap string Document;
  processedMessage : list LedgerRecord;
  event : list Event;
}.

Definition initial_world : World :=
  {| conversation_cache := []; collection := false; documents := ∅;
     processedMessage := []; event := [] |}.

Definition set_cache (f : list CacheEntry → list CacheEntry) (w : World) :=
  {| conversation_cache := f (conversation_cache w);
     collection := collection w; documents := documents w;
     processedMessage := processedMessage w; event := event w |}.

Definition set_collection (b : bool) (w : World) :=
  {| conversation_cache := conversation_cache w;
     collection := b; documents := documents w;
     processedMessage := processedMessage w; event := event w |}.

Definition set_documents
    (f : gmap string Document → gmap string Document) (w : World) :=
  {| conversation_cache := conversation_cache w;
     collection := collection w; documents := f (documents w);
     processedMessage := processedMessage w; event := event w |}.

Definition set_ledger (f : list LedgerRecord → list LedgerRecord) (w : World) :=
  {| conversation_cache := conversation_cache w;
     collection := collection w; documents := documents w;
     processedMessage := f (processedMessage w); event := event w |}.

Definition set_event (f : list Event → list Event) (w : World) :=
  {| conversation_cache := conversation_cache w;
     collection := collection w; documents := documents w;
     processedMessage := processedMessage w; event := f (event w) |}.

(** ** The monad of [async] functions *)

Inductive Result (A : Type) :=
| Ok (a : A)
| Throw (e : string).
Arguments Ok {A} a.
Arguments Throw {A} e.

Definition M (A : Type) : Type := World → World * Result A.

Definition ret {A} (a : A) : M A := λ w, (w, Ok a).

Definition bind {A B} (m : M A) (f : A → M B) : M B := λ w,
  match m w with
  | (w', Ok a) => f a w'
  | (w', Throw e) => (w', Throw e)
  end.

Declare Scope js_scope.
Delimit Scope js_scope with js.
Bind Scope js_scope with M.
Notation "x <- m ;; k" := (bind m (λ x, k))
  (at level 100, m at next level, right associativity) : js_scope.
Notation "m ;; k" := (bind m (λ _, k))
  (at level 100, right associativity) : js_scope.
Local Open Scope js_scope.

Definition throw {A} (e : string) : M A := λ w, (w, Throw e).

(** [try { m } catch (error) { h error }]: the handler runs in the state the
    body had reached when it threw. *)
Definition try_catch {A} (m : M A) (h : string → M A) : M A := λ w,
  match m w with
  | (w', Ok a) => (w', Ok a)
  | (w', Throw e) => h e w'
  end.

Definition gets {A} (f : World → A) : M A := λ w, (w, Ok (f w)).
Definition modify (f : World → World) : M unit := λ w, (f w, Ok tt).

(** [for (const x of l) { await body(i, x) }], [i] the position of [x]. *)
Fixpoint for_of {A} (body : nat → A → M unit) (i : nat) (l : list A) : M unit :=
  match l with
  | [] => ret tt
  | x :: l' => body i x;; for_of body (S i) l'
  end.

(** An answer of an external service to one call: [None] when the call
    rejects (network error, malformed output, ...). *)
Definition await {A} (what : string) (answer : option A) : M A :=
  match answer with
  | Some a => ret a
  | None => throw what
  end.

(** ** modules/sqlDB.js *)

Module SqlDB.

(** What Prisma answers to one call: the database clock when the call
    resolves, [None] when it rejects. *)
Definition Answer := option string.

(** [prisma.event.create]: the id is generated by the table. *)
Definition event_create (date description : string)
    (participants context : option string) (t : list Event) : Event :=
  {| ev_id := S (length t); ev_date := date; ev_description := description;
     ev_participants := participants; ev_context := context |}.

(** [addEvent]: the failure is logged and thrown again. *)
Definition addEvent (db : Answer) (date description : string)
    (participants context : option string) : M Event :=
  try_catch
    (await "prisma.event.create" db;;
     t <- gets event;;
     let e := event_create date description participants context t in
     modify (set_event (λ t, t ++ [e]));;
     ret e)
    (λ error, throw error).

(** Rows ordered by [date] descending. *)
Fixpoint insert_desc (e : Event) (l : list Event) : list Event :=
  match l with
  | [] => [e]
  | x :: l' =>
      if String.ltb (ev_date x) (ev_date e)
      then e :: l
      else x :: insert_desc e l'
  end.

Definition order_by_date_desc (l : list Event) : list Event :=
  foldr insert_desc [] l.

(** [getRecentEvents(days)]: [cutoff days] is the ISO string of the clock
    moved [days] days back when the query resolves; a failure yields []. *)
Definition getRecentEvents (cutoff : nat → Answer) (days : nat)
  : M (list Event) :=
  try_catch
    (c <- await "prisma.event.findMany" (cutoff days);;
     t <- gets event;;
     ret (order_by_date_desc
             (filter (λ e, String.leb c (ev_date e) = true) t)))
    (λ _, ret []).

(** [prisma.processedMessage.findUnique({ where: { messageId } })] *)
Definition findUnique (id : string) (t : list LedgerRecord)
  : option LedgerRecord :=
  List.find (λ r, String.eqb (lr_messageId r) id) t.

(** [prisma.processedMessage.upsert]: the row with this [messageId] gets
    [update] applied ([processedAt] is not among the updated columns);
    when there is none, a row is created. *)
Fixpoint upsert (now id processingType : string) (storedIn : option string)
    (t : list LedgerRecord) : list LedgerRecord :=
  match t with
  | [] =>
      [ {| lr_messageId := id; lr_processedAt := now;
           lr_processingType := processingType; lr_storedIn := storedIn |} ]
  | r :: t' =>
      if String.eqb (lr_messageId r) id
      then {| lr_messageId := lr_messageId r;
              lr_processedAt := lr_processedAt r;
              lr_processingType := processingType;
              lr_storedIn := storedIn |} :: t'
      else r :: upsert now id processingType storedIn t'
  end.

(** [markMessageProcessed]: the failure is logged and thrown again. *)
Definition markMessageProcessed (db : Answer) (id processingType : string)
    (storedIn : option string) : M unit :=
  try_catch
    (now <- await "prisma.processedMessage.upsert" db;;
     modify (set_ledger (upsert now id processingType storedIn)))
    (λ error, throw error).

(** [isMessageProcessed]: a failed lookup answers [false]. *)
Definition isMessageProcessed (db : Answer) (id : string) : M bool :=
  try_catch
    (await "prisma.processedMessage.findUnique" db;;
     t <- gets processedMessage;;
     ret (bool_decide (is_Some (findUnique id t))))
    (λ _, ret false).

End SqlDB.

(** ** config/config.js *)

Record Config := {
  openai_apiKey : bool;             (* [config.openai.apiKey] is set *)
  memory_dedupThreshold : Q;
  memory_contextWindowSize : nat;
}.

(** The [memory] values used when the environment sets nothing; the API key
    is taken to be set. *)
Definition default_config : Config :=
  {| openai_apiKey := true;
     memory_dedupThreshold := 15 # 100;
     memory_contextWindowSize := 10 |}.

(** ** modules/vectorDB.js *)

Module VectorDB.

(** What the outside answers during one call into this module, one field
    per external call of the source. *)
Record Answers := {
  connects : bool;                    (* [initializeVectorDB] gets the collection *)
  embedding_query : option Embedding; (* [generateEmbedding] before [collection.query] *)
  query : option (list Neighbor);     (* [collection.query], nearest first *)
  get_ok : bool;                      (* [collection.get] resolves *)
  update_ok : bool;                   (* [collection.update] resolves *)
  embedding_store : option Embedding; (* [generateEmbedding] before [collection.add] *)
  uuid : string;                      (* [uuidv4()] *)
  add_ok : bool;                      (* [collection.add] resolves *)
  clock : string;                     (* [new Date().toISOString()] *)
}.

Definition resolves (ok : bool) : option unit :=
  if ok then Some tt else None.

(** [initializeVectorDB]: returns the collection, [null] on failure. *)
Definition initializeVectorDB (a : Answers) : M bool :=
  c <- gets collection;;
  if c then ret true
  else if connects a
       then (modify (set_collection true);; ret true)
       else ret false.

(** [generateEmbedding]: the failure is logged and thrown again. *)
Definition generateEmbedding (answer : option Embedding) : M Embedding :=
  try_catch (await "openai.embeddings.create" answer) (λ error, throw error).

(** [if (!collection) await initializeVectorDB()] *)
Definition ensure_collection (a : Answers) : M bool :=
  c <- gets collection;;
  (if c then ret true else initializeVectorDB a);;
  gets collection.

(** [searchMemories(query, limit)] *)
Definition searchMemories (a : Answers) (q : string) (limit : nat)
  : M (list Neighbor) :=
  try_catch
    (c <- ensure_collection a;;
     if negb c then ret []
     else
       generateEmbedding (embedding_query a);;
       rows <- await "collection.query" (query a);;
       ret (take limit rows))
    (λ _, ret []).

Record Duplicate := {
  existingId : string;
  existingText : string;
  similarity : Q;
}.

(** [checkDuplicate(factText, threshold)]: [None] is
    [{ isDuplicate: false }]. *)
Definition checkDuplicate (a : Answers) (factText : string) (threshold : Q)
  : M (option Duplicate) :=
  try_catch
    (c <- ensure_collection a;;
     if negb c then ret None
     else
       generateEmbedding (embedding_query a);;
       rows <- await "collection.query" (query a);;
       match rows with
       | n :: _ =>
           if Js.lt (nb_distance n) threshold
           then ret (Some {| existingId := nb_id n;
                              existingText := nb_document n;
                              similarity := nb_distance n |})
           else ret None
       | [] => ret None
       end)
    (λ _, ret None).

(** The metadata [enrichExistingFact] writes back. *)
Definition enriched_metadata (existing : Metadata)
    (newMessageId newTimestamp : string) : Metadata :=
  let sourceMessages :=
    match existing !! "source_messages" with
    | Some v =>
        if Js.truthy v
        then Js.to_string v +:+ "," +:+ newMessageId
        else newMessageId
    | None => newMessageId
    end in
  <["enriched" := Js.VBool true]>
    (<["source_messages" := Js.VStr sourceMessages]>
       (<["last_updated" := Js.VStr newTimestamp]> existing)).

(** [collection.update({ ids: [id], metadatas: [md] })]: only the metadata
    of the record is written; an unknown id changes nothing. *)
Definition update_metadata (id : string) (md : Metadata)
    (docs : gmap string Document) : gmap string Document :=
  match docs !! id with
  | Some d =>
      <[id := {| doc_text := doc_text d;
                 doc_embedding := doc_embedding d;
                 doc_metadata := md |}]> docs
  | None => docs
  end.

(** [enrichExistingFact(factId, newText, newMessageId, newTimestamp)] *)
Definition enrichExistingFact (a : Answers)
    (factId newText newMessageId newTimestamp : string) : M unit :=
  try_catch
    (c <- gets collection;;
     if negb c then ret tt
     else
       await "collection.get" (resolves (get_ok a));;
       docs <- gets documents;;
       let existingMetadata :=
         match docs !! factId with
         | Some d => doc_metadata d
         | None => ∅
         end in
       await "collection.update" (resolves (update_ok a));;
       modify (set_documents
                 (update_metadata factId
                    (enriched_metadata existingMetadata
                       newMessageId newTimestamp))))
    (λ _, ret tt).

Inductive Stored :=
| StoredFailed (reason : string)
| StoredEnriched (id : string)
| StoredNew (id : string).

Definition new_fact_metadata (messageId timestamp category : string)
  : Metadata :=
  <["source_message_id" := Js.VStr messageId]>
    (<["timestamp" := Js.VStr timestamp]>
       (<["category" := Js.VStr category]>
          (<["processed_type" := Js.VStr "immediate"]>
             (<["source_messages" := Js.VStr messageId]> ∅)))).

(** [storeFactSafely(factText, messageId, timestamp, category)] *)
Definition storeFactSafely (config : Config) (a : Answers)
    (factText messageId timestamp category : string) : M Stored :=
  try_catch
    (c <- ensure_collection a;;
     if negb c then ret (StoredFailed "no collection")
     else
       duplicate <- checkDuplicate a factText (memory_dedupThreshold config);;
       match duplicate with
       | Some dup =>
           enrichExistingFact a (existingId dup) factText messageId
                 timestamp;;
           ret (StoredEnriched (existingId dup))
       | None =>
           embedding <- generateEmbedding (embedding_store a);;
           let id := uuid a in
           await "collection.add" (resolves (add_ok a));;
           modify (set_documents
                  (<[id := {| doc_text := factText;
                              doc_embedding := embedding;
                              doc_metadata :=
                                new_fact_metadata messageId timestamp
                                  category |}]>));;
           ret (StoredNew id)
       end)
    (λ error, ret (StoredFailed error)).

Definition batch_metadata (metadata : Metadata) (now : string) : Metadata :=
  <["processed_type" := Js.VStr "batch"]>
    (<["timestamp" := Js.VStr now]> metadata).

(** [storeMemory(narrative, metadata)] *)
Definition storeMemory (a : Answers) (narrative : string)
    (metadata : Metadata) : M unit :=
  try_catch
    (c <- ensure_collection a;;
     if negb c then ret tt
     else
       embedding <- generateEmbedding (embedding_store a);;
       let id := uuid a in
       await "collection.add" (resolves (add_ok a));;
       modify (set_documents
                 (<[id := {| doc_text := narrative;
                             doc_embedding := embedding;
                             doc_metadata :=
                               batch_metadata metadata (clock a) |}]>)))
    (λ _, ret tt).

End VectorDB.

(** ** modules/memoryProcessor.js *)

Module MemoryProcessor.

Definition nl : string := String (ascii_of_nat 10) EmptyString.

(** The parsed answer of the importance prompt. *)
Record Importance := {
  important : bool;
  reason : string;
  category : string;
}.

(** One element of the [facts] array of the extraction prompt. *)
Record Fact := {
  fact_text : string;
  fact_category : string;
  fact_confidence : Q;
}.

Record Chunk := {
  narrative : string;
  metadata : Metadata;
}.

(** The user message the importance and the extraction prompt share. *)
Definition context_prompt (contextWindow : list CacheEntry)
    (message : string) : string :=
  "Context:" +:+ nl +:+ Js.join nl (map content contextWindow)
    +:+ nl +:+ nl +:+ "Current message:" +:+ nl +:+ message.

(** [detectImportance(message, conversationContext)]: [chat] is the model's
    parsed answer to the prompt, [None] when the call or [JSON.parse]
    fails. *)
Definition detectImportance (config : Config)
    (chat : string → option Importance)
    (message : string) (conversationContext : list CacheEntry)
  : M Importance :=
  try_catch
    (let contextWindow :=
       Js.slice_last (memory_contextWindowSize config) conversationContext in
     await "detectImportance" (chat (context_prompt contextWindow message)))
    (λ _, ret {| important := false; reason := "error";
                 category := "none" |}).

(** [extractWithContext(currentMessage, conversationCache, messageId)] *)
Definition extractWithContext (config : Config)
    (chat : string → option (list Fact))
    (currentMessage : string) (conversationCache : list CacheEntry)
    (messageId : string) : M (list Fact) :=
  try_catch
    (let contextWindow :=
       Js.slice_last (memory_contextWindowSize config) conversationCache in
     await "extractWithContext"
       (chat (context_prompt contextWindow currentMessage)))
    (λ _, ret []).

Definition chunk_metadata (message_count : nat) (created_at : string)
  : Metadata :=
  <["message_count" := Js.VNum (Z.of_nat message_count)]>
    (<["created_at" := Js.VStr created_at]> ∅).

(** [narrativeText.split('|').map(trim).filter(chunk => chunk.length > 20)] *)
Definition chunks_of (narrativeText : string) : list string :=
  filter (λ chunk, (20 < String.length chunk)%nat)
    (map Js.trim (Js.split "|" narrativeText)).

(** [processConversations(messages)]: [chat] is the model's answer to the
    concatenated conversation, [now] the clock. *)
Definition processConversations (chat : string → option string)
    (now : string) (messages : list CacheEntry) : M (list Chunk) :=
  try_catch
    (if (length messages =? 0)%nat then ret []
     else
       let conversationText := Js.join nl (map content messages) in
       answer <- await "processConversations" (chat conversationText);;
       let narrativeText := Js.trim answer in
       ret (map (λ chunk,
                   {| narrative := chunk;
                      metadata := chunk_metadata (length messages) now |})
                (chunks_of narrativeText)))
    (λ _, ret []).

(** [reformulateQuery(query, conversationContext)] *)
Definition reformulateQuery (chat : string → option string)
    (query : string) (conversationContext : list CacheEntry) : M string :=
  try_catch
    (let recentContext := Js.slice_last 3 conversationContext in
     if (length recentContext =? 0)%nat then ret query
     else
       answer <- await "reformulateQuery"
         (chat ("Context:" +:+ nl
                  +:+ Js.join nl (map content recentContext)
                  +:+ nl +:+ nl +:+ "Query: " +:+ query));;
       ret (Js.trim answer))
    (λ _, ret query).

End MemoryProcessor.

(** ** modules/aiChat.js *)

Module AiChat.

Import MemoryProcessor.

(** The Discord message handed to [handleAIChat]. *)
Record Message := {
  msg_id : string;
  msg_content : string;
  msg_author : string;
}.

(** An element of the [messages] array sent to the model. *)
Record ChatMessage := {
  cm_role : string;
  cm_content : string;
}.

(** A tool call of a model answer.  [executeToolCall] parses the arguments
    outside its [try]; everything after that is caught inside it and only
    reads or writes the Todo table. *)
Record ToolCall := {
  tool_name : string;
  arguments_parse : bool;
}.

Record Completion := {
  completion_content : string;
  tool_calls : list ToolCall;
}.

(** The answers of [ai.chat.completions.create] during one turn, in call
    order: each call either rejects or resolves with a message; [next]
    answers the call made after the tool calls of that message have run. *)
Inductive Generation :=
| Rejects
| Responds (m : Completion) (next : Generation).

(** What the outside answers during one call of [handleAIChat]. *)
Record Turn := {
  now : string;                              (* [new Date()] of the entry *)
  importance : string → option Importance;
  extraction : string → option (list Fact);
  fact_clock : nat → string;                 (* [new Date()] at the i-th fact *)
  fact_store : nat → VectorDB.Answers;       (* [storeFactSafely], i-th fact *)
  fact_event : nat → SqlDB.Answer;           (* [addEvent], i-th fact *)
  mark : SqlDB.Answer;                       (* [markMessageProcessed] *)
  reformulation : string → option string;
  search : VectorDB.Answers;                 (* [searchMemories] *)
  recent : nat → SqlDB.Answer;               (* [getRecentEvents] *)
  generation : list ChatMessage → Generation;
}.

Definition not_configured : string :=
  "AI chat is not configured. Please set up your OpenAI API key.".
Definition what_can_i_help : string := "What can I help you with?".
Definition apology : string :=
  "Sorry, I encountered an error. Please try again.".

Definition system_prompt : string :=
"You are a helpful and friendly AI assistant with access to todo management tools.

Your purpose:
1. Be genuinely helpful and supportive
2. Help manage todos, reminders, and events using available tools
3. Remember conversations and information accurately
4. Provide concise but thorough responses (this is Discord)

When the user mentions tasks, todos, or things to remember:
- Use add_todo to create tasks
- Use get_todos to check current tasks
- Use complete_todo to mark tasks as done
- Use delete_todo to remove tasks

Personality:
- Friendly and warm, occasionally playful
- Proactive in offering help
- Admits when you don't know something
- References past conversations naturally

Respond naturally and helpfully.".

Definition executeToolCall (toolCall : ToolCall) : M unit :=
  if arguments_parse toolCall then ret tt else throw "JSON.parse".

(** The first completion and the [while (responseMessage.tool_calls ...)]
    loop; the result is [responseMessage.content]. *)
Fixpoint generate (g : Generation) : M string :=
  match g with
  | Rejects => throw "openai.chat.completions.create"
  | Responds responseMessage next =>
      match tool_calls responseMessage with
      | [] => ret (completion_content responseMessage)
      | calls =>
          for_of (λ _ toolCall, executeToolCall toolCall) 0 calls;;
          generate next
      end
  end.

(** IMMEDIATE STORAGE, the loop body. *)
Definition store_fact (config : Config) (env : Turn) (message : Message)
    (input : string) (i : nat) (fact : Fact) : M unit :=
  if String.eqb (fact_category fact) "fact"
  then
    VectorDB.storeFactSafely config (fact_store env i) (fact_text fact)
      (msg_id message) (fact_clock env i) (fact_category fact);;
    ret tt
  else if String.eqb (fact_category fact) "event"
  then
    SqlDB.addEvent (fact_event env i) (fact_clock env i) (fact_text fact)
      (Some (msg_author message)) (Some input);;
    ret tt
  else ret tt.

(** IMMEDIATE STORAGE *)
Definition immediate_storage (config : Config) (env : Turn)
    (message : Message) (input : string) : M unit :=
  cache <- gets conversation_cache;;
  imp <- detectImportance config (importance env) input cache;;
  if important imp && negb (String.eqb (category imp) "todo")
  then
    cache <- gets conversation_cache;;
    facts <- extractWithContext config (extraction env) input cache
               (msg_id message);;
    for_of (store_fact config env message input) 0 facts;;
    SqlDB.markMessageProcessed (mark env) (msg_id message) "immediate"
      (Some (category imp))
  else ret tt.

Definition chat_message_of (e : CacheEntry) : ChatMessage :=
  {| cm_role := match role e with user => "user" | assistant => "assistant" end;
     cm_content := content e |}.

(** BUILD CONTEXT *)
Definition build_context (relevantMemories : list Neighbor)
    (recentEvents : list Event) (cache : list CacheEntry)
  : list ChatMessage :=
  [ {| cm_role := "system"; cm_content := system_prompt |} ]
  ++ (if (0 <? length relevantMemories)%nat
      then [ {| cm_role := "system";
                cm_content :=
                  "Relevant memories: "
                  +:+ Js.join " | " (map nb_document relevantMemories) |} ]
      else [])
  ++ (if (0 <? length recentEvents)%nat
      then [ {| cm_role := "system";
                cm_content :=
                  "Recent events (last 7 days): "
                  +:+ Js.join "; "
                        (map (λ e, ev_date e +:+ ": " +:+ ev_description e)
                             recentEvents) |} ]
      else [])
  ++ map chat_message_of (Js.slice_last 10 cache).

(** [if (conversation_cache.length > 50)
       conversation_cache = conversation_cache.slice(-40)] *)
Definition trim_cache (cache : list CacheEntry) : list CacheEntry :=
  if (50 <? length cache)%nat then Js.slice_last 40 cache else cache.

Definition user_entry (env : Turn) (message : Message) (input : string)
  : CacheEntry :=
  {| role := user;
     content := msg_author message +:+ ": " +:+ input;
     messageId := Some (msg_id message);
     timestamp := Some (now env) |}.

Definition assistant_entry (botReply : string) : CacheEntry :=
  {| role := assistant; content := botReply;
     messageId := None; timestamp := None |}.

(** The body of the [try] from the push of the user entry to the reply. *)
Definition respond (config : Config) (env : Turn) (message : Message)
    (input : string) : M string :=
  modify (set_cache (λ c, c ++ [user_entry env message input]));;
  immediate_storage config env message input;;
  (* CONTEXT RETRIEVAL *)
  cache <- gets conversation_cache;;
  searchQuery <- reformulateQuery (reformulation env) input cache;;
  relevantMemories <- VectorDB.searchMemories (search env) searchQuery 3;;
  recentEvents <- SqlDB.getRecentEvents (recent env) 7;;
  cache <- gets conversation_cache;;
  let messages := build_context relevantMemories recentEvents cache in
  (* GENERATE RESPONSE WITH TOOL SUPPORT *)
  botReply <- generate (generation env messages);;
  modify (set_cache (λ c, c ++ [assistant_entry botReply]));;
  modify (set_cache trim_cache);;
  ret botReply.

(** [handleAIChat(message, client)]: the result is the text handed to
    [message.channel.send].  The calls into the Discord channel
    ([startTyping], [stopTyping], [send]) are taken to succeed. *)
Definition handleAIChat (config : Config) (env : Turn) (message : Message)
  : M string :=
  if negb (openai_apiKey config) then ret not_configured
  else
    try_catch
      (let input := Js.trim (Js.strip_mentions (msg_content message)) in
       if String.eqb input "" then ret what_can_i_help
       else respond config env message input)
      (λ _, ret apology).

(** [getConversationCache] and [clearConversationCache] *)
Definition getConversationCache : M (list CacheEntry) :=
  gets conversation_cache.
Definition clearConversationCache : M unit :=
  modify (set_cache (λ _, [])).

End AiChat.

(** ** utils/scheduler.js *)

Module Scheduler.

Import MemoryProcessor.

(** What the outside answers during one run of the consolidation. *)
Record Run := {
  lookup : nat → SqlDB.Answer;          (* [isMessageProcessed], i-th entry *)
  batch_extraction : string → option string;
  chunk_clock : string;
  chunk_store : nat → VectorDB.Answers; (* [storeMemory], i-th chunk *)
  batch_mark : nat → SqlDB.Answer;      (* [markMessageProcessed], i-th message *)
}.

(** [msg.messageId] as a condition: a non-empty string. *)
Definition has_messageId (msg : CacheEntry) : option string :=
  match messageId msg with
  | Some id => if String.eqb id "" then None else Some id
  | None => None
  end.

(** The loop that fills [unprocessedMessages]; [i] is the position of the
    entry in the cache. *)
Fixpoint gather (env : Run) (i : nat) (cache : list CacheEntry)
  : M (list CacheEntry) :=
  match cache with
  | [] => ret []
  | msg :: rest =>
      keep <- match has_messageId msg with
              | Some id =>
                  processed <- SqlDB.isMessageProcessed (lookup env i) id;;
                  ret (negb processed)
              | None => ret false
              end;;
      more <- gather env (S i) rest;;
      ret (if keep then msg :: more else more)
  end.

Definition mark_message (env : Run) (i : nat) (msg : CacheEntry) : M unit :=
  match has_messageId msg with
  | Some id =>
      SqlDB.markMessageProcessed (batch_mark env i) id "batch"
        (Some "consolidated")
  | None => ret tt
  end.

Definition store_chunk (env : Run) (i : nat) (chunk : Chunk) : M unit :=
  VectorDB.storeMemory (chunk_store env i) (narrative chunk) (metadata chunk).

(** The callback handed to [cron.schedule]. *)
Definition runConsolidation (env : Run) : M unit :=
  try_catch
    (conversationCache <- AiChat.getConversationCache;;
     unprocessedMessages <- gather env 0 conversationCache;;
     if (length unprocessedMessages =? 0)%nat then ret tt
     else
       chunks <- processConversations (batch_extraction env)
                   (chunk_clock env) unprocessedMessages;;
       (if (0 <? length chunks)%nat
        then
          for_of (store_chunk env) 0 chunks;;
          for_of (mark_message env) 0 unprocessedMessages
        else ret tt);;
       AiChat.clearConversationCache)
    (λ _, ret tt).

End Scheduler.

(** ** Histories of the process *)

(** The two entry points, each with the answers the outside gives during
    it; one is run to its end before the next starts. *)
Inductive Action :=
| Chat (env : AiChat.Turn) (message : AiChat.Message)
| Consolidate (env : Scheduler.Run).

Definition step (config : Config) (w : World) (a : Action) : World :=
  match a with
  | Chat env message => fst (AiChat.handleAIChat config env message w)
  | Consolidate env => fst (Scheduler.runConsolidation env w)
  end.

Definition run (config : Config) (acts : list Action) (w : World) : World :=
  foldl (step config) w acts.

Definition reachable (config : Config) (w : World) : Prop :=
  ∃ acts, w = run config acts initial_world.

(** ** Vocabulary of the statements *)

(** [preserves P m]: running [m] keeps [P] true of the state, whether [m]
    returns or throws. *)
Definition preserves {A} (P : World → Prop) (m : M A) : Prop :=
  ∀ w, P w → P (fst (m w)).

(** [total m]: [m] never throws. *)
Definition total {A} (m : M A) : Prop :=
  ∀ w, ∃ a, snd (m w) = Ok a.

(** The ids of the ledger, in row order. *)
Definition keys (t : list LedgerRecord) : list string := map lr_messageId t.

(** The rows a message id has in the table. *)
Definition records_for (id : string) (t : list LedgerRecord)
  : list LedgerRecord :=
  filter (λ r, lr_messageId r = id) t.

(** The ledger has a row for [id] with these two columns. *)
Definition ledgered_as (processingType : string) (storedIn : option string)
    (id : string) (t : list LedgerRecord) : Prop :=
  ∃ r, SqlDB.findUnique id t = Some r
       ∧ lr_processingType r = processingType ∧ lr_storedIn r = storedIn.

(** The entry carries a message id for which the ledger has no row. *)
Definition unledgered (t : list LedgerRecord) (msg : CacheEntry) : bool :=
  match Scheduler.has_messageId msg with
  | Some id => negb (bool_decide (is_Some (SqlDB.findUnique id t)))
  | None => false
  end.

(** The same answers, with another extraction collaborator. *)
Definition with_extraction (chat : string → option string)
    (env : Scheduler.Run) : Scheduler.Run :=
  {| Scheduler.lookup := Scheduler.lookup env;
     Scheduler.batch_extraction := chat;
     Scheduler.chunk_clock := Scheduler.chunk_clock env;
     Scheduler.chunk_store := Scheduler.chunk_store env;
     Scheduler.batch_mark := Scheduler.batch_mark env |}.

(** Every Event write the turn makes for [facts] is accepted; one of them
    is rejected. *)
Definition event_writes_succeed (env : AiChat.Turn)
    (facts : list MemoryProcessor.Fact) : Prop :=
  ∀ i fact, facts !! i = Some fact →
            MemoryProcessor.fact_category fact = "event" →
            is_Some (AiChat.fact_event env i).


(** The state after [if (!collection) await initializeVectorDB()]. *)
Definition connected (a : VectorDB.Answers) (w : World) : World :=
  if collection w then w
  else if VectorDB.connects a then set_collection true w else w.

(** The part of the state a chat turn leaves alone while it retrieves the
    context. *)
Definition same_stores (w w' : World) : Prop :=
  conversation_cache w' = conversation_cache w
  ∧ processedMessage w' = processedMessage w
  ∧ documents w' = documents w
  ∧ event w' = event w.

(** The same answers of the store, with other answers to the duplicate
    check (its embedding, the nearest-neighbour query, the read and the
    update of the metadata). *)
Definition with_neighbours (check : option Embedding)
    (rows : option (list Neighbor)) (get update : bool)
    (a : VectorDB.Answers) : VectorDB.Answers :=
  {| VectorDB.connects := VectorDB.connects a;
     VectorDB.embedding_query := check;
     VectorDB.query := rows;
     VectorDB.get_ok := get;
     VectorDB.update_ok := update;
     VectorDB.embedding_store := VectorDB.embedding_store a;
     VectorDB.uuid := VectorDB.uuid a;
     VectorDB.add_ok := VectorDB.add_ok a;
     VectorDB.clock := VectorDB.clock a |}.

(** Rows in the order of [orderBy: { date: 'desc' }]: every row is dated no
    earlier than the rows after it. *)
Definition newest_first (rows : list Event) : Prop :=
  StronglySorted (λ x y, String.leb (ev_date y) (ev_date x) = true) rows.



(** ** Sample data *)

Module Sample.

Import MemoryProcessor AiChat Scheduler.

(** A Chroma that is up: [uuidv4] gives [id], the query answers [rows]. *)
Definition chroma (id : string) (rows : list Neighbor) : VectorDB.Answers :=
  {| VectorDB.connects := true;
     VectorDB.embedding_query := Some [1 # 2; 1 # 3];
     VectorDB.query := Some rows;
     VectorDB.get_ok := true;
     VectorDB.update_ok := true;
     VectorDB.embedding_store := Some [1 # 2; 1 # 3];
     VectorDB.uuid := id;
     VectorDB.add_ok := true;
     VectorDB.clock := "2024-05-01T23:00:00.000Z" |}.

Definition entry (id text : string) : CacheEntry :=
  {| role := user; content := text; messageId := Some id;
     timestamp := Some "2024-05-01T10:00:00.000Z" |}.

(** A cache with a ledgered message M1, a reply, and an unledgered M2. *)
Definition evening : World :=
  {| conversation_cache :=
       [ entry "M1" "bob: my birthday is in May";
         assistant_entry "Noted.";
         entry "M2" "bob: I moved to Lyon" ];
     collection := true;
     documents := ∅;
     processedMessage :=
       [ {| lr_messageId := "M1";
            lr_processedAt := "2024-05-01T10:00:01.000Z";
            lr_processingType := "immediate";
            lr_storedIn := Some "fact" |} ];
     event := [] |}.

(** A run in which every service answers; the extraction answers [answer]. *)
Definition nightly (answer : string) : Run :=
  {| lookup := λ _, Some "2024-05-01T23:00:00.000Z";
     batch_extraction := λ _, Some answer;
     chunk_clock := "2024-05-01T23:00:00.000Z";
     chunk_store := λ i, chroma ("chunk-" +:+ pretty i) [];
     batch_mark := λ _, Some "2024-05-01T23:00:01.000Z" |}.

(** A turn: the importance answer, the extracted facts, the answers of the
    two relational writes, and the model's replies. *)
Definition turn (imp : option Importance) (facts : list Fact)
    (event_db mark_db : SqlDB.Answer) (g : Generation) : Turn :=
  {| now := "2024-05-01T10:00:00.000Z";
     importance := λ _, imp;
     extraction := λ _, Some facts;
     fact_clock := λ _, "2024-05-01T10:00:00.500Z";
     fact_store := λ i, chroma ("fact-" +:+ pretty i) [];
     fact_event := λ _, event_db;
     mark := mark_db;
     reformulation := λ _, Some "bob";
     search := chroma "unused" [];
     recent := λ _, Some "2024-04-24T10:00:00.000Z";
     generation := λ _, g |}.

Definition says (text : string) : Generation :=
  Responds {| completion_content := text; tool_calls := [] |} Rejects.

Definition hello : Message :=
  {| msg_id := "M7"; msg_content := "<@!42> hello there"; msg_author := "bob" |}.

Definition small_talk : Importance :=
  {| important := false; reason := "greeting"; category := "none" |}.

Definition trip : Importance :=
  {| important := true; reason := "dated event"; category := "event" |}.

Definition rome : Fact :=
  {| fact_text := "bob went to Rome"; fact_category := "event";
     fact_confidence := 9 # 10 |}.

Definition pizza : Fact :=
  {| fact_text := "bob likes pizza"; fact_category := "fact";
     fact_confidence := 9 # 10 |}.

(** A store that holds one fact, F1, and a query row that finds it at
    distance [d]. *)
Definition pizza_fact : Document :=
  {| doc_text := "bob likes pizza";
     doc_embedding := [1 # 2; 1 # 3];
     doc_metadata :=
       VectorDB.new_fact_metadata "A" "2024-05-01T10:00:00.500Z" "fact" |}.

Definition remembers : World :=
  {| conversation_cache := [];
     collection := true;
     documents := {[ "F1" := pizza_fact ]};
     processedMessage := [];
     event := [] |}.

Definition near (d : Q) : Neighbor :=
  {| nb_id := "F1"; nb_document := "bob likes pizza";
     nb_metadata := doc_metadata pizza_fact; nb_distance := d |}.



End Sample.

(** * The todo list

    The commands of the bot and the tools of the model work on the Prisma
    table [Todo], which the memory pipeline above never touches; it is
    modelled on its own, with explicit state passing. *)

(** ** More of the JavaScript standard library *)

Module JsText.

Definition lower (c : ascii) : ascii :=
  let n := nat_of_ascii c in
  if (65 <=? n)%nat && (n <=? 90)%nat then ascii_of_nat (n + 32) else c.

(** [s.toLowerCase()]; characters are bytes, so the ASCII letters. *)
Definition toLowerCase (s : string) : string :=
  string_of_list_ascii (map lower (list_ascii_of_string s)).

(** [s.startsWith(t)] is [String.prefix t s]; [s.includes(t)]: *)
Fixpoint includes (s t : string) : bool :=
  String.prefix t s
  || match s with
     | EmptyString => false
     | String _ s' => includes s' t
     end.

(** [s.slice(n)] *)
Definition slice (n : nat) (s : string) : string :=
  string_of_list_ascii (drop n (list_ascii_of_string s)).

(** [s.split(/ +/)]: the text is cut at every maximal run of spaces;
    [in_run] tells that the previous character was a space of the run that
    closed the last piece. *)
Fixpoint split_spaces_from (in_run : bool) (cur : list ascii)
    (l : list ascii) : list string :=
  match l with
  | [] => [string_of_list_ascii (rev cur)]
  | c :: l' =>
      if Ascii.eqb c " "%char
      then (if in_run then split_spaces_from true [] l'
            else string_of_list_ascii (rev cur)
                   :: split_spaces_from true [] l')
      else split_spaces_from false (c :: cur) l'
  end.

Definition split_spaces (s : string) : list string :=
  split_spaces_from false [] (list_ascii_of_string s).

(** The value of a character as a digit, up to radix 36. *)
Definition digit_of (c : ascii) : option Z :=
  let n := Z.of_nat (nat_of_ascii c) in
  if (48 <=? n)%Z && (n <=? 57)%Z then Some (n - 48)%Z
  else if (97 <=? n)%Z && (n <=? 122)%Z then Some (n - 87)%Z
  else if (65 <=? n)%Z && (n <=? 90)%Z then Some (n - 55)%Z
  else None.

(** The number written by the longest prefix of radix-[radix] digits;
    [acc] is the value read so far, [None] before the first digit. *)
Fixpoint leading_digits (radix : Z) (acc : option Z) (l : list ascii)
  : option Z :=
  match l with
  | [] => acc
  | c :: l' =>
      match digit_of c with
      | Some d =>
          if (d <? radix)%Z
          then leading_digits radix (Some (radix * default 0 acc + d))%Z l'
          else acc
      | None => acc
      end
  end.

(** [parseInt(x)] without a radix; [None] is [NaN], and [x = None] is
    [undefined], which is read as the text [undefined].  Leading white
    space is skipped, then a sign, then [0x] or [0X] selects radix 16.  The
    result is the exact integer: a JavaScript number agrees with it up to
    2^53. *)
Definition parseInt (x : option string) : option Z :=
  let S0 := Js.drop_spaces (list_ascii_of_string (default "undefined" x)) in
  let sign_S :=
    match S0 with
    | "-"%char :: S1 => ((-1)%Z, S1)
    | "+"%char :: S1 => (1%Z, S1)
    | _ => (1%Z, S0)
    end in
  let R_S :=
    match sign_S.2 with
    | "0"%char :: "x"%char :: S2 => (16%Z, S2)
    | "0"%char :: "X"%char :: S2 => (16%Z, S2)
    | S1 => (10%Z, S1)
    end in
  match leading_digits R_S.1 None R_S.2 with
  | Some mathInt => Some (sign_S.1 * mathInt)%Z
  | None => None
  end.

End JsText.

(** ** modules/sqlDB.js, the todos *)

Module TodoDB.

(** A row of the Prisma model [Todo]
    ([id Int @id @default(autoincrement())], [task String],
    [dueDate String?], [completed Boolean @default(false)],
    [priority String @default("normal")],
    [createdAt DateTime @default(now())]). *)
Record Todo := {
  td_id : nat;
  td_task : string;
  td_dueDate : option string;
  td_completed : bool;
  td_priority : string;
  td_createdAt : string;
}.

(** The table: its rows in insertion order, and the largest id it has
    given out so far (an autoincrement key is never used again). *)
Record Table := {
  rows : list Todo;
  sequence : nat;
}.

Definition empty : Table := {| rows := []; sequence := 0 |}.

(** [prisma.todo.create] at database time [now]. *)
Definition create (now task : string) (dueDate : option string)
    (priority : string) (t : Table) : Todo :=
  {| td_id := S (sequence t); td_task := task; td_dueDate := dueDate;
     td_completed := false; td_priority := priority; td_createdAt := now |}.

(** [addTodo]: the failure is logged and thrown again. *)
Definition addTodo (db : SqlDB.Answer) (task : string)
    (dueDate : option string) (priority : string) (t : Table)
  : Table * Result Todo :=
  match db with
  | Some now =>
      let todo := create now task dueDate priority t in
      ({| rows := rows t ++ [todo]; sequence := S (sequence t) |}, Ok todo)
  | None => (t, Throw "prisma.todo.create")
  end.

(** [orderBy: [{ completed: 'asc' }, { createdAt: 'desc' }]]: [x] comes
    strictly before [y]. *)
Definition before (x y : Todo) : bool :=
  if Bool.eqb (td_completed x) (td_completed y)
  then String.ltb (td_createdAt y) (td_createdAt x)
  else negb (td_completed x).

(** Rows with equal keys keep the order of the table. *)
Fixpoint insert_ordered (e : Todo) (l : list Todo) : list Todo :=
  match l with
  | [] => [e]
  | x :: l' => if before x e then x :: insert_ordered e l' else e :: l
  end.

Definition order_by (l : list Todo) : list Todo := foldr insert_ordered [] l.

(** [getTodos(includeCompleted)]: a failure is logged and yields []. *)
Definition getTodos (db : SqlDB.Answer) (includeCompleted : bool)
    (t : Table) : list Todo :=
  match db with
  | Some _ =>
      order_by
        (filter (λ r, includeCompleted = true ∨ td_completed r = false)
           (rows t))
  | None => []
  end.

Definition set_completed (r : Todo) : Todo :=
  {| td_id := td_id r; td_task := td_task r; td_dueDate := td_dueDate r;
     td_completed := true; td_priority := td_priority r;
     td_createdAt := td_createdAt r |}.

(** [prisma.todo.findUnique]-style access by the key. *)
Definition row (id : nat) (t : Table) : option Todo :=
  List.find (λ r, (td_id r =? id)%nat) (rows t).

(** [completeTodo]: [prisma.todo.update] rejects when no row has the id;
    the failure is logged and thrown again. *)
Definition completeTodo (db : SqlDB.Answer) (id : nat) (t : Table)
  : Table * Result Todo :=
  match db with
  | Some _ =>
      match row id t with
      | Some r =>
          ({| rows := map (λ x, if (td_id x =? id)%nat
                                then set_completed x else x) (rows t);
              sequence := sequence t |},
           Ok (set_completed r))
      | None => (t, Throw "Record to update not found.")
      end
  | None => (t, Throw "prisma.todo.update")
  end.

(** [deleteTodo]: [prisma.todo.delete] rejects when no row has the id. *)
Definition deleteTodo (db : SqlDB.Answer) (id : nat) (t : Table)
  : Table * Result Todo :=
  match db with
  | Some _ =>
      match row id t with
      | Some r =>
          ({| rows := filter (λ x, td_id x ≠ id) (rows t);
              sequence := sequence t |},
           Ok r)
      | None => (t, Throw "Record to delete does not exist.")
      end
  | None => (t, Throw "prisma.todo.delete")
  end.

End TodoDB.

(** ** commands/todo.js *)

Module TodoCommand.

Import TodoDB.

(** What Prisma answers during one command: to the [findMany] of
    [getTodos] and to the write. *)
Record Db := {
  find_many : SqlDB.Answer;
  write : SqlDB.Answer;
}.

Definition usage : string :=
"Usage: `!todo [add|list|done|delete] [task]`

Examples:
`!todo add Buy groceries`
`!todo list`
`!todo done 1`
`!todo delete 2`".

Definition specify_task : string := "Please specify a task!".
Definition no_pending : string := "No pending todos! 🎉".
Definition specify_number : string := "Please specify a valid todo number!".
Definition error_occurred : string :=
  "An error occurred while managing your todos.".

Definition does_not_exist (n : Z) : string :=
  "Todo #" +:+ pretty n +:+ " doesn't exist!".

(** A line of the list, [i] counted from 0. *)
Definition line (i : nat) (t : Todo) : string :=
  pretty (i + 1)%nat +:+ ". " +:+ td_task t
  +:+ match td_dueDate t with
      | Some d => if String.eqb d "" then "" else " (due: " +:+ d +:+ ")"
      | None => ""
      end.

Definition listing (todos : list Todo) : string :=
  "📝 **Your todos:**" +:+ MemoryProcessor.nl
  +:+ Js.join MemoryProcessor.nl (imap line todos).

(** The [switch] inside the [try]. *)
Definition run_subcommand (db : Db) (args : list string) (t : Table)
  : Table * Result string :=
  match args !! 0%nat with
  | None => (t, Ok usage)
  | Some first =>
      let subcommand := JsText.toLowerCase first in
      if String.eqb subcommand "add"
      then
        let task := Js.join " " (drop 1 args) in
        if String.eqb task "" then (t, Ok specify_task)
        else
          match addTodo (write db) task None "normal" t with
          | (t', Ok _) => (t', Ok ("✅ Added: " +:+ task))
          | (t', Throw e) => (t', Throw e)
          end
      else if String.eqb subcommand "list" || String.eqb subcommand "show"
      then
        match getTodos (find_many db) false t with
        | [] => (t, Ok no_pending)
        | todos => (t, Ok (listing todos))
        end
      else if String.eqb subcommand "done"
              || String.eqb subcommand "complete"
      then
        match JsText.parseInt (args !! 1%nat) with
        | None => (t, Ok specify_number)
        | Some todoIndex =>
            if (todoIndex =? 0)%Z || (todoIndex <? 1)%Z
            then (t, Ok specify_number)
            else
              let allTodos := getTodos (find_many db) false t in
              if (Z.of_nat (length allTodos) <? todoIndex)%Z
              then (t, Ok (does_not_exist todoIndex))
              else
                match allTodos !! Z.to_nat (todoIndex - 1) with
                | Some todoToComplete =>
                    match completeTodo (write db) (td_id todoToComplete) t
                    with
                    | (t', Ok _) =>
                        (t', Ok ("✅ Completed: " +:+ td_task todoToComplete))
                    | (t', Throw e) => (t', Throw e)
                    end
                | None => (t, Throw "TypeError")
                end
        end
      else if String.eqb subcommand "delete"
              || String.eqb subcommand "remove"
      then
        match JsText.parseInt (args !! 1%nat) with
        | None => (t, Ok specify_number)
        | Some deleteIndex =>
            if (deleteIndex =? 0)%Z || (deleteIndex <? 1)%Z
            then (t, Ok specify_number)
            else
              let todosToDelete := getTodos (find_many db) false t in
              if (Z.of_nat (length todosToDelete) <? deleteIndex)%Z
              then (t, Ok (does_not_exist deleteIndex))
              else
                match todosToDelete !! Z.to_nat (deleteIndex - 1) with
                | Some todoToDelete =>
                    match deleteTodo (write db) (td_id todoToDelete) t with
                    | (t', Ok _) =>
                        (t', Ok ("🗑️ Deleted: " +:+ td_task todoToDelete))
                    | (t', Throw e) => (t', Throw e)
                    end
                | None => (t, Throw "TypeError")
                end
        end
      else (t, Ok usage)
  end.

(** [execute(message, args)]; the result is the text of the reply. *)
Definition execute (db : Db) (args : list string) (t : Table)
  : Table * Result string :=
  match run_subcommand db args t with
  | (t', Ok reply) => (t', Ok reply)
  | (t', Throw _) => (t', Ok error_occurred)
  end.

End TodoCommand.

(** ** modules/aiChat.js, the tools *)

Module Tools.

Import TodoDB.

(** The object [JSON.parse(toolCall.function.arguments)], with the
    properties the tools read. *)
Record Args := {
  arg_task : option string;
  arg_priority : option string;
  arg_include_completed : option bool;
  arg_task_description : option string;
}.

(** A tool call: [arguments] is [None] when [JSON.parse] throws. *)
Record ToolCall := {
  function_name : string;
  arguments : option Args;
}.

(** An element of the [todos] of a [get_todos] answer. *)
Record Numbered := {
  number : nat;
  nb_task : string;
  nb_priority : string;
  nb_completed : bool;
  nb_dueDate : option string;
}.

Record ToolResult := {
  success : bool;
  message : option string;
  todo : option Todo;
  todos : option (list Numbered);
}.

Definition answer (ok : bool) (text : string) : ToolResult :=
  {| success := ok; message := Some text; todo := None; todos := None |}.

(** The text of a property inside a template literal. *)
Definition shown (x : option string) : string := default "undefined" x.

Definition numbered (i : nat) (t : Todo) : Numbered :=
  {| number := (i + 1)%nat; nb_task := td_task t;
     nb_priority := td_priority t; nb_completed := td_completed t;
     nb_dueDate := td_dueDate t |}.

(** [allTodos.find(t => t.task.toLowerCase().includes(
    args.task_description.toLowerCase()))]: the callback throws a
    [TypeError] when the description is missing, so the search does when
    there is a todo to look at. *)
Definition find_matching (description : option string) (todos : list Todo)
  : Result (option Todo) :=
  match todos, description with
  | [], _ => Ok None
  | _ :: _, None => Throw "Cannot read properties of undefined"
  | _ :: _, Some d =>
      Ok (List.find
            (λ t, JsText.includes (JsText.toLowerCase (td_task t))
                    (JsText.toLowerCase d))
            todos)
  end.

(** The [switch] inside the [try]. *)
Definition run_tool (db : TodoCommand.Db) (functionName : string)
    (args : Args) (t : Table) : Table * Result ToolResult :=
  if String.eqb functionName "add_todo"
  then
    match arg_task args with
    | Some task =>
        let priority :=
          match arg_priority args with
          | Some p => if String.eqb p "" then "normal" else p
          | None => "normal"
          end in
        match addTodo (TodoCommand.write db) task None priority t with
        | (t', Ok newTodo) =>
            (t', Ok {| success := true;
                       message := Some ("Added todo: " +:+ task);
                       todo := Some newTodo; todos := None |})
        | (t', Throw e) => (t', Throw e)
        end
    | None => (t, Throw "Argument `task` is missing.")
    end
  else if String.eqb functionName "get_todos"
  then
    let listed :=
      getTodos (TodoCommand.find_many db)
        (default false (arg_include_completed args)) t in
    (t, Ok {| success := true; message := None; todo := None;
              todos := Some (imap numbered listed) |})
  else if String.eqb functionName "complete_todo"
  then
    match find_matching (arg_task_description args)
            (getTodos (TodoCommand.find_many db) false t) with
    | Ok None =>
        (t, Ok (answer false ("No todo found matching: "
                              +:+ shown (arg_task_description args))))
    | Ok (Some todoToComplete) =>
        match completeTodo (TodoCommand.write db) (td_id todoToComplete) t
        with
        | (t', Ok _) =>
            (t', Ok (answer true ("Completed: " +:+ td_task todoToComplete)))
        | (t', Throw e) => (t', Throw e)
        end
    | Throw e => (t, Throw e)
    end
  else if String.eqb functionName "delete_todo"
  then
    match find_matching (arg_task_description args)
            (getTodos (TodoCommand.find_many db) false t) with
    | Ok None =>
        (t, Ok (answer false ("No todo found matching: "
                              +:+ shown (arg_task_description args))))
    | Ok (Some todoToDelete) =>
        match deleteTodo (TodoCommand.write db) (td_id todoToDelete) t with
        | (t', Ok _) =>
            (t', Ok (answer true ("Deleted: " +:+ td_task todoToDelete)))
        | (t', Throw e) => (t', Throw e)
        end
    | Throw e => (t, Throw e)
    end
  else (t, Ok (answer false ("Unknown function: " +:+ functionName))).

(** [executeToolCall] on the Todo table: [JSON.parse] runs before the
    [try], whose [catch] turns every later failure into an answer. *)
Definition executeToolCall (db : TodoCommand.Db) (toolCall : ToolCall)
    (t : Table) : Table * Result ToolResult :=
  match arguments toolCall with
  | None => (t, Throw "JSON.parse")
  | Some args =>
      match run_tool db (function_name toolCall) args t with
      | (t', Ok result) => (t', Ok result)
      | (t', Throw e) => (t', Ok (answer false ("Error: " +:+ e)))
      end
  end.

End Tools.

(** ** events/message.js *)

Module MessageEvent.

(** The files of [commands/], which the command handler loads. *)
Inductive Command := help | ping | todo.

Definition name (c : Command) : string :=
  match c with help => "help" | ping => "ping" | todo => "todo" end.

(** [cmd.aliases]; [ping] has none. *)
Definition aliases (c : Command) : option (list string) :=
  match c with
  | help => Some ["commands"; "h"]
  | ping => None
  | todo => Some ["task"; "t"]
  end.

(** [client.commands], in loading order. *)
Definition commands : list Command := [help; ping; todo].

(** [client.commands.get(commandName) || client.commands.find(cmd =>
    cmd.aliases && cmd.aliases.includes(commandName))] *)
Definition find_command (commandName : string) : option Command :=
  match List.find (λ c, String.eqb (name c) commandName) commands with
  | Some c => Some c
  | None =>
      List.find
        (λ c, match aliases c with
              | Some l => bool_decide (commandName ∈ l)
              | None => false
              end)
        commands
  end.

(** What the handler sees of a Discord message. *)
Record Incoming := {
  author_bot : bool;
  mentions_client : bool;
  content : string;
}.

(** The call the handler makes for a message. *)
Inductive Call :=
| Nothing
| Execute (command : Command) (args : list string)
| HandleAIChat.

(** [execute(message, client)], up to the call it awaits. *)
Definition execute (prefix : string) (message : Incoming) : Call :=
  if author_bot message then Nothing
  else if String.prefix prefix (content message)
  then
    match JsText.split_spaces
            (Js.trim (JsText.slice (String.length prefix) (content message)))
    with
    | first :: args =>
        match find_command (JsText.toLowerCase first) with
        | Some command => Execute command args
        | None => Nothing
        end
    | [] => Nothing
    end
  else if mentions_client message then HandleAIChat
  else Nothing.

End MessageEvent.

(** ** Histories of the todo list *)

(** What reaches the Todo table: a todo command or a tool call of the model,
    each with the answers of the database. *)
Inductive TodoAction :=
| Command (db : TodoCommand.Db) (args : list string)
| Tool (db : TodoCommand.Db) (toolCall : Tools.ToolCall).

Definition todo_step (t : TodoDB.Table) (a : TodoAction) : TodoDB.Table :=
  match a with
  | Command db args => fst (TodoCommand.execute db args t)
  | Tool db toolCall => fst (Tools.executeToolCall db toolCall t)
  end.

Definition todo_run (acts : list TodoAction) (t : TodoDB.Table)
  : TodoDB.Table :=
  foldl todo_step t acts.

(** ** Vocabulary of the statements on todos *)

(** The ids of the table, in row order. *)
Definition todo_ids (t : TodoDB.Table) : list nat :=
  map TodoDB.td_id (TodoDB.rows t).

(** The table respects its key: no id twice, none beyond the sequence. *)
Definition keyed (t : TodoDB.Table) : Prop :=
  NoDup (todo_ids t) ∧ Forall (λ i, (i ≤ TodoDB.sequence t)%nat) (todo_ids t).

(** The pending todos as the list command numbers them. *)
Definition pending (t : TodoDB.Table) : list TodoDB.Todo :=
  TodoDB.getTodos (Some "") false t.

(** Rows in the order of [getTodos]: no row comes strictly before a row
    listed ahead of it. *)
Definition listed_order (l : list TodoDB.Todo) : Prop :=
  StronglySorted (λ x y, TodoDB.before y x = false) l.

(** [t'] is a later state of the table [t]: the sequence has not gone back,
    and every row is a new one (with an id beyond the old sequence), a row
    of [t] as it was, or a row of [t] marked completed. *)
Definition later_table (t t' : TodoDB.Table) : Prop :=
  (TodoDB.sequence t ≤ TodoDB.sequence t')%nat
  ∧ ∀ x, x ∈ TodoDB.rows t' →
         (TodoDB.sequence t < TodoDB.td_id x)%nat
         ∨ x ∈ TodoDB.rows t
         ∨ ∃ y, y ∈ TodoDB.rows t ∧ x = TodoDB.set_completed y.

(** Both calls of a command are answered. *)
Definition answered (db : TodoCommand.Db) : Prop :=
  is_Some (TodoCommand.find_many db) ∧ is_Some (TodoCommand.write db).



(** A tool call as the chat turn sees it: its name, and whether its
    arguments parse. *)
Definition seen_by_chat (toolCall : Tools.ToolCall) : AiChat.ToolCall :=
  {| AiChat.tool_name := Tools.function_name toolCall;
     AiChat.arguments_parse :=
       bool_decide (is_Some (Tools.arguments toolCall)) |}.

Module TodoSample.

Import TodoDB.

Definition db : TodoCommand.Db :=
  {| TodoCommand.find_many := Some "2024-05-02T09:00:00.000Z";
     TodoCommand.write := Some "2024-05-02T09:00:00.000Z" |}.

Definition read_only : TodoCommand.Db :=
  {| TodoCommand.find_many := Some "2024-05-02T09:00:00.000Z";
     TodoCommand.write := None |}.

Definition milk : Todo :=
  {| td_id := 1; td_task := "Buy milk"; td_dueDate := None;
     td_completed := false; td_priority := "normal";
     td_createdAt := "2024-05-01T08:00:00.000Z" |}.

Definition taxes : Todo :=
  {| td_id := 2; td_task := "File taxes"; td_dueDate := Some "Friday";
     td_completed := true; td_priority := "high";
     td_createdAt := "2024-05-01T09:00:00.000Z" |}.

Definition call_mum : Todo :=
  {| td_id := 4; td_task := "Call Mum"; td_dueDate := None;
     td_completed := false; td_priority := "normal";
     td_createdAt := "2024-05-01T10:00:00.000Z" |}.

(** Three rows; the todo with id 3 has been deleted. *)
Definition table : Table :=
  {| rows := [milk; taxes; call_mum]; sequence := 4 |}.

Definition water : Todo :=
  {| td_id := 5; td_task := "Water plants"; td_dueDate := None;
     td_completed := false; td_priority := "normal";
     td_createdAt := "2024-05-02T09:00:00.000Z" |}.

Definition watered : Table :=
  {| rows := [milk; taxes; call_mum; water]; sequence := 5 |}.



End TodoSample.

(** * Properties *)

(** ** Reasoning about computations *)

Section Monad.

Context {A B : Type}.

Lemma bind_ok (m : M A) (f : A → M B) w w' a :
  m w = (w', Ok a) → bind m f w = f a w'.
Proof. unfold bind. by intros ->. Qed.

Lemma bind_throw (m : M A) (f : A → M B) w w' e :
  m w = (w', Throw e) → bind m f w = (w', Throw e).
Proof. unfold bind. by intros ->. Qed.

Lemma try_catch_ok (m : M A) h w w' a :
  m w = (w', Ok a) → try_catch m h w = (w', Ok a).
Proof. unfold try_catch. by intros ->. Qed.

Lemma try_catch_throw (m : M A) h w w' e :
  m w = (w', Throw e) → try_catch m h w = h e w'.
Proof. unfold try_catch. by intros ->. Qed.

End Monad.

Section Preserves.

Context (P : World → Prop).

Lemma preserves_ret {A} (a : A) : preserves P (ret a).
Proof. by intros w. Qed.

Lemma preserves_throw {A} e : preserves P (@throw A e).
Proof. by intros w. Qed.

Lemma preserves_gets {A} (f : World → A) : preserves P (gets f).
Proof. by intros w. Qed.

Lemma preserves_await {A} what (answer : option A) :
  preserves P (await what answer).
Proof. by destruct answer; intros w. Qed.

Lemma preserves_modify f :
  (∀ w, P w → P (f w)) → preserves P (modify f).
Proof. intros H w. apply H. Qed.

Lemma preserves_bind {A B} (m : M A) (f : A → M B) :
  preserves P m → (∀ a, preserves P (f a)) → preserves P (bind m f).
Proof.
  intros Hm Hf w Hw. unfold bind.
  specialize (Hm w Hw). destruct (m w) as [w' [a|e]]; simpl in *.
  - by apply Hf.
  - done.
Qed.

Lemma preserves_try_catch {A} (m : M A) h :
  preserves P m → (∀ e, preserves P (h e)) → preserves P (try_catch m h).
Proof.
  intros Hm Hh w Hw. unfold try_catch.
  specialize (Hm w Hw). destruct (m w) as [w' [a|e]]; simpl in *.
  - done.
  - by apply Hh.
Qed.

Lemma preserves_for_of {A} (body : nat → A → M unit) i l :
  (∀ i x, preserves P (body i x)) → preserves P (for_of body i l).
Proof.
  intros Hb. revert i.
  induction l as [|x l IH]; intros i; simpl.
  - apply preserves_ret.
  - apply preserves_bind; [apply Hb | intros _; apply IH].
Qed.

End Preserves.

Create HintDb pres discriminated.

#[global] Hint Resolve preserves_ret preserves_throw preserves_gets
  preserves_await : pres.

(** Breaks a [preserves] goal along the structure of the computation; what
    is left are the state updates and the calls of other functions. *)
Ltac pres_step :=
  match goal with
  | |- preserves _ (bind _ _) => apply preserves_bind; [| intros ?]
  | |- preserves _ (try_catch _ _) => apply preserves_try_catch; [| intros ?]
  | |- preserves _ (for_of _ _ _) => apply preserves_for_of; intros ? ?
  | |- preserves _ (if ?b then _ else _) => destruct b
  | |- preserves _ (match ?x with _ => _ end) => destruct x
  | |- preserves _ (let _ := _ in _) => cbv zeta
  | |- preserves _ (modify _) =>
      apply preserves_modify; solve [eauto with pres]
  | |- preserves _ _ => solve [auto with pres]
  end.

Ltac pres := repeat pres_step.

Section Total.

Lemma total_ret {A} (a : A) : total (ret a).
Proof. intros w. by exists a. Qed.

Lemma total_gets {A} (f : World → A) : total (gets f).
Proof. intros w. by eexists. Qed.

Lemma total_modify f : total (modify f).
Proof. intros w. by exists tt. Qed.

Lemma total_bind {A B} (m : M A) (f : A → M B) :
  total m → (∀ a, total (f a)) → total (bind m f).
Proof.
  intros Hm Hf w. unfold bind. destruct (Hm w) as [a Ha].
  destruct (m w) as [w' r]; simpl in *; subst. apply Hf.
Qed.

Lemma total_try_catch {A} (m : M A) h :
  (∀ e, total (h e)) → total (try_catch m h).
Proof.
  intros Hh w. unfold try_catch.
  destruct (m w) as [w' [a|e]]; [by exists a | apply Hh].
Qed.

Lemma total_for_of {A} (body : nat → A → M unit) i l :
  (∀ i x, total (body i x)) → total (for_of body i l).
Proof.
  intros Hb. revert i. induction l as [|x l IH]; intros i; simpl.
  - apply total_ret.
  - apply total_bind; [apply Hb | intros _; apply IH].
Qed.

(** A total computation run in sequence: the continuation is reached. *)
Lemma bind_total {A B} (m : M A) (f : A → M B) w :
  total m → ∃ a, bind m f w = f a (fst (m w)).
Proof.
  intros Hm. destruct (Hm w) as [a Ha]. exists a. unfold bind.
  destruct (m w) as [w' r]; simpl in *; by subst.
Qed.

End Total.

(** ** Which part of the state each function can change *)

Section Frames.

Context (P : World → Prop).

Hypothesis ignores_collection : ∀ b w, P w → P (set_collection b w).
Hypothesis ignores_documents : ∀ f w, P w → P (set_documents f w).
Hypothesis ignores_event : ∀ f w, P w → P (set_event f w).
Hypothesis stable_upsert : ∀ now id processingType storedIn w,
  P w → P (set_ledger (SqlDB.upsert now id processingType storedIn) w).
Hypothesis stable_push_user : ∀ env message input w,
  P w → P (set_cache (λ c, c ++ [AiChat.user_entry env message input]) w).
Hypothesis stable_push_assistant : ∀ botReply w,
  P w → P (set_cache (λ c, c ++ [AiChat.assistant_entry botReply]) w).
Hypothesis stable_trim : ∀ w, P w → P (set_cache AiChat.trim_cache w).
Hypothesis stable_clear : ∀ w, P w → P (set_cache (λ _, []) w).

Local Hint Resolve ignores_collection ignores_documents ignores_event
  stable_upsert stable_push_user stable_push_assistant stable_trim
  stable_clear : pres.

Lemma addEvent_preserves db date description participants context :
  preserves P (SqlDB.addEvent db date description participants context).
Proof using ignores_event. unfold SqlDB.addEvent. pres. Qed.

Lemma getRecentEvents_preserves cutoff days :
  preserves P (SqlDB.getRecentEvents cutoff days).
Proof. unfold SqlDB.getRecentEvents. pres. Qed.

Lemma markMessageProcessed_preserves db id processingType storedIn :
  preserves P (SqlDB.markMessageProcessed db id processingType storedIn).
Proof using stable_upsert. unfold SqlDB.markMessageProcessed. pres. Qed.

Lemma isMessageProcessed_preserves db id :
  preserves P (SqlDB.isMessageProcessed db id).
Proof. unfold SqlDB.isMessageProcessed. pres. Qed.

Lemma initializeVectorDB_preserves a :
  preserves P (VectorDB.initializeVectorDB a).
Proof using ignores_collection. unfold VectorDB.initializeVectorDB. pres. Qed.

Lemma generateEmbedding_preserves answer :
  preserves P (VectorDB.generateEmbedding answer).
Proof. unfold VectorDB.generateEmbedding. pres. Qed.

Local Hint Resolve initializeVectorDB_preserves generateEmbedding_preserves
  : pres.

Lemma ensure_collection_preserves a :
  preserves P (VectorDB.ensure_collection a).
Proof using ignores_collection. unfold VectorDB.ensure_collection. pres. Qed.

Local Hint Resolve ensure_collection_preserves : pres.

Lemma searchMemories_preserves a q limit :
  preserves P (VectorDB.searchMemories a q limit).
Proof using ignores_collection. unfold VectorDB.searchMemories. pres. Qed.

Lemma checkDuplicate_preserves a factText threshold :
  preserves P (VectorDB.checkDuplicate a factText threshold).
Proof using ignores_collection. unfold VectorDB.checkDuplicate. pres. Qed.

Lemma enrichExistingFact_preserves a factId newText newMessageId ts :
  preserves P (VectorDB.enrichExistingFact a factId newText newMessageId ts).
Proof using ignores_documents. unfold VectorDB.enrichExistingFact. pres. Qed.

Local Hint Resolve checkDuplicate_preserves enrichExistingFact_preserves
  : pres.

Lemma storeFactSafely_preserves config a factText messageId ts category :
  preserves P
    (VectorDB.storeFactSafely config a factText messageId ts category).
Proof using ignores_collection ignores_documents.
  unfold VectorDB.storeFactSafely. pres.
Qed.

Lemma storeMemory_preserves a narrative metadata :
  preserves P (VectorDB.storeMemory a narrative metadata).
Proof using ignores_collection ignores_documents.
  unfold VectorDB.storeMemory. pres.
Qed.

Lemma detectImportance_preserves config chat message context :
  preserves P (MemoryProcessor.detectImportance config chat message context).
Proof. unfold MemoryProcessor.detectImportance. pres. Qed.

Lemma extractWithContext_preserves config chat message cache id :
  preserves P
    (MemoryProcessor.extractWithContext config chat message cache id).
Proof. unfold MemoryProcessor.extractWithContext. pres. Qed.

Lemma processConversations_preserves chat now messages :
  preserves P (MemoryProcessor.processConversations chat now messages).
Proof. unfold MemoryProcessor.processConversations. pres. Qed.

Lemma reformulateQuery_preserves chat query context :
  preserves P (MemoryProcessor.reformulateQuery chat query context).
Proof. unfold MemoryProcessor.reformulateQuery. pres. Qed.

Local Hint Resolve addEvent_preserves getRecentEvents_preserves
  markMessageProcessed_preserves isMessageProcessed_preserves
  searchMemories_preserves storeFactSafely_preserves storeMemory_preserves
  detectImportance_preserves extractWithContext_preserves
  processConversations_preserves reformulateQuery_preserves : pres.

Lemma executeToolCall_preserves toolCall :
  preserves P (AiChat.executeToolCall toolCall).
Proof. unfold AiChat.executeToolCall. pres. Qed.

Local Hint Resolve executeToolCall_preserves : pres.

Lemma generate_preserves g : preserves P (AiChat.generate g).
Proof. induction g as [|m next IH]; simpl; pres. Qed.

Lemma store_fact_preserves config env message input i fact :
  preserves P (AiChat.store_fact config env message input i fact).
Proof using ignores_collection ignores_documents ignores_event.
  unfold AiChat.store_fact. pres.
Qed.

Local Hint Resolve generate_preserves store_fact_preserves : pres.

Lemma immediate_storage_preserves config env message input :
  preserves P (AiChat.immediate_storage config env message input).
Proof using ignores_collection ignores_documents ignores_event stable_upsert.
  unfold AiChat.immediate_storage. pres.
Qed.

Local Hint Resolve immediate_storage_preserves : pres.

Lemma respond_preserves config env message input :
  preserves P (AiChat.respond config env message input).
Proof using ignores_collection ignores_documents ignores_event stable_upsert
  stable_push_user stable_push_assistant stable_trim.
  unfold AiChat.respond. pres.
Qed.

Local Hint Resolve respond_preserves : pres.

Lemma handleAIChat_preserves config env message :
  preserves P (AiChat.handleAIChat config env message).
Proof using ignores_collection ignores_documents ignores_event stable_upsert
  stable_push_user stable_push_assistant stable_trim.
  unfold AiChat.handleAIChat. pres.
Qed.

Lemma gather_preserves env i cache : preserves P (Scheduler.gather env i cache).
Proof. revert i. induction cache as [|msg rest IH]; intros i; simpl; pres. Qed.

Local Hint Resolve gather_preserves : pres.

Lemma mark_message_preserves env i msg :
  preserves P (Scheduler.mark_message env i msg).
Proof using stable_upsert. unfold Scheduler.mark_message. pres. Qed.

Lemma store_chunk_preserves env i chunk :
  preserves P (Scheduler.store_chunk env i chunk).
Proof using ignores_collection ignores_documents.
  unfold Scheduler.store_chunk. pres.
Qed.

Local Hint Resolve mark_message_preserves store_chunk_preserves : pres.

Lemma runConsolidation_preserves env :
  preserves P (Scheduler.runConsolidation env).
Proof using ignores_collection ignores_documents stable_upsert stable_clear.
  unfold Scheduler.runConsolidation, AiChat.getConversationCache,
    AiChat.clearConversationCache.
  pres.
Qed.

(** An invariant of both entry points holds along every history. *)
Lemma run_preserves config acts w : P w → P (run config acts w).
Proof using All.
  revert w. induction acts as [|a acts IH]; intros w Hw; simpl; [done|].
  apply IH. destruct a as [env message|env]; simpl.
  - by apply handleAIChat_preserves.
  - by apply runConsolidation_preserves.
Qed.

End Frames.

(** ** The processed-message ledger *)

Section Ledger.

Import SqlDB.

Lemma findUnique_Some id t r :
  findUnique id t = Some r → r ∈ t ∧ lr_messageId r = id.
Proof.
  unfold findUnique. intros H. apply find_some in H as [Hin Heq].
  split; [by apply list_elem_of_In | by apply String.eqb_eq].
Qed.

Lemma findUnique_None id t : findUnique id t = None ↔ id ∉ keys t.
Proof.
  unfold findUnique, keys. induction t as [|r t IH]; simpl.
  - split; [intros _; apply not_elem_of_nil | done].
  - destruct (String.eqb_spec (lr_messageId r) id) as [->|Hne].
    + split; [done | intros H; exfalso; apply H; left].
    + rewrite IH, not_elem_of_cons. split; [by intros ?; split | by intros []].
Qed.

Lemma findUnique_is_Some id t : is_Some (findUnique id t) ↔ id ∈ keys t.
Proof.
  rewrite <- not_eq_None_Some, findUnique_None.
  split; [apply dec_stable | by intros ? ?].
Qed.

Lemma upsert_keys now id processingType storedIn t :
  keys (upsert now id processingType storedIn t)
  = if bool_decide (id ∈ keys t) then keys t else keys t ++ [id].
Proof.
  unfold keys. induction t as [|r t IH]; simpl.
  - done.
  - destruct (String.eqb_spec (lr_messageId r) id) as [->|Hne]; simpl.
    + by rewrite bool_decide_eq_true_2 by left.
    + rewrite IH. case_bool_decide as Hin.
      * by rewrite bool_decide_eq_true_2 by (by right).
      * rewrite bool_decide_eq_false_2; [done|].
        rewrite not_elem_of_cons. naive_solver.
Qed.

Lemma upsert_NoDup now id processingType storedIn t :
  NoDup (keys t) → NoDup (keys (upsert now id processingType storedIn t)).
Proof.
  intros Hnd. rewrite upsert_keys. case_bool_decide as Hin; [done|].
  apply NoDup_app. split_and!; [done | | apply NoDup_singleton].
  intros x Hx ->%list_elem_of_singleton. done.
Qed.

Lemma upsert_length_existing now id processingType storedIn t :
  id ∈ keys t → length (upsert now id processingType storedIn t) = length t.
Proof.
  intros Hin.
  rewrite <- (length_map lr_messageId), <- (length_map lr_messageId t).
  fold (keys (upsert now id processingType storedIn t)). fold (keys t).
  by rewrite upsert_keys, bool_decide_eq_true_2.
Qed.

Lemma findUnique_upsert_eq now id processingType storedIn t :
  findUnique id (upsert now id processingType storedIn t)
  = Some {| lr_messageId := id;
            lr_processedAt :=
              match findUnique id t with
              | Some r => lr_processedAt r
              | None => now
              end;
            lr_processingType := processingType;
            lr_storedIn := storedIn |}.
Proof.
  unfold findUnique. induction t as [|r t IH]; simpl.
  - by rewrite String.eqb_refl.
  - destruct (String.eqb_spec (lr_messageId r) id) as [Heq|Hne]; simpl.
    + rewrite Heq, String.eqb_refl. done.
    + apply String.eqb_neq in Hne. by rewrite Hne.
Qed.

Lemma findUnique_upsert_ne now id id' processingType storedIn t :
  id ≠ id' →
  findUnique id' (upsert now id processingType storedIn t) = findUnique id' t.
Proof.
  intros Hne. unfold findUnique. induction t as [|r t IH]; simpl.
  - apply String.eqb_neq in Hne. by rewrite Hne.
  - destruct (String.eqb_spec (lr_messageId r) id) as [Heq|Hne']; simpl.
    + rewrite Heq. apply String.eqb_neq in Hne. by rewrite Hne.
    + by rewrite IH.
Qed.

Lemma records_for_not_in id t : id ∉ keys t → records_for id t = [].
Proof.
  unfold records_for, keys. induction t as [|r t IH]; [done|].
  rewrite fmap_cons, not_elem_of_cons. intros [Hne Hnin].
  rewrite filter_cons_False by done. by apply IH.
Qed.

Lemma NoDup_keys_records_for id t :
  NoDup (keys t) → (length (records_for id t) ≤ 1)%nat.
Proof.
  unfold records_for, keys. induction t as [|r t IH]; [simpl; lia|].
  rewrite fmap_cons, NoDup_cons. intros [Hnin Hnd].
  destruct (decide (lr_messageId r = id)) as [Heq|Hne].
  - rewrite filter_cons_True by done. subst id.
    pose proof (records_for_not_in _ _ Hnin) as Hnil.
    unfold records_for in Hnil. rewrite Hnil. simpl. lia.
  - rewrite filter_cons_False by done. by apply IH.
Qed.

(** Along every history of the process the ids of the table are pairwise
    distinct. *)
Lemma run_ledger_NoDup config acts :
  NoDup (keys (processedMessage (run config acts initial_world))).
Proof.
  apply (run_preserves (λ w, NoDup (keys (processedMessage w))));
    try done.
  - intros now id processingType storedIn w Hw. simpl.
    by apply upsert_NoDup.
  - simpl. apply NoDup_nil_2.
Qed.

End Ledger.

(** ** Functions that only read the state *)

Section ReadOnly.

Import SqlDB MemoryProcessor.

Lemma isMessageProcessed_eq db id w :
  isMessageProcessed db id w
  = (w, Ok match db with
           | Some _ => bool_decide (is_Some (findUnique id (processedMessage w)))
           | None => false
           end).
Proof. by destruct db. Qed.

Lemma detectImportance_state config chat message context w :
  fst (detectImportance config chat message context w) = w.
Proof. by apply (detectImportance_preserves (λ w', w' = w)). Qed.

Lemma extractWithContext_state config chat message cache id w :
  fst (extractWithContext config chat message cache id w) = w.
Proof. by apply (extractWithContext_preserves (λ w', w' = w)). Qed.

Lemma processConversations_state chat now messages w :
  fst (processConversations chat now messages w) = w.
Proof. by apply (processConversations_preserves (λ w', w' = w)). Qed.

Lemma reformulateQuery_state chat query context w :
  fst (reformulateQuery chat query context w) = w.
Proof. by apply (reformulateQuery_preserves (λ w', w' = w)). Qed.

Lemma getRecentEvents_state cutoff days w :
  fst (getRecentEvents cutoff days w) = w.
Proof. by apply (getRecentEvents_preserves (λ w', w' = w)). Qed.

Lemma generate_state g w : fst (AiChat.generate g w) = w.
Proof. by apply (generate_preserves (λ w', w' = w)). Qed.

Lemma gather_state env i cache w : fst (Scheduler.gather env i cache w) = w.
Proof. by apply (gather_preserves (λ w', w' = w)). Qed.

Lemma detectImportance_total config chat message context :
  total (detectImportance config chat message context).
Proof. apply total_try_catch. intros ?. apply total_ret. Qed.

Lemma extractWithContext_total config chat message cache id :
  total (extractWithContext config chat message cache id).
Proof. apply total_try_catch. intros ?. apply total_ret. Qed.

Lemma processConversations_total chat now messages :
  total (processConversations chat now messages).
Proof. apply total_try_catch. intros ?. apply total_ret. Qed.

Lemma reformulateQuery_total chat query context :
  total (reformulateQuery chat query context).
Proof. apply total_try_catch. intros ?. apply total_ret. Qed.

Lemma getRecentEvents_total cutoff days : total (getRecentEvents cutoff days).
Proof. apply total_try_catch. intros ?. apply total_ret. Qed.

Lemma searchMemories_total a q limit : total (VectorDB.searchMemories a q limit).
Proof. apply total_try_catch. intros ?. apply total_ret. Qed.

Lemma storeFactSafely_total config a factText messageId ts category :
  total (VectorDB.storeFactSafely config a factText messageId ts category).
Proof. apply total_try_catch. intros ?. apply total_ret. Qed.

Lemma storeMemory_total a narrative metadata :
  total (VectorDB.storeMemory a narrative metadata).
Proof. apply total_try_catch. intros ?. apply total_ret. Qed.

(** A computation that only reads the state and never throws is a value. *)
Lemma read_only_value {A} (m : M A) w :
  fst (m w) = w → total m → ∃ a, m w = (w, Ok a).
Proof.
  intros Hst Ht. destruct (Ht w) as [a Ha]. exists a.
  destruct (m w) as [w' r]; simpl in *. by subst.
Qed.

End ReadOnly.

Section Consolidation.

Import SqlDB MemoryProcessor Scheduler.

Lemma gather_cons env i msg rest w :
  gather env i (msg :: rest) w
  = let keep :=
      match has_messageId msg with
      | Some id =>
          match lookup env i with
          | Some _ =>
              negb (bool_decide
                      (is_Some (findUnique id (processedMessage w))))
          | None => true
          end
      | None => false
      end in
    match gather env (S i) rest w with
    | (w', Ok more) => (w', Ok (if keep then msg :: more else more))
    | (w', Throw e) => (w', Throw e)
    end.
Proof.
  cbn [gather]. unfold bind at 1.
  destruct (has_messageId msg) as [id|].
  - unfold bind at 1. rewrite isMessageProcessed_eq.
    unfold ret at 1, bind. destruct (lookup env i); simpl;
      by destruct (gather env (S i) rest w) as [w' [more|e]].
  - unfold ret at 1, bind.
    by destruct (gather env (S i) rest w) as [w' [more|e]].
Qed.

Lemma gather_spec env cache i w :
  ∃ l, gather env i cache w = (w, Ok l)
       ∧ l `sublist_of` cache
       ∧ Forall (λ msg, is_Some (has_messageId msg)) l.
Proof.
  revert i. induction cache as [|msg rest IH]; intros i.
  - exists []. by split_and!.
  - destruct (IH (S i)) as (more & Hg & Hsub & Hall).
    rewrite gather_cons, Hg. cbv zeta.
    destruct (has_messageId msg) as [id|] eqn:Hid.
    + destruct (match lookup env i with Some _ => _ | None => _ end).
      * exists (msg :: more). split_and!; [done | by constructor |].
        constructor; [by rewrite Hid | done].
      * exists more. split_and!; [done | by constructor | done].
    + exists more. split_and!; [done | by constructor | done].
Qed.

Lemma gather_resolved env cache i w :
  (∀ j, j < length cache → is_Some (lookup env (i + j))) →
  gather env i cache w
  = (w, Ok (filter (λ msg, unledgered (processedMessage w) msg) cache)).
Proof.
  revert i. induction cache as [|msg rest IH]; intros i Hres; [done|].
  rewrite gather_cons, IH; cycle 1.
  { intros j Hj. replace (S i + j) with (i + S j) by lia.
    apply Hres. simpl. lia. }
  cbv zeta. destruct (Hres 0) as [now Hnow]; [simpl; lia|].
  rewrite Nat.add_0_r in Hnow. rewrite Hnow, filter_cons.
  unfold unledgered.
  destruct (has_messageId msg) as [id|]; [|done].
  by destruct (bool_decide _).
Qed.

Lemma markMessageProcessed_ok now id processingType storedIn w :
  markMessageProcessed (Some now) id processingType storedIn w
  = (set_ledger (upsert now id processingType storedIn) w, Ok tt).
Proof. done. Qed.

Lemma markMessageProcessed_rejected id processingType storedIn w :
  ∃ e, markMessageProcessed None id processingType storedIn w = (w, Throw e).
Proof. by eexists. Qed.

Lemma ledgered_as_upsert now id processingType storedIn t :
  ledgered_as processingType storedIn id
    (upsert now id processingType storedIn t).
Proof. eexists. by rewrite findUnique_upsert_eq. Qed.

Lemma ledgered_as_upsert_other now id id' processingType storedIn t :
  ledgered_as processingType storedIn id t →
  ledgered_as processingType storedIn id
    (upsert now id' processingType storedIn t).
Proof.
  intros Hl. destruct (decide (id' = id)) as [->|Hne].
  - apply ledgered_as_upsert.
  - destruct Hl as (r & Hr & Hp & Hs). exists r.
    by rewrite findUnique_upsert_ne.
Qed.

Lemma for_of_store_chunk env chunks i w :
  ∃ w', for_of (store_chunk env) i chunks w = (w', Ok tt)
        ∧ conversation_cache w' = conversation_cache w
        ∧ processedMessage w' = processedMessage w.
Proof.
  destruct (total_for_of (store_chunk env) i chunks) with (w := w)
    as [[] Hok].
  { intros j chunk. apply storeMemory_total. }
  assert (preserves
            (λ w', conversation_cache w' = conversation_cache w
                   ∧ processedMessage w' = processedMessage w)
            (for_of (store_chunk env) i chunks)) as Hfr.
  { apply preserves_for_of. intros j chunk.
    by apply store_chunk_preserves. }
  specialize (Hfr w (conj eq_refl eq_refl)).
  destruct (for_of (store_chunk env) i chunks w) as [w' r] eqn:E.
  simpl in Hok. subst r. exists w'. split; [done|].
  done.
Qed.

Lemma for_of_mark_message env l i w :
  (∀ j, j < length l → is_Some (batch_mark env (i + j))) →
  ∃ w', for_of (mark_message env) i l w = (w', Ok tt)
        ∧ conversation_cache w' = conversation_cache w
        ∧ (∀ id, ledgered_as "batch" (Some "consolidated") id
                   (processedMessage w) →
                 ledgered_as "batch" (Some "consolidated") id
                   (processedMessage w'))
        ∧ Forall (λ msg, ∀ id, has_messageId msg = Some id →
                    ledgered_as "batch" (Some "consolidated") id
                      (processedMessage w')) l.
Proof.
  revert i w. induction l as [|msg l IH]; intros i w Hok.
  - exists w. by split_and!.
  - cbn [for_of]. unfold bind, mark_message at 1.
    destruct (Hok 0) as [now Hnow]; [simpl; lia|].
    rewrite Nat.add_0_r in Hnow.
    assert (∀ j, j < length l → is_Some (batch_mark env (S i + j))) as Hok'.
    { intros j Hj. replace (S i + j) with (i + S j) by lia.
      apply Hok. simpl. lia. }
    destruct (has_messageId msg) as [id|] eqn:Hid.
    + rewrite Hnow, markMessageProcessed_ok.
      destruct (IH (S i) (set_ledger (upsert now id "batch"
                  (Some "consolidated")) w) Hok')
        as (w' & Hrun & Hcache & Hkeep & Hall).
      exists w'. split_and!; [done | done | |].
      * intros id' Hl. apply Hkeep. simpl.
        by apply ledgered_as_upsert_other.
      * constructor; [|done]. intros id' Hid'.
        rewrite Hid in Hid'. injection Hid' as <-.
        apply Hkeep. simpl. apply ledgered_as_upsert.
    + destruct (IH (S i) w Hok') as (w' & Hrun & Hcache & Hkeep & Hall).
      exists w'. split_and!; [done | done | done |].
      constructor; [|done]. intros id' Hid'. by rewrite Hid in Hid'.
Qed.

Lemma for_of_mark_message_keys env l i w id :
  id ∈ keys (processedMessage (fst (for_of (mark_message env) i l w))) →
  id ∈ keys (processedMessage w)
  ∨ ∃ msg, msg ∈ l ∧ has_messageId msg = Some id.
Proof.
  revert i w. induction l as [|msg l IH]; intros i w; [by left|].
  cbn [for_of]. unfold bind, mark_message at 1.
  destruct (has_messageId msg) as [id'|] eqn:Hid.
  - destruct (batch_mark env i) as [now|].
    + rewrite markMessageProcessed_ok. intros Hin.
      apply IH in Hin as [Hin|(m & Hm & Hmid)].
      * simpl in Hin. rewrite upsert_keys in Hin.
        case_bool_decide; [by left|].
        apply elem_of_app in Hin as [Hin| ->%list_elem_of_singleton];
          [by left|].
        right. exists msg. split; [left | done].
      * right. exists m. split; [by right | done].
    + by left.
  - intros Hin. apply IH in Hin as [Hin|(m & Hm & Hmid)]; [by left|].
    right. exists m. split; [by right | done].
Qed.

Lemma runConsolidation_unfold env w gathered chunks :
  gather env 0 (conversation_cache w) w = (w, Ok gathered) →
  processConversations (batch_extraction env) (chunk_clock env) gathered w
  = (w, Ok chunks) →
  runConsolidation env w
  = if (length gathered =? 0)%nat then (w, Ok tt)
    else if (0 <? length chunks)%nat
    then
      match for_of (mark_message env) 0 gathered
              (fst (for_of (store_chunk env) 0 chunks w)) with
      | (w2, Ok _) => (set_cache (λ _, []) w2, Ok tt)
      | (w2, Throw _) => (w2, Ok tt)
      end
    else (set_cache (λ _, []) w, Ok tt).
Proof.
  intros Hg Hp. unfold runConsolidation, try_catch.
  unfold bind at 1. unfold AiChat.getConversationCache, gets at 1.
  unfold bind at 1. rewrite Hg.
  destruct (length gathered =? 0)%nat; [done|].
  unfold bind at 1. rewrite Hp. unfold bind at 1.
  destruct (0 <? length chunks)%nat; [|done].
  unfold bind at 1.
  destruct (for_of_store_chunk env chunks 0 w) as (w1 & Hs & _ & _).
  rewrite Hs. simpl.
  by destruct (for_of (mark_message env) 0 gathered w1) as [w2 [[]|e]].
Qed.

Lemma has_messageId_Some msg id :
  has_messageId msg = Some id → messageId msg = Some id ∧ id ≠ "".
Proof.
  unfold has_messageId. destruct (messageId msg) as [id'|]; [|done].
  destruct (String.eqb_spec id' "") as [->|Hne]; [done|].
  by intros [= <-].
Qed.

Lemma unledgered_spec t msg :
  unledgered t msg
  ↔ ∃ id, messageId msg = Some id ∧ id ≠ "" ∧ findUnique id t = None.
Proof.
  unfold unledgered, has_messageId.
  destruct (messageId msg) as [id|]; [|split; [done | by intros (? & ? & _)]].
  destruct (String.eqb_spec id "") as [->|Hne].
  - split; [done | by intros (? & [= <-] & ? & _)].
  - rewrite negb_True, bool_decide_spec, <- eq_None_not_Some.
    split; [by exists id | by intros (? & [= <-] & _ & ?)].
Qed.

Lemma gather_with_extraction chat env cache i w :
  gather (with_extraction chat env) i cache w = gather env i cache w.
Proof.
  revert i. induction cache as [|msg rest IH]; intros i; [done|].
  by rewrite !gather_cons, IH.
Qed.

Lemma for_of_mark_message_with_extraction chat env l i w :
  for_of (mark_message (with_extraction chat env)) i l w
  = for_of (mark_message env) i l w.
Proof. done. Qed.

Lemma processConversations_agree chat chat' now messages w :
  chat (Js.join nl (map content messages))
  = chat' (Js.join nl (map content messages)) →
  processConversations chat now messages w
  = processConversations chat' now messages w.
Proof.
  intros Heq. unfold processConversations, try_catch.
  destruct (length messages =? 0)%nat; [done|].
  unfold bind. by rewrite Heq.
Qed.

(** Every assistant entry of the cache lacks a message id. *)
Lemma reachable_assistant_no_id config w :
  reachable config w →
  Forall (λ e, role e = assistant → messageId e = None)
    (conversation_cache w).
Proof.
  intros [acts ->].
  apply (run_preserves
           (λ w, Forall (λ e, role e = assistant → messageId e = None)
                   (conversation_cache w))); try done.
  - intros env message input w Hw. simpl.
    apply Forall_app. split; [done|]. by constructor.
  - intros botReply w Hw. simpl.
    apply Forall_app. split; [done|]. by constructor.
  - intros w Hw. simpl. unfold AiChat.trim_cache, Js.slice_last.
    repeat case_match; try done. by apply Forall_drop.
Qed.

(** C2 (as stated in the specification, refuted at [Sample.evening]): every
    service answers during the run, the run gathers M2, the extraction
    answers a text too short to survive, so no chunk is stored; the run
    completes, the cache is cleared, and M2 has no record
    [batch]/[consolidated] (it has no record at all). *)
Lemma consolidation_without_chunks_marks_nothing :
  snd (gather (Sample.nightly "nothing new") 0
         (conversation_cache Sample.evening) Sample.evening)
  = Ok [Sample.entry "M2" "bob: I moved to Lyon"]
  ∧ snd (processConversations
           (batch_extraction (Sample.nightly "nothing new"))
           (chunk_clock (Sample.nightly "nothing new"))
           [Sample.entry "M2" "bob: I moved to Lyon"] Sample.evening)
    = Ok []
  ∧ runConsolidation (Sample.nightly "nothing new") Sample.evening
    = (set_cache (λ _, []) Sample.evening, Ok tt)
  ∧ ¬ ledgered_as "batch" (Some "consolidated") "M2"
        (processedMessage
           (fst (runConsolidation (Sample.nightly "nothing new")
                   Sample.evening)))
  ∧ findUnique "M2"
      (processedMessage
         (fst (runConsolidation (Sample.nightly "nothing new")
                 Sample.evening)))
    = None.
Proof.
  split_and!; try reflexivity.
  intros (r & Hr & _). vm_compute in Hr. discriminate.
Qed.

(** C2 (amended): in a run that gathers messages, when at least one chunk
    survives the extraction and every ledger write succeeds, each gathered
    message has a record [batch]/[consolidated] in a state whose cache is
    still the one the run started with, and the run ends by clearing the
    cache of that state; when no chunk survives, the run writes nothing and
    only clears the cache. *)
Theorem consolidation_marks_gathered env w gathered chunks :
  snd (gather env 0 (conversation_cache w) w) = Ok gathered →
  gathered ≠ [] →
  snd (processConversations (batch_extraction env) (chunk_clock env)
         gathered w) = Ok chunks →
  (chunks ≠ [] →
   (∀ i, i < length gathered → is_Some (batch_mark env i)) →
   ∃ marked,
     conversation_cache marked = conversation_cache w
     ∧ Forall (λ msg, ∃ id, messageId msg = Some id
                 ∧ ledgered_as "batch" (Some "consolidated") id
                     (processedMessage marked)) gathered
     ∧ runConsolidation env w = (set_cache (λ _, []) marked, Ok tt))
  ∧ (chunks = [] →
     runConsolidation env w = (set_cache (λ _, []) w, Ok tt)).
Proof.
  intros Hg Hne Hp.
  destruct (gather_spec env (conversation_cache w) 0 w)
    as (l & Hgl & _ & Hids).
  rewrite Hgl in Hg. injection Hg as ->.
  destruct (read_only_value
              (processConversations (batch_extraction env) (chunk_clock env)
                 gathered) w) as [c Hc].
  { apply processConversations_state. }
  { apply processConversations_total. }
  rewrite Hc in Hp. injection Hp as ->.
  rewrite (runConsolidation_unfold env w gathered chunks Hgl Hc).
  destruct gathered as [|msg gathered]; [done|]. cbn [length Nat.eqb].
  split.
  - intros Hchunks Hmarks.
    destruct chunks as [|chunk chunks]; [done|]. cbn [length Nat.ltb Nat.leb].
    destruct (for_of_store_chunk env (chunk :: chunks) 0 w)
      as (w1 & Hs & Hcache1 & Hledger1).
    rewrite Hs. cbn [fst].
    destruct (for_of_mark_message env (msg :: gathered) 0 w1)
      as (w2 & Hm & Hcache2 & _ & Hall); [done|].
    rewrite Hm. exists w2. split_and!; [congruence | | done].
    rewrite Forall_forall in Hall, Hids. apply Forall_forall.
    intros m Hm'. destruct (Hids m Hm') as [id Hid].
    exists id. split; [by apply has_messageId_Some | by apply (Hall m)].
  - by intros ->.
Qed.

Lemma consolidation_marks_gathered_witness :
  ∃ marked,
    conversation_cache marked = conversation_cache Sample.evening
    ∧ Forall (λ msg, ∃ id, messageId msg = Some id
                ∧ ledgered_as "batch" (Some "consolidated") id
                    (processedMessage marked))
        [Sample.entry "M2" "bob: I moved to Lyon"]
    ∧ runConsolidation (Sample.nightly "bob moved to Lyon this spring")
        Sample.evening
      = (set_cache (λ _, []) marked, Ok tt).
Proof.
  apply (consolidation_marks_gathered
           (Sample.nightly "bob moved to Lyon this spring") Sample.evening
           [Sample.entry "M2" "bob: I moved to Lyon"]
           [ {| narrative := "bob moved to Lyon this spring";
                metadata := chunk_metadata 1 "2024-05-01T23:00:00.000Z" |} ]).
  - reflexivity.
  - discriminate.
  - reflexivity.
  - discriminate.
  - intros i _. simpl. by eexists.
Defined.



(** C10: in every state the process can reach, the assistant entries of the
    cache carry no message id; a run gathers only entries with a message
    id, all of them user entries, so no assistant entry is gathered; every
    ledger id the run adds is the message id of a gathered user entry; and
    the extraction collaborator is consulted on nothing but the joined
    contents of the gathered entries. *)
Theorem consolidation_skips_assistant config w env gathered :
  reachable config w →
  snd (gather env 0 (conversation_cache w) w) = Ok gathered →
  Forall (λ msg, role msg = user ∧ is_Some (has_messageId msg)) gathered
  ∧ (∀ msg, msg ∈ conversation_cache w → role msg = assistant →
       messageId msg = None ∧ msg ∉ gathered)
  ∧ (∀ id, id ∈ keys (processedMessage (fst (runConsolidation env w))) →
       id ∈ keys (processedMessage w)
       ∨ ∃ msg, msg ∈ gathered ∧ role msg = user ∧ messageId msg = Some id)
  ∧ (∀ chat,
       chat (Js.join nl (map content gathered))
       = batch_extraction env (Js.join nl (map content gathered)) →
       runConsolidation (with_extraction chat env) w
       = runConsolidation env w).
Proof.
  intros Hreach Hg.
  pose proof (reachable_assistant_no_id config w Hreach) as Hinv.
  destruct (gather_spec env (conversation_cache w) 0 w)
    as (l & Hgl & Hsub & Hids).
  rewrite Hgl in Hg. injection Hg as ->.
  assert (Forall (λ msg, role msg = user ∧ is_Some (has_messageId msg))
            gathered) as Huser.
  { rewrite Forall_forall in Hinv, Hids. apply Forall_forall.
    intros msg Hin. split; [|by apply Hids].
    destruct (Hids msg Hin) as [id Hid].
    apply has_messageId_Some in Hid as [Hid _].
    destruct (role msg) eqn:Hrole; [done|].
    rewrite (Hinv msg) in Hid; [done | | done].
    by apply (elem_of_sublist _ _ _ Hin Hsub). }
  split_and!; [done | | |].
  - intros msg Hin Hrole. rewrite Forall_forall in Hinv, Huser.
    split; [by apply Hinv|].
    intros Hg'. destruct (Huser msg Hg') as [Hu _]. congruence.
  - intros id.
    destruct (read_only_value
                (processConversations (batch_extraction env) (chunk_clock env)
                   gathered) w) as [chunks Hc].
    { apply processConversations_state. }
    { apply processConversations_total. }
    rewrite (runConsolidation_unfold env w gathered chunks Hgl Hc).
    destruct (length gathered =? 0)%nat; [by left|].
    destruct (0 <? length chunks)%nat; [|by left].
    destruct (for_of_store_chunk env chunks 0 w) as (w1 & Hs & _ & Hl1).
    rewrite Hs. cbn [fst]. intros Hin.
    assert (id ∈ keys (processedMessage
                         (fst (for_of (mark_message env) 0 gathered w1))))
      as Hin'.
    { by destruct (for_of (mark_message env) 0 gathered w1) as [w2 [[]|e]]. }
    apply for_of_mark_message_keys in Hin' as [Hin'|(msg & Hm & Hid)].
    + left. by rewrite <- Hl1.
    + right. exists msg. rewrite Forall_forall in Huser.
      split_and!; [done | by apply Huser | by apply has_messageId_Some].
  - intros chat Heq.
    destruct (read_only_value
                (processConversations (batch_extraction env) (chunk_clock env)
                   gathered) w) as [chunks Hc].
    { apply processConversations_state. }
    { apply processConversations_total. }
    rewrite (runConsolidation_unfold env w gathered chunks Hgl Hc).
    rewrite (runConsolidation_unfold (with_extraction chat env) w gathered
               chunks); [done | by rewrite gather_with_extraction |].
    rewrite <- Hc. by apply processConversations_agree.
Qed.

Lemma consolidation_skips_assistant_witness :
  Forall (λ msg, role msg = user ∧ is_Some (has_messageId msg))
    [AiChat.user_entry
       (Sample.turn None [] None None (Sample.says "Hi bob!"))
       Sample.hello "hello there"].
Proof.
  apply (consolidation_skips_assistant default_config
           (run default_config
              [Chat (Sample.turn None [] None None (Sample.says "Hi bob!"))
                 Sample.hello]
              initial_world)
           (Sample.nightly "nothing new")).
  - by eexists.
  - reflexivity.
Defined.

End Consolidation.

(** C8: along every history of chat turns and consolidation runs, started
    from a ledger whose ids are pairwise distinct (the empty one for
    instance), a message id has at most one record; a further write for an
    id that has a record succeeds, leaves the ids of the table as they are
    and replaces [processingType] and [storedIn] of that record, keeping its
    [processedAt]; a write for an id without a record adds exactly one. *)
Theorem ledger_one_record_per_message config acts w now id processingType
    storedIn :
  NoDup (keys (processedMessage w)) →
  let t := processedMessage (run config acts w) in
  let written :=
    SqlDB.markMessageProcessed (Some now) id processingType storedIn
      (run config acts w) in
  (length (records_for id t) ≤ 1)%nat
  ∧ snd written = Ok tt
  ∧ (length (records_for id (processedMessage (fst written))) ≤ 1)%nat
  ∧ (∀ r, SqlDB.findUnique id t = Some r →
       keys (processedMessage (fst written)) = keys t
       ∧ SqlDB.findUnique id (processedMessage (fst written))
         = Some {| lr_messageId := id;
                   lr_processedAt := lr_processedAt r;
                   lr_processingType := processingType;
                   lr_storedIn := storedIn |})
  ∧ (SqlDB.findUnique id t = None →
       keys (processedMessage (fst written)) = keys t ++ [id]
       ∧ ledgered_as processingType storedIn id
           (processedMessage (fst written)))
  ∧ (∀ id', id' ≠ id →
       SqlDB.findUnique id' (processedMessage (fst written))
       = SqlDB.findUnique id' t).
Proof.
  intros Hnd. cbv zeta.
  assert (NoDup (keys (processedMessage (run config acts w)))) as Hinv.
  { apply (run_preserves (λ w, NoDup (keys (processedMessage w))));
      try done.
    intros ? ? ? ? w' Hw'. simpl. by apply upsert_NoDup. }
  rewrite markMessageProcessed_ok. cbn [fst snd]. simpl processedMessage.
  split_and!.
  - by apply NoDup_keys_records_for.
  - done.
  - by apply NoDup_keys_records_for, upsert_NoDup.
  - intros r Hr. rewrite upsert_keys, findUnique_upsert_eq, Hr.
    rewrite bool_decide_eq_true_2; [done|].
    apply findUnique_is_Some. by eexists.
  - intros Hnone. rewrite upsert_keys.
    rewrite bool_decide_eq_false_2 by by apply findUnique_None.
    split; [done | apply ledgered_as_upsert].
  - intros id' Hne. by apply findUnique_upsert_ne.
Qed.

Lemma ledger_one_record_per_message_witness :
  let history :=
    [ Chat (Sample.turn (Some Sample.trip) [Sample.rome]
              (Some "2024-05-01T10:00:01.000Z")
              (Some "2024-05-01T10:00:02.000Z") (Sample.says "Noted."))
        Sample.hello;
      Consolidate (Sample.nightly "bob went to Rome in the spring") ] in
  let t := processedMessage (run default_config history initial_world) in
  let written :=
    SqlDB.markMessageProcessed (Some "2024-05-02T23:00:00.000Z") "M7" "batch"
      (Some "consolidated") (run default_config history initial_world) in
  (length (records_for "M7" t) ≤ 1)%nat
  ∧ snd written = Ok tt
  ∧ (length (records_for "M7" (processedMessage (fst written))) ≤ 1)%nat
  ∧ (∀ r, SqlDB.findUnique "M7" t = Some r →
       keys (processedMessage (fst written)) = keys t
       ∧ SqlDB.findUnique "M7" (processedMessage (fst written))
         = Some {| lr_messageId := "M7";
                   lr_processedAt := lr_processedAt r;
                   lr_processingType := "batch";
                   lr_storedIn := Some "consolidated" |})
  ∧ (SqlDB.findUnique "M7" t = None →
       keys (processedMessage (fst written)) = keys t ++ ["M7"]
       ∧ ledgered_as "batch" (Some "consolidated") "M7"
           (processedMessage (fst written)))
  ∧ (∀ id', id' ≠ "M7" →
       SqlDB.findUnique id' (processedMessage (fst written))
       = SqlDB.findUnique id' t).
Proof.
  apply (ledger_one_record_per_message default_config _ initial_world).
  simpl. apply NoDup_nil_2.
Defined.

(** ** The semantic store *)

Section SemanticStore.

Import VectorDB.

Lemma ensure_collection_eq a w :
  ensure_collection a w = (connected a w, Ok (collection w || connects a)).
Proof.
  unfold ensure_collection, connected, initializeVectorDB, bind, gets.
  destruct w as [cache [] docs ledger events]; simpl; [done|].
  by destruct (connects a).
Qed.

Lemma connected_collection a w :
  collection (connected a w) = collection w || connects a.
Proof.
  unfold connected. destruct (collection w) eqn:Hc; [done|].
  destruct (connects a); simpl; by rewrite ?Hc.
Qed.

Lemma connected_documents a w : documents (connected a w) = documents w.
Proof. unfold connected. by repeat case_match. Qed.

Lemma connected_idem a w :
  collection w = true → connected a w = w.
Proof. unfold connected. by intros ->. Qed.

Lemma lt_spec (x y : Q) : Js.lt x y = true ↔ (x < y)%Q.
Proof.
  unfold Js.lt. rewrite Qlt_alt. by destruct (x ?= y)%Q.
Qed.

Lemma lt_false (x y : Q) : Js.lt x y = false ↔ (y <= x)%Q.
Proof.
  rewrite <- not_true_iff_false, lt_spec.
  split; [apply Qnot_lt_le | apply Qle_not_lt].
Qed.

Lemma checkDuplicate_eq a factText threshold w :
  collection w = true →
  checkDuplicate a factText threshold w
  = (w, Ok match embedding_query a, query a with
           | Some _, Some (n :: _) =>
               if Js.lt (nb_distance n) threshold
               then Some {| existingId := nb_id n;
                            existingText := nb_document n;
                            similarity := nb_distance n |}
               else None
           | _, _ => None
           end).
Proof.
  intros Hc. unfold checkDuplicate, try_catch.
  unfold bind at 1. rewrite ensure_collection_eq, Hc, connected_idem by done.
  cbn [orb negb]. unfold generateEmbedding, try_catch, bind, await.
  destruct (embedding_query a) as [e|]; [|done]. simpl.
  destruct (query a) as [[|n rows]|]; try done. simpl.
  by destruct (Js.lt (nb_distance n) threshold).
Qed.

Lemma enrichExistingFact_eq a factId newText newMessageId ts w :
  collection w = true →
  enrichExistingFact a factId newText newMessageId ts w
  = (if get_ok a && update_ok a
     then set_documents
            (update_metadata factId
               (enriched_metadata
                  match documents w !! factId with
                  | Some d => doc_metadata d
                  | None => ∅
                  end newMessageId ts)) w
     else w, Ok tt).
Proof.
  intros Hc. unfold enrichExistingFact, try_catch, bind, gets.
  rewrite Hc. simpl. by destruct (get_ok a), (update_ok a).
Qed.

Lemma storeFactSafely_duplicate config a factText messageId ts category w
    e n rest :
  collection w || connects a = true →
  embedding_query a = Some e →
  query a = Some (n :: rest) →
  Js.lt (nb_distance n) (memory_dedupThreshold config) = true →
  storeFactSafely config a factText messageId ts category w
  = (if get_ok a && update_ok a
     then set_documents
            (update_metadata (nb_id n)
               (enriched_metadata
                  match documents w !! nb_id n with
                  | Some d => doc_metadata d
                  | None => ∅
                  end messageId ts)) (connected a w)
     else connected a w, Ok (StoredEnriched (nb_id n))).
Proof.
  intros Hav He Hq Hlt. unfold storeFactSafely, try_catch.
  unfold bind at 1. rewrite ensure_collection_eq, Hav. cbn [negb].
  assert (collection (connected a w) = true) as Hc
    by by rewrite connected_collection.
  unfold bind at 1. rewrite checkDuplicate_eq, He, Hq, Hlt by done.
  unfold bind at 1. cbn [existingId].
  rewrite enrichExistingFact_eq, connected_documents by done.
  by destruct (get_ok a && update_ok a).
Qed.

Lemma storeFactSafely_distinct config a factText messageId ts category w
    e e' n rest :
  collection w || connects a = true →
  embedding_query a = Some e →
  query a = Some (n :: rest) →
  Js.lt (nb_distance n) (memory_dedupThreshold config) = false →
  embedding_store a = Some e' →
  add_ok a = true →
  storeFactSafely config a factText messageId ts category w
  = (set_documents
       (<[uuid a := {| doc_text := factText; doc_embedding := e';
                       doc_metadata :=
                         new_fact_metadata messageId ts category |}]>)
       (connected a w),
     Ok (StoredNew (uuid a))).
Proof.
  intros Hav He Hq Hlt He' Hadd. unfold storeFactSafely, try_catch.
  unfold bind at 1. rewrite ensure_collection_eq, Hav. cbn [negb].
  assert (collection (connected a w) = true) as Hc
    by by rewrite connected_collection.
  unfold bind at 1. rewrite checkDuplicate_eq, He, Hq, Hlt by done.
  unfold generateEmbedding, try_catch, bind, await, resolves, modify.
  by rewrite He', Hadd.
Qed.

Lemma update_metadata_dom id md (docs : gmap string Document) :
  dom (update_metadata id md docs) = dom docs.
Proof.
  unfold update_metadata. destruct (docs !! id) as [d|] eqn:Hd; [|done].
  apply dom_insert_lookup_L. by eexists.
Qed.

Lemma update_metadata_lookup id md (docs : gmap string Document) d :
  docs !! id = Some d →
  update_metadata id md docs !! id
  = Some {| doc_text := doc_text d; doc_embedding := doc_embedding d;
            doc_metadata := md |}.
Proof.
  intros Hd. unfold update_metadata. rewrite Hd. apply lookup_insert_eq.
Qed.

Lemma update_metadata_lookup_ne id id' md (docs : gmap string Document) :
  id' ≠ id → update_metadata id md docs !! id' = docs !! id'.
Proof.
  intros Hne. unfold update_metadata.
  destruct (docs !! id); [|done]. by rewrite lookup_insert_ne.
Qed.

(** C4: when the store is reachable and its nearest-neighbour query is
    answered with a first row at distance [d], [storeFactSafely] returns
    [enriched] with the id of that row and creates no record if
    [d < dedupThreshold]; if [dedupThreshold <= d] (the boundary included)
    and the embedding and the insertion succeed, it returns [new] with the
    id drawn from [uuidv4] and the collection is the old one with the new
    fact stored under that id: one record more when the id is unused. *)
Theorem dedup_threshold config a factText messageId ts category w e n rest :
  collection w = true ∨ connects a = true →
  embedding_query a = Some e →
  query a = Some (n :: rest) →
  let result := storeFactSafely config a factText messageId ts category w in
  ((nb_distance n < memory_dedupThreshold config)%Q →
   snd result = Ok (StoredEnriched (nb_id n))
   ∧ dom (documents (fst result)) = dom (documents w))
  ∧ ((memory_dedupThreshold config <= nb_distance n)%Q →
     ∀ e', embedding_store a = Some e' → add_ok a = true →
     snd result = Ok (StoredNew (uuid a))
     ∧ documents (fst result)
       = <[uuid a := {| doc_text := factText; doc_embedding := e';
                        doc_metadata :=
                          new_fact_metadata messageId ts category |}]>
           (documents w)
     ∧ (documents w !! uuid a = None →
        size (documents (fst result)) = S (size (documents w)))).
Proof.
  intros Hav He Hq. cbv zeta.
  assert (collection w || connects a = true) as Hav'.
  { destruct Hav as [-> | ->]; [done | apply orb_true_r]. }
  split.
  - intros Hlt%lt_spec.
    rewrite (storeFactSafely_duplicate _ _ _ _ _ _ _ e n rest) by done.
    split; [done|]. cbn [fst].
    destruct (get_ok a && update_ok a); simpl.
    + by rewrite update_metadata_dom, connected_documents.
    + by rewrite connected_documents.
  - intros Hle%lt_false e' He' Hadd.
    rewrite (storeFactSafely_distinct _ _ _ _ _ _ _ e e' n rest) by done.
    cbn [fst snd]. simpl documents. rewrite connected_documents.
    split_and!; [done | done |].
    intros Hfresh. by apply map_size_insert_None.
Qed.

Lemma dedup_threshold_witness :
  snd (storeFactSafely default_config
         (Sample.chroma "F2" [Sample.near (8 # 100)])
         "bob really likes pizza" "B" "2024-05-02T09:00:00.000Z" "fact"
         Sample.remembers)
  = Ok (StoredEnriched "F1")
  ∧ snd (storeFactSafely default_config
           (Sample.chroma "F2" [Sample.near (15 # 100)])
           "bob really likes pizza" "B" "2024-05-02T09:00:00.000Z" "fact"
           Sample.remembers)
    = Ok (StoredNew "F2").
Proof.
  split.
  - apply (dedup_threshold default_config
             (Sample.chroma "F2" [Sample.near (8 # 100)])
             "bob really likes pizza" "B" "2024-05-02T09:00:00.000Z" "fact"
             Sample.remembers [1 # 2; 1 # 3] (Sample.near (8 # 100)) []);
      [by left | reflexivity | reflexivity | reflexivity].
  - apply (dedup_threshold default_config
             (Sample.chroma "F2" [Sample.near (15 # 100)])
             "bob really likes pizza" "B" "2024-05-02T09:00:00.000Z" "fact"
             Sample.remembers [1 # 2; 1 # 3] (Sample.near (15 # 100)) []
             (or_introl eq_refl) eq_refl eq_refl) with (e' := [1 # 2; 1 # 3]);
      [ by vm_compute | reflexivity | reflexivity ].
Defined.

Lemma enriched_metadata_lookup existing newMessageId ts :
  enriched_metadata existing newMessageId ts !! "source_messages"
  = Some (Js.VStr
            match existing !! "source_messages" with
            | Some v =>
                if Js.truthy v
                then Js.to_string v +:+ "," +:+ newMessageId
                else newMessageId
            | None => newMessageId
            end)
  ∧ enriched_metadata existing newMessageId ts !! "last_updated"
    = Some (Js.VStr ts)
  ∧ enriched_metadata existing newMessageId ts !! "enriched"
    = Some (Js.VBool true)
  ∧ ∀ k, k ≠ "source_messages" → k ≠ "last_updated" → k ≠ "enriched" →
         enriched_metadata existing newMessageId ts !! k = existing !! k.
Proof.
  unfold enriched_metadata, Metadata in *. cbv zeta. split_and!.
  - by rewrite lookup_insert_ne, lookup_insert_eq.
  - by rewrite lookup_insert_ne, lookup_insert_ne, lookup_insert_eq.
  - by rewrite lookup_insert_eq.
  - intros k H1 H2 H3. by rewrite !lookup_insert_ne.
Qed.

(** C6: when [storeFactSafely] takes the duplicate branch on a fact that is
    in the collection, the text and the embedding of that fact are the same
    afterwards and every other record is untouched; when the read and the
    update of the metadata succeed, [source_messages] is the old value
    followed by a comma and the new message id (the new id alone when there
    was no value), [last_updated] is the given timestamp, [enriched] is
    [true], and every other metadata field is as before. *)
Theorem enrichment_only_metadata config a factText messageId ts category w
    e n rest existing :
  collection w = true ∨ connects a = true →
  embedding_query a = Some e →
  query a = Some (n :: rest) →
  (nb_distance n < memory_dedupThreshold config)%Q →
  documents w !! nb_id n = Some existing →
  let w' := fst (storeFactSafely config a factText messageId ts category w) in
  ∃ fact,
    documents w' !! nb_id n = Some fact
    ∧ doc_text fact = doc_text existing
    ∧ doc_embedding fact = doc_embedding existing
    ∧ (∀ id, id ≠ nb_id n → documents w' !! id = documents w !! id)
    ∧ (get_ok a = true → update_ok a = true →
       doc_metadata fact !! "source_messages"
       = Some (Js.VStr
                 match doc_metadata existing !! "source_messages" with
                 | Some v =>
                     if Js.truthy v
                     then Js.to_string v +:+ "," +:+ messageId
                     else messageId
                 | None => messageId
                 end)
       ∧ doc_metadata fact !! "last_updated" = Some (Js.VStr ts)
       ∧ doc_metadata fact !! "enriched" = Some (Js.VBool true)
       ∧ ∀ k, k ≠ "source_messages" → k ≠ "last_updated" → k ≠ "enriched" →
              doc_metadata fact !! k = doc_metadata existing !! k).
Proof.
  intros Hav He Hq Hlt%lt_spec Hex. cbv zeta.
  assert (collection w || connects a = true) as Hav'.
  { destruct Hav as [-> | ->]; [done | apply orb_true_r]. }
  rewrite (storeFactSafely_duplicate _ _ _ _ _ _ _ e n rest) by done.
  cbn [fst]. rewrite Hex.
  destruct (get_ok a) eqn:Hget, (update_ok a) eqn:Hupd; cbn [andb].
  1: { simpl documents. rewrite connected_documents.
       eexists. split_and!.
       - by apply update_metadata_lookup.
       - done.
       - done.
       - intros id Hne. by apply update_metadata_lookup_ne.
       - intros _ _. cbn [doc_metadata]. apply enriched_metadata_lookup. }
  all: rewrite connected_documents; exists existing;
    by split_and!.
Qed.

Lemma enrichment_only_metadata_witness :
  ∃ fact,
    documents
      (fst (storeFactSafely default_config
              (Sample.chroma "F2" [Sample.near (8 # 100)])
              "bob really likes pizza" "B" "2024-05-02T09:00:00.000Z" "fact"
              Sample.remembers)) !! "F1" = Some fact
    ∧ doc_text fact = "bob likes pizza"
    ∧ doc_embedding fact = [1 # 2; 1 # 3]
    ∧ doc_metadata fact !! "source_messages" = Some (Js.VStr "A,B")
    ∧ doc_metadata fact !! "last_updated"
      = Some (Js.VStr "2024-05-02T09:00:00.000Z")
    ∧ doc_metadata fact !! "enriched" = Some (Js.VBool true)
    ∧ doc_metadata fact !! "category" = Some (Js.VStr "fact").
Proof.
  destruct (enrichment_only_metadata default_config
              (Sample.chroma "F2" [Sample.near (8 # 100)])
              "bob really likes pizza" "B" "2024-05-02T09:00:00.000Z" "fact"
              Sample.remembers [1 # 2; 1 # 3] (Sample.near (8 # 100)) []
              Sample.pizza_fact)
    as (fact & Hfact & Htext & Hemb & _ & Hmeta);
    [by left | reflexivity | reflexivity | reflexivity | reflexivity |].
  destruct (Hmeta eq_refl eq_refl) as (Hsrc & Hupd & Henr & Hrest).
  exists fact. split_and!; try done.
  by rewrite Hrest.
Defined.

Lemma storeMemory_eq a narrative metadata w e :
  collection w || connects a = true →
  embedding_store a = Some e →
  add_ok a = true →
  storeMemory a narrative metadata w
  = (set_documents
       (<[uuid a := {| doc_text := narrative; doc_embedding := e;
                       doc_metadata := batch_metadata metadata (clock a) |}]>)
       (connected a w),
     Ok tt).
Proof.
  intros Hav He Hadd. unfold storeMemory, try_catch.
  unfold bind at 1. rewrite ensure_collection_eq, Hav. cbn [negb].
  unfold generateEmbedding, try_catch, bind, await, resolves, modify.
  by rewrite He, Hadd.
Qed.

(** C9: [storeMemory] consults neither the nearest-neighbour query nor any
    other answer of the duplicate check.  When the store is reachable and
    the embedding and the insertion succeed, the collection afterwards is
    the old one with a record under the id drawn from [uuidv4] that holds
    the chunk text, its embedding, and the chunk's metadata extended with
    [timestamp] (the clock) and [processed_type = batch]; with an unused id
    this is one record more and every old record is kept.  This holds for
    every answer the query could have given, a neighbour within the dedup
    threshold included. *)
Theorem batch_store_no_dedup a narrative metadata w e :
  collection w = true ∨ connects a = true →
  embedding_store a = Some e →
  add_ok a = true →
  let w' := fst (storeMemory a narrative metadata w) in
  documents w'
  = <[uuid a := {| doc_text := narrative; doc_embedding := e;
                   doc_metadata := batch_metadata metadata (clock a) |}]>
      (documents w)
  ∧ batch_metadata metadata (clock a) !! "processed_type"
    = Some (Js.VStr "batch")
  ∧ batch_metadata metadata (clock a) !! "timestamp"
    = Some (Js.VStr (clock a))
  ∧ (∀ k, k ≠ "processed_type" → k ≠ "timestamp" →
          batch_metadata metadata (clock a) !! k = metadata !! k)
  ∧ (documents w !! uuid a = None →
     size (documents w') = S (size (documents w))
     ∧ ∀ id d, documents w !! id = Some d → documents w' !! id = Some d)
  ∧ (∀ check rows get update,
       storeMemory (with_neighbours check rows get update a) narrative
         metadata w
       = storeMemory a narrative metadata w).
Proof.
  intros Hav He Hadd. cbv zeta.
  assert (collection w || connects a = true) as Hav'.
  { destruct Hav as [-> | ->]; [done | apply orb_true_r]. }
  rewrite (storeMemory_eq a narrative metadata w e) by done.
  cbn [fst]. simpl documents. rewrite connected_documents.
  unfold batch_metadata, Metadata in *.
  split_and!.
  - done.
  - by rewrite lookup_insert_eq.
  - by rewrite lookup_insert_ne, lookup_insert_eq.
  - intros k H1 H2. by rewrite !lookup_insert_ne.
  - intros Hfresh. split; [by apply map_size_insert_None|].
    intros id d Hd. rewrite lookup_insert_ne; [done|]. congruence.
  - intros check rows get update.
    by rewrite (storeMemory_eq _ narrative metadata w e).
Qed.

Lemma batch_store_no_dedup_witness :
  let a := Sample.chroma "chunk-0" [Sample.near 0] in
  let w' := fst (storeMemory a "bob likes pizza" ∅ Sample.remembers) in
  Js.lt (nb_distance (Sample.near 0)) (memory_dedupThreshold default_config)
  = true
  ∧ size (documents w') = 2
  ∧ documents w' !! "F1" = Some Sample.pizza_fact
  ∧ (doc_text <$> documents w' !! "chunk-0") = Some "bob likes pizza".
Proof.
  destruct (batch_store_no_dedup
              (Sample.chroma "chunk-0" [Sample.near 0])
              "bob likes pizza" ∅ Sample.remembers [1 # 2; 1 # 3])
    as (Hdocs & _ & _ & _ & Hfresh & _);
    [by left | reflexivity | reflexivity |].
  destruct (Hfresh eq_refl) as [Hsize Hkept].
  cbv zeta. split_and!.
  - reflexivity.
  - exact Hsize.
  - by apply Hkept.
  - rewrite Hdocs. reflexivity.
Defined.

End SemanticStore.

(** ** The chat turn *)

Section ChatTurn.

Import SqlDB MemoryProcessor AiChat.

Lemma pair_eq {A B} (x : A * B) a b : fst x = a → snd x = b → x = (a, b).
Proof. destruct x. simpl. by intros -> ->. Qed.

Lemma detectImportance_any_state config chat message context w w' :
  snd (detectImportance config chat message context w)
  = snd (detectImportance config chat message context w').
Proof.
  unfold detectImportance, try_catch, await.
  by destruct (chat _).
Qed.

Lemma extractWithContext_any_state config chat message cache id w w' :
  snd (extractWithContext config chat message cache id w)
  = snd (extractWithContext config chat message cache id w').
Proof.
  unfold extractWithContext, try_catch, await.
  by destruct (chat _).
Qed.

Lemma tool_loop_value next calls i :
  (∃ r, ∀ w, generate next w = (w, r)) →
  ∃ r, ∀ w,
    bind (for_of (λ _ toolCall, executeToolCall toolCall) i calls)
      (λ _, generate next) w = (w, r).
Proof.
  intros [r Hr]. revert i.
  induction calls as [|c calls IH]; intros i.
  - exists r. intros w. unfold bind. simpl. apply Hr.
  - destruct (IH (S i)) as [r' Hr']. cbn [for_of].
    unfold executeToolCall at 1.
    destruct (arguments_parse c).
    + exists r'. intros w. specialize (Hr' w). unfold bind in *. by simpl.
    + by eexists.
Qed.

Lemma generate_value g : ∃ r, ∀ w, generate g w = (w, r).
Proof.
  induction g as [|m next IH]; [by eexists|]. simpl.
  destruct (tool_calls m) as [|call calls]; [by eexists|].
  exact (tool_loop_value next (call :: calls) 0 IH).
Qed.


Lemma addEvent_accepted now date description participants context w :
  ∃ e, addEvent (Some now) date description participants context w
       = (set_event (λ t, t ++ [e]) w, Ok e).
Proof. by eexists. Qed.

Lemma store_fact_ok config env message input i fact w :
  (fact_category fact = "event" → is_Some (fact_event env i)) →
  ∃ w', store_fact config env message input i fact w = (w', Ok tt).
Proof.
  intros Hev. unfold store_fact.
  destruct (String.eqb_spec (fact_category fact) "fact") as [Hf|Hf].
  - destruct (bind_total
                (VectorDB.storeFactSafely config (fact_store env i)
                   (fact_text fact) (msg_id message) (fact_clock env i)
                   (fact_category fact))
                (λ _, ret tt) w) as [stored ->].
    { apply storeFactSafely_total. }
    by eexists.
  - destruct (String.eqb_spec (fact_category fact) "event") as [He|He].
    + destruct (Hev He) as [now ->]. by eexists.
    + by eexists.
Qed.


Lemma for_of_store_fact_ok config env message input facts i w :
  (∀ j fact, facts !! j = Some fact → fact_category fact = "event" →
             is_Some (fact_event env (i + j))) →
  ∃ w', for_of (store_fact config env message input) i facts w = (w', Ok tt).
Proof.
  revert i w. induction facts as [|fact facts IH]; intros i w Hok.
  - by eexists.
  - destruct (store_fact_ok config env message input i fact w) as [w1 H1].
    { intros Hcat. rewrite <- (Nat.add_0_r i). by apply (Hok 0 fact). }
    destruct (IH (S i) w1) as [w2 H2].
    { intros j f Hj Hcat. replace (S i + j) with (i + S j) by lia.
      by apply (Hok (S j) f). }
    exists w2. cbn [for_of]. by rewrite (bind_ok _ _ _ _ _ H1).
Qed.


(** What IMMEDIATE STORAGE does, given the judgement and the facts the two
    collaborator calls return. *)
Lemma immediate_storage_eq config env message input w imp facts :
  snd (detectImportance config (importance env) input
         (conversation_cache w) w) = Ok imp →
  snd (extractWithContext config (extraction env) input
         (conversation_cache w) (msg_id message) w) = Ok facts →
  immediate_storage config env message input w
  = if important imp && negb (String.eqb (category imp) "todo")
    then
      match for_of (store_fact config env message input) 0 facts w with
      | (w1, Ok _) =>
          markMessageProcessed (mark env) (msg_id message) "immediate"
            (Some (category imp)) w1
      | (w1, Throw e) => (w1, Throw e)
      end
    else (w, Ok tt).
Proof.
  intros Himp Hfacts. unfold immediate_storage.
  unfold bind at 1. unfold gets at 1. unfold bind at 1.
  rewrite (pair_eq _ _ _ (detectImportance_state _ _ _ _ _) Himp).
  destruct (important imp && negb (category imp =? "todo")%string); [|done].
  unfold bind at 1. unfold gets at 1. unfold bind at 1.
  rewrite (pair_eq _ _ _ (extractWithContext_state _ _ _ _ _ _) Hfacts).
  unfold bind at 1.
  by destruct (for_of (store_fact config env message input) 0 facts w)
    as [w1 [[]|e]].
Qed.

Lemma respond_cases config env message input w :
  let w0 := set_cache (λ c, c ++ [user_entry env message input]) w in
  ∃ w1 r1,
    immediate_storage config env message input w0 = (w1, r1)
    ∧ conversation_cache w1 = conversation_cache w0
    ∧ match r1 with
      | Throw e => respond config env message input w = (w1, Throw e)
      | Ok _ =>
          ∃ w2 memories events,
            same_stores w1 w2
            ∧ respond config env message input w
              = match generate
                        (generation env
                           (build_context memories events
                              (conversation_cache w0))) w2 with
                | (_, Ok botReply) =>
                    (set_cache trim_cache
                       (set_cache (λ c, c ++ [assistant_entry botReply]) w2),
                     Ok botReply)
                | (_, Throw e) => (w2, Throw e)
                end
      end.
Proof.
  intros w0.
  destruct (immediate_storage config env message input w0) as [w1 r1] eqn:H1.
  exists w1, r1. split; [done|].
  assert (conversation_cache w1 = conversation_cache w0) as Hcache.
  { pose proof (immediate_storage_preserves
                  (λ w', conversation_cache w' = conversation_cache w0)
                  ltac:(done) ltac:(done) ltac:(done) ltac:(done)
                  config env message input w0 eq_refl) as Hp.
    by rewrite H1 in Hp. }
  split; [done|].
  destruct r1 as [[]|e].
  2:{ unfold respond. unfold bind at 1. unfold modify at 1. fold w0.
      unfold bind at 1. by rewrite H1. }
  destruct (read_only_value
              (reformulateQuery (reformulation env) input
                 (conversation_cache w1)) w1) as [q Hq].
  { apply reformulateQuery_state. }
  { apply reformulateQuery_total. }
  destruct (VectorDB.searchMemories (search env) q 3 w1)
    as [w2 rm] eqn:Hs.
  destruct (searchMemories_total (search env) q 3 w1) as [memories Hm].
  rewrite Hs in Hm. simpl in Hm. subst rm.
  assert (same_stores w1 w2) as Hsame.
  { pose proof (searchMemories_preserves (same_stores w1)
                  ltac:(done) (search env) q 3 w1
                  ltac:(by split_and!)) as Hp.
    by rewrite Hs in Hp. }
  destruct (read_only_value (getRecentEvents (recent env) 7) w2)
    as [events He].
  { apply getRecentEvents_state. }
  { apply getRecentEvents_total. }
  exists w2, memories, events. split; [done|].
  unfold respond. unfold bind at 1. unfold modify at 1. fold w0.
  unfold bind at 1. rewrite H1.
  unfold bind at 1. unfold gets at 1.
  unfold bind at 1. rewrite Hq.
  unfold bind at 1. rewrite Hs.
  unfold bind at 1. rewrite He.
  unfold bind at 1. unfold gets at 1.
  destruct Hsame as (Hc2 & _). rewrite Hc2, Hcache.
  unfold bind at 1.
  destruct (generate_value
              (generation env
                 (build_context memories events (conversation_cache w0))))
    as [r Hr].
  rewrite !Hr. by destruct r.
Qed.

Lemma handleAIChat_eq config env message w :
  openai_apiKey config = true →
  Js.trim (Js.strip_mentions (msg_content message)) ≠ "" →
  handleAIChat config env message w
  = match respond config env message
            (Js.trim (Js.strip_mentions (msg_content message))) w with
    | (w', Ok botReply) => (w', Ok botReply)
    | (w', Throw _) => (w', Ok apology)
    end.
Proof.
  intros Hkey Hinput. unfold handleAIChat, try_catch. rewrite Hkey.
  cbn [negb]. apply String.eqb_neq in Hinput. by rewrite Hinput.
Qed.

Lemma for_of_store_fact_ledger config env message input facts i w :
  processedMessage
    (fst (for_of (store_fact config env message input) i facts w))
  = processedMessage w.
Proof.
  apply (preserves_for_of (λ w', processedMessage w' = processedMessage w));
    [|done].
  intros j fact. by apply store_fact_preserves.
Qed.

Lemma immediate_storage_skipped config env message input w imp facts :
  snd (detectImportance config (importance env) input
         (conversation_cache w) w) = Ok imp →
  snd (extractWithContext config (extraction env) input
         (conversation_cache w) (msg_id message) w) = Ok facts →
  important imp = false ∨ category imp = "todo" →
  immediate_storage config env message input w = (w, Ok tt).
Proof.
  intros Himp Hfacts Hskip.
  rewrite (immediate_storage_eq _ _ _ _ _ imp facts) by done.
  destruct Hskip as [-> | ->]; [done|]. by rewrite andb_false_r.
Qed.

Lemma immediate_storage_stored config env message input w imp facts now :
  snd (detectImportance config (importance env) input
         (conversation_cache w) w) = Ok imp →
  snd (extractWithContext config (extraction env) input
         (conversation_cache w) (msg_id message) w) = Ok facts →
  important imp = true → category imp ≠ "todo" →
  event_writes_succeed env facts →
  mark env = Some now →
  ∃ w1,
    immediate_storage config env message input w = (w1, Ok tt)
    ∧ processedMessage w1
      = upsert now (msg_id message) "immediate" (Some (category imp))
          (processedMessage w).
Proof.
  intros Himp Hfacts Hi Hc Hev Hmark.
  rewrite (immediate_storage_eq _ _ _ _ _ imp facts) by done.
  apply String.eqb_neq in Hc. rewrite Hi, Hc. cbn [andb negb].
  destruct (for_of_store_fact_ok config env message input facts 0 w)
    as [w1 H1]; [done|].
  pose proof (for_of_store_fact_ledger config env message input facts 0 w)
    as Hl.
  rewrite H1 in Hl |- *. rewrite Hmark, markMessageProcessed_ok.
  eexists. split; [done|]. simpl in *. by rewrite Hl.
Qed.


(** The ledger a turn leaves is the one IMMEDIATE STORAGE leaves. *)
Lemma handleAIChat_ledger config env message w :
  openai_apiKey config = true →
  Js.trim (Js.strip_mentions (msg_content message)) ≠ "" →
  processedMessage (fst (handleAIChat config env message w))
  = processedMessage
      (fst (immediate_storage config env message
              (Js.trim (Js.strip_mentions (msg_content message)))
              (set_cache
                 (λ c, c ++ [user_entry env message
                               (Js.trim (Js.strip_mentions
                                           (msg_content message)))]) w))).
Proof.
  intros Hkey Hinput. rewrite handleAIChat_eq by done.
  destruct (respond_cases config env message
              (Js.trim (Js.strip_mentions (msg_content message))) w)
    as (w1 & r1 & H1 & _ & Hr).
  rewrite H1. cbn [fst]. destruct r1 as [[]|e].
  - destruct Hr as (w2 & memories & events & (_ & Hl & _) & ->).
    destruct (generate _ w2) as [w3 [botReply|e]]; simpl; congruence.
  - by rewrite Hr.
Qed.

(** C1 (as stated in the specification, refuted at [Sample.hello]): the
    turn is judged unimportant, every service answers, the reply is the
    model's, and the ledger has no record for the message. *)
Lemma unimportant_turn_leaves_no_record :
  snd (handleAIChat default_config
         (Sample.turn (Some Sample.small_talk) []
            (Some "2024-05-01T10:00:01.000Z")
            (Some "2024-05-01T10:00:02.000Z") (Sample.says "Hi bob!"))
         Sample.hello initial_world)
  = Ok "Hi bob!"
  ∧ findUnique "M7"
      (processedMessage
         (fst (handleAIChat default_config
                 (Sample.turn (Some Sample.small_talk) []
                    (Some "2024-05-01T10:00:01.000Z")
                    (Some "2024-05-01T10:00:02.000Z") (Sample.says "Hi bob!"))
                 Sample.hello initial_world)))
    = None.
Proof. by vm_compute. Qed.

(** C1 (amended): a handled turn that is judged important with a category
    other than [todo], whose Event writes and ledger write are accepted,
    leaves a ledger record for its message with [processingType =
    immediate] and [storedIn] the classified category; a turn judged
    unimportant, or classified [todo], leaves the ledger as it was. *)
Theorem immediate_ledger config env message w imp facts :
  openai_apiKey config = true →
  let input := Js.trim (Js.strip_mentions (msg_content message)) in
  input ≠ "" →
  let cache := conversation_cache w ++ [user_entry env message input] in
  snd (detectImportance config (importance env) input cache w) = Ok imp →
  snd (extractWithContext config (extraction env) input cache
         (msg_id message) w) = Ok facts →
  let w' := fst (handleAIChat config env message w) in
  (important imp = true → category imp ≠ "todo" →
   event_writes_succeed env facts → is_Some (mark env) →
   ledgered_as "immediate" (Some (category imp)) (msg_id message)
     (processedMessage w'))
  ∧ (important imp = false ∨ category imp = "todo" →
     processedMessage w' = processedMessage w).
Proof.
  intros Hkey input Hinput cache Himp Hfacts w'. subst w'.
  rewrite handleAIChat_ledger by done. fold input.
  set (w0 := set_cache (λ c, c ++ [user_entry env message input]) w).
  rewrite (detectImportance_any_state _ _ _ _ w w0) in Himp.
  rewrite (extractWithContext_any_state _ _ _ _ _ w w0) in Hfacts.
  split.
  - intros Hi Hc Hev [now Hmark].
    destruct (immediate_storage_stored config env message input w0 imp facts
                now) as (w1 & -> & Hl); try done.
    cbn [fst]. rewrite Hl. apply ledgered_as_upsert.
  - intros Hskip.
    by rewrite (immediate_storage_skipped _ _ _ _ _ imp facts).
Qed.

Lemma immediate_ledger_witness :
  ledgered_as "immediate" (Some "event") "M7"
    (processedMessage
       (fst (handleAIChat default_config
               (Sample.turn (Some Sample.trip) [Sample.rome; Sample.pizza]
                  (Some "2024-05-01T10:00:01.000Z")
                  (Some "2024-05-01T10:00:02.000Z") (Sample.says "Noted."))
               Sample.hello initial_world))).
Proof.
  apply (immediate_ledger default_config
           (Sample.turn (Some Sample.trip) [Sample.rome; Sample.pizza]
              (Some "2024-05-01T10:00:01.000Z")
              (Some "2024-05-01T10:00:02.000Z") (Sample.says "Noted."))
           Sample.hello initial_world Sample.trip
           [Sample.rome; Sample.pizza]).
  - reflexivity.
  - by vm_compute.
  - reflexivity.
  - reflexivity.
  - reflexivity.
  - by vm_compute.
  - intros i fact _ _. simpl. by eexists.
  - simpl. by eexists.
Defined.








End ChatTurn.

(** ** Worked examples *)

Example trim_ex : Js.trim "  likes pizza
 " = "likes pizza".
Proof. reflexivity. Qed.

Example split_ex : Js.split "|" "a|b c||d" = ["a"; "b c"; ""; "d"].
Proof. reflexivity. Qed.

Example strip_ex :
  Js.strip_mentions "<@!123> hi <@9> there <@> <@12" = " hi  there <@> <@12".
Proof. reflexivity. Qed.

Example slice_last_ex : Js.slice_last 2 [1; 2; 3] = [2; 3].
Proof. reflexivity. Qed.

(** The cut of the cache keeps the most recent entries. *)
Example trim_cache_ex :
  AiChat.trim_cache (replicate 12 (Sample.entry "M0" "bob: hi")
                       ++ replicate 40 (Sample.entry "M1" "bob: bye"))
  = replicate 40 (Sample.entry "M1" "bob: bye").
Proof. reflexivity. Qed.

(** A chunk of exactly 20 characters does not survive; one of 21 does. *)
Example chunks_of_ex :
  MemoryProcessor.chunks_of "12345678901234567890 | 123456789012345678901 "
  = ["123456789012345678901"].
Proof. reflexivity. Qed.

(** A failed ledger lookup makes a ledgered message look unprocessed. *)
Example lookup_failure_ex :
  snd (Scheduler.gather
         (with_extraction (λ _, None)
            {| Scheduler.lookup := λ _, None;
               Scheduler.batch_extraction := λ _, None;
               Scheduler.chunk_clock := "";
               Scheduler.chunk_store := λ _, Sample.chroma "" [];
               Scheduler.batch_mark := λ _, None |})
         0 [Sample.entry "M1" "bob: my birthday is in May"] Sample.evening)
  = Ok [Sample.entry "M1" "bob: my birthday is in May"].
Proof. reflexivity. Qed.

(** * Further properties of the memory pipeline *)

(** ** Invariants that only need the stores to grow *)

Section Growth.

Import SqlDB VectorDB MemoryProcessor AiChat Scheduler.

Context (P : World → Prop).

Hypothesis keeps_collection : ∀ b w, P w → P (set_collection b w).
Hypothesis keeps_insert : ∀ id d w,
  P w → P (set_documents (<[id := d]>) w).
Hypothesis keeps_update : ∀ id md w,
  P w → P (set_documents (update_metadata id md) w).
Hypothesis keeps_event : ∀ date description participants context w,
  P w →
  P (set_event
       (λ t, t ++ [event_create date description participants context
                     (event w)]) w).
Hypothesis keeps_upsert : ∀ now id processingType storedIn w,
  P w → P (set_ledger (upsert now id processingType storedIn) w).
Hypothesis keeps_cache : ∀ f w, P w → P (set_cache f w).

Local Hint Resolve keeps_collection keeps_insert keeps_update keeps_upsert
  keeps_cache : pres.

Lemma addEvent_keeps db date description participants context :
  preserves P (addEvent db date description participants context).
Proof using keeps_event.
  intros w Hw. destruct db as [now|]; simpl; [|done]. by apply keeps_event.
Qed.

Lemma markMessageProcessed_keeps db id processingType storedIn :
  preserves P (markMessageProcessed db id processingType storedIn).
Proof using keeps_upsert. by apply markMessageProcessed_preserves. Qed.

Lemma ensure_collection_keeps a : preserves P (ensure_collection a).
Proof using keeps_collection. by apply ensure_collection_preserves. Qed.

Lemma checkDuplicate_keeps a factText threshold :
  preserves P (checkDuplicate a factText threshold).
Proof using keeps_collection. by apply checkDuplicate_preserves. Qed.

Lemma searchMemories_keeps a q limit :
  preserves P (searchMemories a q limit).
Proof using keeps_collection. by apply searchMemories_preserves. Qed.

Local Hint Resolve addEvent_keeps markMessageProcessed_keeps
  ensure_collection_keeps checkDuplicate_keeps searchMemories_keeps
  generateEmbedding_preserves getRecentEvents_preserves
  detectImportance_preserves extractWithContext_preserves
  processConversations_preserves reformulateQuery_preserves
  generate_preserves gather_preserves : pres.

Lemma enrichExistingFact_keeps a factId newText newMessageId ts :
  preserves P (enrichExistingFact a factId newText newMessageId ts).
Proof using keeps_update. unfold enrichExistingFact. pres. Qed.

Local Hint Resolve enrichExistingFact_keeps : pres.

Lemma storeFactSafely_keeps config a factText messageId ts category :
  preserves P (storeFactSafely config a factText messageId ts category).
Proof using keeps_collection keeps_insert keeps_update.
  unfold storeFactSafely. pres.
Qed.

Lemma storeMemory_keeps a narrative metadata :
  preserves P (storeMemory a narrative metadata).
Proof using keeps_collection keeps_insert. unfold storeMemory. pres. Qed.

Local Hint Resolve storeFactSafely_keeps storeMemory_keeps : pres.

Lemma store_fact_keeps config env message input i fact :
  preserves P (store_fact config env message input i fact).
Proof using keeps_collection keeps_insert keeps_update keeps_event.
  unfold store_fact. pres.
Qed.

Local Hint Resolve store_fact_keeps : pres.

Lemma immediate_storage_keeps config env message input :
  preserves P (immediate_storage config env message input).
Proof using keeps_collection keeps_insert keeps_update keeps_event
  keeps_upsert.
  unfold immediate_storage. pres.
Qed.

Local Hint Resolve immediate_storage_keeps : pres.

Lemma handleAIChat_keeps config env message :
  preserves P (handleAIChat config env message).
Proof using All. unfold handleAIChat, respond. pres. Qed.

Lemma runConsolidation_keeps env : preserves P (runConsolidation env).
Proof using keeps_collection keeps_insert keeps_upsert keeps_cache.
  unfold runConsolidation, getConversationCache, clearConversationCache,
    mark_message, store_chunk.
  pres.
Qed.

Lemma run_keeps config acts w : P w → P (run config acts w).
Proof using All.
  revert w. induction acts as [|a acts IH]; intros w Hw; simpl; [done|].
  apply IH. destruct a as [env message|env]; simpl.
  - by apply handleAIChat_keeps.
  - by apply runConsolidation_keeps.
Qed.

End Growth.

Section StoresGrow.

Import SqlDB VectorDB MemoryProcessor AiChat Scheduler.

(** X1: a message that has a ledger record keeps one along every history
    of chat turns and consolidation runs, with the [processedAt] it got when
    the record was created; and no later run whose ledger lookups are
    answered gathers an entry with that message id. *)
Theorem ledgered_stays_ledgered config acts w id r :
  findUnique id (processedMessage w) = Some r →
  let w' := run config acts w in
  (∃ r', findUnique id (processedMessage w') = Some r'
         ∧ lr_processedAt r' = lr_processedAt r)
  ∧ (∀ env gathered,
       (∀ i, is_Some (lookup env i)) →
       snd (gather env 0 (conversation_cache w') w') = Ok gathered →
       ∀ msg, msg ∈ gathered → messageId msg ≠ Some id).
Proof.
  intros Hr. cbv zeta.
  assert (∃ r', findUnique id (processedMessage (run config acts w)) = Some r'
                ∧ lr_processedAt r' = lr_processedAt r) as Hkept.
  { apply (run_keeps
             (λ w', ∃ r', findUnique id (processedMessage w') = Some r'
                          ∧ lr_processedAt r' = lr_processedAt r));
      try done; [|by exists r].
    intros now id0 processingType storedIn w0 (r0 & Hr0 & Hat). simpl.
    destruct (decide (id0 = id)) as [->|Hne].
    - rewrite findUnique_upsert_eq, Hr0. by eexists.
    - rewrite findUnique_upsert_ne by done. by exists r0. }
  split; [done|].
  intros env gathered Hres Hg msg Hin Hid.
  rewrite gather_resolved in Hg by (intros; apply Hres).
  injection Hg as <-.
  apply list_elem_of_filter in Hin as [Hun _].
  apply unledgered_spec in Hun as (id' & Hid' & _ & Hnone).
  destruct Hkept as (r' & Hr' & _). congruence.
Qed.

Lemma ledgered_stays_ledgered_witness :
  ∃ r', findUnique "M1"
          (processedMessage
             (run default_config
                [ Chat (Sample.turn (Some Sample.trip) [Sample.rome]
                          (Some "2024-05-01T10:00:01.000Z")
                          (Some "2024-05-01T10:00:02.000Z")
                          (Sample.says "Noted."))
                    Sample.hello;
                  Consolidate
                    (Sample.nightly "bob moved to Lyon this spring") ]
                Sample.evening)) = Some r'
        ∧ lr_processedAt r' = "2024-05-01T10:00:01.000Z".
Proof.
  apply (ledgered_stays_ledgered default_config _ Sample.evening "M1"
           {| lr_messageId := "M1";
              lr_processedAt := "2024-05-01T10:00:01.000Z";
              lr_processingType := "immediate";
              lr_storedIn := Some "fact" |}).
  reflexivity.
Defined.

(** X2: the event table is append-only.  Along every history the table a
    state started with is a prefix of the table it ends with; and when the
    ids of the table are 1, 2, ..., n in row order (as in an empty table)
    they still are afterwards, so every accepted Event write adds a row of
    its own, whatever its description. *)
Theorem events_append_only config acts w :
  map ev_id (event w) = seq 1 (length (event w)) →
  let w' := run config acts w in
  event w `prefix_of` event w'
  ∧ map ev_id (event w') = seq 1 (length (event w'))
  ∧ NoDup (map ev_id (event w')).
Proof.
  intros Hids. cbv zeta.
  assert (event w `prefix_of` event (run config acts w)
          ∧ map ev_id (event (run config acts w))
            = seq 1 (length (event (run config acts w)))) as [Hpre Hseq].
  { apply (run_keeps
             (λ w', event w `prefix_of` event w'
                    ∧ map ev_id (event w') = seq 1 (length (event w'))));
      try done.
    intros date description participants context w0 [Hpre Hseq]. simpl.
    split; [by apply prefix_app_r|].
    rewrite map_app, length_app, Hseq. simpl.
    by rewrite Nat.add_1_r, seq_S. }
  split_and!; [done | done |]. rewrite Hseq. apply NoDup_seq.
Qed.

Lemma events_append_only_witness :
  let w' :=
    run default_config
      [ Chat (Sample.turn (Some Sample.trip) [Sample.rome; Sample.rome]
                (Some "2024-05-01T10:00:01.000Z")
                (Some "2024-05-01T10:00:02.000Z") (Sample.says "Noted."))
          Sample.hello ]
      initial_world in
  event initial_world `prefix_of` event w'
  ∧ map ev_id (event w') = seq 1 (length (event w'))
  ∧ NoDup (map ev_id (event w')).
Proof.
  apply (events_append_only default_config _ initial_world). reflexivity.
Defined.

(** X3: no entry point deletes a record of the semantic store: along every
    history, every id the collection holds is still held afterwards. *)
Theorem facts_never_deleted config acts w :
  dom (documents w) ⊆ dom (documents (run config acts w)).
Proof.
  apply (run_keeps (λ w', dom (documents w) ⊆ dom (documents w')));
    try done.
  - intros id d w0 Hsub. simpl. rewrite dom_insert_L. set_solver.
  - intros id md w0 Hsub. simpl. by rewrite update_metadata_dom.
Qed.

End StoresGrow.

Section RunEffects.

Import SqlDB VectorDB MemoryProcessor AiChat Scheduler.

Lemma for_of_mark_message_rejected env l i w :
  (∃ j msg, l !! j = Some msg ∧ is_Some (has_messageId msg)
            ∧ batch_mark env (i + j) = None) →
  ∃ w' e, for_of (mark_message env) i l w = (w', Throw e).
Proof.
  revert i w. induction l as [|m l IH];
    intros i w (j & msg & Hj & Hid & Hdb); [done|].
  cbn [for_of].
  destruct (mark_message env i m w) as [w1 [[]|e]] eqn:H1.
  - rewrite (bind_ok _ _ _ _ _ H1). destruct j as [|j].
    + injection Hj as ->. rewrite Nat.add_0_r in Hdb.
      unfold mark_message in H1. destruct Hid as [id Hid].
      rewrite Hid, Hdb in H1. done.
    + apply IH. exists j, msg. by replace (S i + j) with (i + S j) by lia.
  - rewrite (bind_throw _ _ _ _ _ H1). by eexists _, _.
Qed.

Lemma for_of_mark_message_cache env l i w :
  conversation_cache (fst (for_of (mark_message env) i l w))
  = conversation_cache w.
Proof.
  apply (preserves_for_of
           (λ w', conversation_cache w' = conversation_cache w)); [|done].
  intros j msg. by apply mark_message_preserves.
Qed.

(** X4: a consolidation run never throws and never writes the event
    table; it leaves the cache either exactly as it was or empty.  When
    chunks were extracted and one of the ledger writes for the gathered
    messages is rejected, the run stops with the cache as it was, while the
    chunks it has stored stay in the collection (the next run extracts and
    stores them again). *)
Theorem consolidation_all_or_nothing env w :
  let w' := fst (runConsolidation env w) in
  snd (runConsolidation env w) = Ok tt
  ∧ (conversation_cache w' = conversation_cache w
     ∨ conversation_cache w' = [])
  ∧ event w' = event w
  ∧ (∀ gathered chunks,
       snd (gather env 0 (conversation_cache w) w) = Ok gathered →
       snd (processConversations (batch_extraction env) (chunk_clock env)
              gathered w) = Ok chunks →
       chunks ≠ [] →
       (∃ i, i < length gathered ∧ batch_mark env i = None) →
       conversation_cache w' = conversation_cache w
       ∧ documents w'
         = documents (fst (for_of (store_chunk env) 0 chunks w))).
Proof.
  cbv zeta.
  destruct (gather_spec env (conversation_cache w) 0 w)
    as (gathered & Hg & _ & Hids).
  destruct (read_only_value
              (processConversations (batch_extraction env) (chunk_clock env)
                 gathered) w) as [chunks Hc].
  { apply processConversations_state. }
  { apply processConversations_total. }
  pose proof (runConsolidation_unfold env w gathered chunks Hg Hc) as Hrun.
  destruct (for_of_store_chunk env chunks 0 w) as (w1 & Hs & Hcache1 & _).
  pose proof (for_of_mark_message_cache env gathered 0 w1) as Hcache2.
  rewrite Hs in Hrun. cbn [fst] in Hrun.
  split_and!.
  - rewrite Hrun. repeat case_match; done.
  - rewrite Hrun. repeat case_match; simpl in *; subst;
      first [by left | by right | left; congruence].
  - by apply (runConsolidation_preserves (λ w', event w' = event w)).
  - intros gathered' chunks' Hg' Hc' Hne (i & Hi & Hdb).
    rewrite Hg in Hg'. injection Hg' as <-.
    rewrite Hc in Hc'. injection Hc' as <-.
    destruct gathered as [|msg0 gathered0] eqn:Hgath; [simpl in Hi; lia|].
    destruct chunks as [|c0 chunks0] eqn:Hch; [done|].
    cbn [length Nat.eqb Nat.ltb Nat.leb] in Hrun.
    destruct (for_of_mark_message_rejected env (msg0 :: gathered0) 0 w1)
      as (w2 & e & Hm).
    { destruct (lookup_lt_is_Some_2 (msg0 :: gathered0) i Hi) as [m Hm].
      exists i, m. split_and!; [done | | done].
      rewrite Forall_forall in Hids. apply Hids.
      by apply list_elem_of_lookup_2 with i. }
    assert (documents
              (fst (for_of (mark_message env) 0 (msg0 :: gathered0) w1))
            = documents w1) as Hdocs.
    { apply (preserves_for_of (λ w', documents w' = documents w1)); [|done].
      intros j m. by apply mark_message_preserves. }
    rewrite Hm in Hrun, Hcache2, Hdocs. rewrite Hrun, Hs. cbn [fst] in *.
    split; congruence.
Qed.

End RunEffects.

Section StoreOutcomes.

Import SqlDB VectorDB MemoryProcessor AiChat Scheduler.

(** [storeFactSafely] as a case distinction over the answers it gets. *)
Lemma storeFactSafely_eq config a factText messageId ts category w :
  storeFactSafely config a factText messageId ts category w
  = let w0 := connected a w in
    let fresh :=
      match embedding_store a with
      | Some e =>
          if add_ok a
          then (set_documents
                  (<[uuid a := {| doc_text := factText; doc_embedding := e;
                                  doc_metadata :=
                                    new_fact_metadata messageId ts
                                      category |}]>) w0,
                Ok (StoredNew (uuid a)))
          else (w0, Ok (StoredFailed "collection.add"))
      | None => (w0, Ok (StoredFailed "openai.embeddings.create"))
      end in
    if collection w || connects a
    then
      match embedding_query a, query a with
      | Some _, Some (n :: _) =>
          if Js.lt (nb_distance n) (memory_dedupThreshold config)
          then (if get_ok a && update_ok a
                then set_documents
                       (update_metadata (nb_id n)
                          (enriched_metadata
                             match documents w !! nb_id n with
                             | Some d => doc_metadata d
                             | None => ∅
                             end messageId ts)) w0
                else w0,
                Ok (StoredEnriched (nb_id n)))
          else fresh
      | _, _ => fresh
      end
    else (w0, Ok (StoredFailed "no collection")).
Proof.
  cbv zeta. unfold storeFactSafely, try_catch.
  unfold bind at 1. rewrite ensure_collection_eq.
  destruct (collection w || connects a) eqn:Hav; cbn [negb]; [|done].
  assert (collection (connected a w) = true) as Hc
    by by rewrite connected_collection.
  unfold bind at 1. rewrite checkDuplicate_eq by done.
  destruct (embedding_query a) as [eq|] eqn:Heq;
    [destruct (query a) as [[|n rest]|] eqn:Hq;
     [| destruct (Js.lt (nb_distance n) (memory_dedupThreshold config))
          eqn:Hlt |] |].
  2:{ unfold bind at 1. cbn [existingId].
      rewrite enrichExistingFact_eq, connected_documents by done.
      by destruct (get_ok a && update_ok a). }
  all: unfold generateEmbedding, try_catch, bind, await, resolves, modify;
    destruct (embedding_store a) as [e|]; simpl; [|done];
    by destruct (add_ok a).
Qed.

(** The three ways [storeFactSafely] can end, each with what it has done
    to the collection. *)
Lemma storeFactSafely_inv config a factText messageId ts category w :
  let result := storeFactSafely config a factText messageId ts category w in
  match snd result with
  | Throw _ => False
  | Ok (StoredFailed _) => documents (fst result) = documents w
  | Ok (StoredEnriched id) =>
      (∃ n rest, query a = Some (n :: rest) ∧ id = nb_id n
                 ∧ (nb_distance n < memory_dedupThreshold config)%Q)
      ∧ (documents (fst result) = documents w
         ∨ documents (fst result)
           = update_metadata id
               (enriched_metadata
                  match documents w !! id with
                  | Some d => doc_metadata d
                  | None => ∅
                  end messageId ts) (documents w))
  | Ok (StoredNew id) =>
      id = uuid a
      ∧ collection (fst result) = true
      ∧ ∃ e, embedding_store a = Some e
             ∧ documents (fst result)
               = <[id := {| doc_text := factText; doc_embedding := e;
                            doc_metadata :=
                              new_fact_metadata messageId ts category |}]>
                   (documents w)
  end.
Proof.
  cbv zeta. rewrite storeFactSafely_eq. cbv zeta.
  destruct (collection w || connects a) eqn:Hav;
    [|simpl; apply connected_documents].
  assert (collection (connected a w) = true) as Hc
    by by rewrite connected_collection.
  assert (match
            match embedding_store a with
            | Some e =>
                if add_ok a
                then (set_documents
                        (<[uuid a := {| doc_text := factText;
                                        doc_embedding := e;
                                        doc_metadata :=
                                          new_fact_metadata messageId ts
                                            category |}]>) (connected a w),
                      Ok (StoredNew (uuid a)))
                else (connected a w, Ok (StoredFailed "collection.add"))
            | None =>
                (connected a w, Ok (StoredFailed "openai.embeddings.create"))
            end
          with
          | (w', Ok (StoredNew id)) =>
              id = uuid a ∧ collection w' = true
              ∧ ∃ e, embedding_store a = Some e
                     ∧ documents w'
                       = <[id := {| doc_text := factText; doc_embedding := e;
                                    doc_metadata :=
                                      new_fact_metadata messageId ts
                                        category |}]> (documents w)
          | (w', Ok (StoredFailed _)) => documents w' = documents w
          | _ => False
          end) as Hfresh.
  { destruct (embedding_store a) as [e|];
      [destruct (add_ok a)|]; simpl; rewrite ?connected_documents;
      try done.
    split_and!; [done | done | by exists e]. }
  destruct (embedding_query a) as [eq|];
    [destruct (query a) as [[|n rest]|] eqn:Hq;
     [| destruct (Js.lt (nb_distance n) (memory_dedupThreshold config))
          eqn:Hlt |] |].
  2:{ apply lt_spec in Hlt. cbn [fst snd].
      split; [by exists n, rest|].
      destruct (get_ok a && update_ok a); simpl;
        rewrite ?connected_documents; auto. }
  all: revert Hfresh;
    destruct (embedding_store a) as [e|]; [destruct (add_ok a)|];
    simpl; try done.
Qed.

(** X5: [storeFactSafely] never throws and never touches the cache, the
    ledger or the event table.  It ends in one of three ways: [failed], and
    then the collection is exactly as before; [enriched] with the id of the
    first row of the query, which lay under the threshold, and then the
    collection has the same ids and every other record, the text and the
    embedding of that fact are unchanged; or [new] with the id drawn from
    [uuidv4], and then the collection is the old one with the fact stored
    under that id. *)
Theorem store_fact_outcomes config a factText messageId ts category w :
  let result := storeFactSafely config a factText messageId ts category w in
  let w' := fst result in
  conversation_cache w' = conversation_cache w
  ∧ processedMessage w' = processedMessage w
  ∧ event w' = event w
  ∧ match snd result with
    | Throw _ => False
    | Ok (StoredFailed _) => documents w' = documents w
    | Ok (StoredEnriched id) =>
        (∃ n rest, query a = Some (n :: rest) ∧ id = nb_id n
                   ∧ (nb_distance n < memory_dedupThreshold config)%Q)
        ∧ dom (documents w') = dom (documents w)
        ∧ (∀ id', id' ≠ id → documents w' !! id' = documents w !! id')
        ∧ (doc_text <$> documents w' !! id) = (doc_text <$> documents w !! id)
        ∧ (doc_embedding <$> documents w' !! id)
          = (doc_embedding <$> documents w !! id)
    | Ok (StoredNew id) =>
        id = uuid a
        ∧ ∃ e, embedding_store a = Some e
               ∧ documents w'
                 = <[id := {| doc_text := factText; doc_embedding := e;
                              doc_metadata :=
                                new_fact_metadata messageId ts category |}]>
                     (documents w)
    end.
Proof.
  cbv zeta.
  pose proof (storeFactSafely_preserves
                (λ w', conversation_cache w' = conversation_cache w
                       ∧ processedMessage w' = processedMessage w
                       ∧ event w' = event w)
                ltac:(done) ltac:(done)
                config a factText messageId ts category w
                ltac:(done)) as (Hc & Hl & He).
  split_and!; [done | done | done |].
  pose proof (storeFactSafely_inv config a factText messageId ts category w)
    as Hinv. cbv zeta in Hinv.
  destruct (snd (storeFactSafely config a factText messageId ts category w))
    as [[reason|id|id]|e]; try done.
  - destruct Hinv as [Hdup [-> | ->]]; [by split_and!|].
    split_and!; [done | apply update_metadata_dom | | |].
    + intros id' Hne. by apply update_metadata_lookup_ne.
    + destruct (documents w !! id) as [d|] eqn:Hd.
      * by rewrite (update_metadata_lookup _ _ _ d).
      * unfold update_metadata. by rewrite Hd, Hd.
    + destruct (documents w !! id) as [d|] eqn:Hd.
      * by rewrite (update_metadata_lookup _ _ _ d).
      * unfold update_metadata. by rewrite Hd, Hd.
  - destruct Hinv as (-> & _ & e & He' & Hdocs). split; [done|]. by exists e.
Qed.

(** X6: a fact stored as [new] and then met again as a duplicate keeps its
    text and carries both message ids.  If a first call returned [new]
    with some id for a message with a non-empty id, and a later call finds
    that fact as nearest neighbour under the threshold and its metadata
    read and update succeed, the later call returns [enriched] with the same
    id, adds no record, and the fact then has the first text,
    [source_messages] equal to the two message ids joined by a comma,
    [enriched = true], [last_updated] the second timestamp, and the
    [timestamp], [category] and [processed_type] it was created with. *)
Theorem enrichment_after_store config a1 a2 text1 text2 idA idB ts1 ts2
    cat1 cat2 w w1 id e n rest :
  storeFactSafely config a1 text1 idA ts1 cat1 w = (w1, Ok (StoredNew id)) →
  idA ≠ "" →
  embedding_query a2 = Some e →
  query a2 = Some (n :: rest) →
  nb_id n = id →
  (nb_distance n < memory_dedupThreshold config)%Q →
  get_ok a2 = true → update_ok a2 = true →
  let result := storeFactSafely config a2 text2 idB ts2 cat2 w1 in
  snd result = Ok (StoredEnriched id)
  ∧ dom (documents (fst result)) = dom (documents w1)
  ∧ ∃ fact,
      documents (fst result) !! id = Some fact
      ∧ doc_text fact = text1
      ∧ doc_metadata fact !! "source_messages"
        = Some (Js.VStr (idA +:+ "," +:+ idB))
      ∧ doc_metadata fact !! "enriched" = Some (Js.VBool true)
      ∧ doc_metadata fact !! "last_updated" = Some (Js.VStr ts2)
      ∧ doc_metadata fact !! "timestamp" = Some (Js.VStr ts1)
      ∧ doc_metadata fact !! "category" = Some (Js.VStr cat1)
      ∧ doc_metadata fact !! "processed_type" = Some (Js.VStr "immediate")
      ∧ doc_metadata fact !! "source_message_id" = Some (Js.VStr idA).
Proof.
  intros Hfirst HidA He Hq Hn Hlt Hget Hupd. cbv zeta.
  pose proof (storeFactSafely_inv config a1 text1 idA ts1 cat1 w) as Hinv.
  cbv zeta in Hinv. rewrite Hfirst in Hinv. cbn [fst snd] in Hinv.
  destruct Hinv as (-> & Hc & e1 & _ & Hdocs).
  apply lt_spec in Hlt.
  rewrite (storeFactSafely_duplicate _ _ _ _ _ _ _ e n rest);
    [| by rewrite Hc | done | done | done].
  rewrite Hget, Hupd, connected_idem by done. cbn [andb fst snd].
  simpl documents. rewrite Hn, Hdocs, lookup_insert_eq. cbn [doc_metadata].
  split_and!; [done | by rewrite update_metadata_dom |].
  eexists. split; [apply update_metadata_lookup, lookup_insert_eq|].
  cbn [doc_text doc_metadata].
  destruct (enriched_metadata_lookup
              (new_fact_metadata idA ts1 cat1) idB ts2)
    as (Hsrc & Hupd' & Henr & Hrest).
  assert (new_fact_metadata idA ts1 cat1 !! "source_messages"
          = Some (Js.VStr idA)) as Hold.
  { unfold new_fact_metadata, Metadata.
    repeat (rewrite lookup_insert_ne by done). by rewrite lookup_insert_eq. }
  rewrite Hold in Hsrc. cbn [Js.truthy Js.to_string] in Hsrc.
  apply String.eqb_neq in HidA. rewrite HidA in Hsrc. cbn [negb] in Hsrc.
  split_and!; try done.
  all: rewrite Hrest by done; unfold new_fact_metadata, Metadata;
    repeat (rewrite lookup_insert_ne by done); by rewrite lookup_insert_eq.
Qed.

Lemma enrichment_after_store_witness :
  let a1 := Sample.chroma "F9" [] in
  let row :=
    {| nb_id := "F9"; nb_document := "bob likes pizza"; nb_metadata := ∅;
       nb_distance := 8 # 100 |} in
  let a2 := Sample.chroma "F10" [row] in
  let w1 :=
    fst (storeFactSafely default_config a1 "bob likes pizza" "A"
           "2024-05-01T10:00:00.500Z" "fact" initial_world) in
  let result :=
    storeFactSafely default_config a2 "bob really likes pizza" "B"
      "2024-05-02T09:00:00.000Z" "fact" w1 in
  snd result = Ok (StoredEnriched "F9")
  ∧ dom (documents (fst result)) = dom (documents w1)
  ∧ ∃ fact,
      documents (fst result) !! "F9" = Some fact
      ∧ doc_text fact = "bob likes pizza"
      ∧ doc_metadata fact !! "source_messages" = Some (Js.VStr "A,B")
      ∧ doc_metadata fact !! "enriched" = Some (Js.VBool true)
      ∧ doc_metadata fact !! "last_updated"
        = Some (Js.VStr "2024-05-02T09:00:00.000Z")
      ∧ doc_metadata fact !! "timestamp"
        = Some (Js.VStr "2024-05-01T10:00:00.500Z")
      ∧ doc_metadata fact !! "category" = Some (Js.VStr "fact")
      ∧ doc_metadata fact !! "processed_type" = Some (Js.VStr "immediate")
      ∧ doc_metadata fact !! "source_message_id" = Some (Js.VStr "A").
Proof.
  apply (enrichment_after_store default_config (Sample.chroma "F9" [])
           (Sample.chroma "F10"
              [ {| nb_id := "F9"; nb_document := "bob likes pizza";
                   nb_metadata := ∅; nb_distance := 8 # 100 |} ])
           "bob likes pizza" "bob really likes pizza" "A" "B"
           "2024-05-01T10:00:00.500Z" "2024-05-02T09:00:00.000Z"
           "fact" "fact" initial_world _ "F9" [1 # 2; 1 # 3]
           {| nb_id := "F9"; nb_document := "bob likes pizza";
              nb_metadata := ∅; nb_distance := 8 # 100 |} []);
    try reflexivity.
  discriminate.
Defined.

End StoreOutcomes.

Section RecentEvents.

Import SqlDB.

Lemma ltb_false_leb a b : String.ltb a b = false ↔ String.leb b a = true.
Proof.
  unfold String.ltb, String.leb. rewrite (String.compare_antisym a b).
  by destruct (b ?= a)%string.
Qed.

Lemma leb_lt_or_eq a b :
  String.leb a b = true ↔ OrderedTypeEx.String_as_OT.lt a b ∨ a = b.
Proof.
  rewrite <- OrderedTypeEx.String_as_OT.cmp_lt.
  unfold String.leb, OrderedTypeEx.String_as_OT.cmp.
  destruct (a ?= b)%string eqn:Hc.
  - apply String.compare_eq_iff in Hc. by split; [right|].
  - by split; [left|].
  - split; [done | intros [?| ->]; [done|]].
    assert ((b ?= b)%string = Eq) as Heq.
    { pose proof (String.compare_antisym b b) as H.
      by destruct (b ?= b)%string. }
    congruence.
Qed.

Lemma leb_trans a b c :
  String.leb a b = true → String.leb b c = true → String.leb a c = true.
Proof.
  rewrite !leb_lt_or_eq. intros [Hab| ->] [Hbc| ->]; auto.
  left. by apply OrderedTypeEx.String_as_OT.lt_trans with b.
Qed.

Lemma insert_desc_perm e l : insert_desc e l ≡ₚ e :: l.
Proof.
  induction l as [|x l IH]; simpl; [done|].
  destruct (String.ltb (ev_date x) (ev_date e)); [done|].
  rewrite IH. apply Permutation_swap.
Qed.

Lemma insert_desc_sorted e l : newest_first l → newest_first (insert_desc e l).
Proof.
  unfold newest_first. induction 1 as [|x l Hs IH Hx]; simpl.
  - repeat constructor.
  - destruct (String.ltb (ev_date x) (ev_date e)) eqn:Hlt.
    + constructor; [by constructor|]. constructor.
      * unfold String.ltb in Hlt. unfold String.leb.
        by destruct (ev_date x ?= ev_date e)%string.
      * eapply Forall_impl; [exact Hx|]. intros y Hy. simpl in Hy.
        apply leb_trans with (ev_date x); [done|].
        unfold String.ltb in Hlt. unfold String.leb.
        by destruct (ev_date x ?= ev_date e)%string.
    + constructor; [done|]. rewrite insert_desc_perm.
      constructor; [by apply ltb_false_leb | done].
Qed.

Lemma order_by_date_desc_spec l :
  order_by_date_desc l ≡ₚ l ∧ newest_first (order_by_date_desc l).
Proof.
  unfold order_by_date_desc. induction l as [|e l [IHp IHs]]; simpl.
  - split; [done | constructor].
  - split; [by rewrite insert_desc_perm, IHp | by apply insert_desc_sorted].
Qed.

(** X7: [getRecentEvents] never throws and leaves the state as it is.  When
    the query is answered, the rows returned are exactly the events dated on
    or after the cutoff (each as often as it is in the table), ordered
    newest first; when the query fails, the answer is the empty list. *)
Theorem recent_events_newest_first cutoff days w :
  let result := getRecentEvents cutoff days w in
  fst result = w
  ∧ match cutoff days with
    | Some c =>
        ∃ rows, snd result = Ok rows
                ∧ rows ≡ₚ filter (λ e, String.leb c (ev_date e) = true)
                            (event w)
                ∧ newest_first rows
    | None => snd result = Ok []
    end.
Proof.
  cbv zeta. split; [apply getRecentEvents_state|].
  unfold getRecentEvents, try_catch, bind, await.
  destruct (cutoff days) as [c|]; simpl; [|done].
  eexists. split; [done|]. apply order_by_date_desc_spec.
Qed.

End RecentEvents.

Section Chunks.

Import MemoryProcessor.












End Chunks.

Section ContextWindow.

Import MemoryProcessor AiChat.

Lemma slice_last_app {A} n (older recent : list A) :
  (n ≤ length recent)%nat →
  (0 < n)%nat →
  Js.slice_last n (older ++ recent) = Js.slice_last n recent.
Proof.
  intros Hle Hpos. unfold Js.slice_last.
  destruct n as [|n]; [lia|]. cbn [Nat.eqb].
  rewrite drop_app, length_app.
  rewrite drop_ge by lia. simpl. f_equal. lia.
Qed.

(** X9: the collaborator calls and the reply context only see the most
    recent turns.  When the cache holds at least a window of turns
    ([contextWindowSize] for the importance and extraction prompts, 3 for
    the query reformulation, 10 for the reply context), any older turns in
    front of them change nothing in the result. *)
Theorem older_turns_are_out_of_sight config importance extraction
    reformulation message id query memories events older recent w :
  (0 < memory_contextWindowSize config)%nat →
  (memory_contextWindowSize config ≤ length recent)%nat →
  (10 ≤ length recent)%nat →
  detectImportance config importance message (older ++ recent) w
  = detectImportance config importance message recent w
  ∧ extractWithContext config extraction message (older ++ recent) id w
    = extractWithContext config extraction message recent id w
  ∧ reformulateQuery reformulation query (older ++ recent) w
    = reformulateQuery reformulation query recent w
  ∧ build_context memories events (older ++ recent)
    = build_context memories events recent.
Proof.
  intros Hpos Hwin Hten.
  unfold detectImportance, extractWithContext, reformulateQuery,
    build_context.
  rewrite !(slice_last_app (memory_contextWindowSize config)) by done.
  rewrite (slice_last_app 3), (slice_last_app 10) by lia.
  done.
Qed.

Lemma older_turns_are_out_of_sight_witness :
  build_context [] []
    (replicate 7 (Sample.entry "M0" "bob: long ago")
       ++ replicate 10 (Sample.entry "M1" "bob: just now"))
  = build_context [] [] (replicate 10 (Sample.entry "M1" "bob: just now")).
Proof.
  apply (older_turns_are_out_of_sight default_config (λ _, None) (λ _, None)
           (λ _, None) "" "" "" [] []
           (replicate 7 (Sample.entry "M0" "bob: long ago"))
           (replicate 10 (Sample.entry "M1" "bob: just now")) initial_world);
    simpl; lia.
Defined.

End ContextWindow.

Section Routing.

Import SqlDB MemoryProcessor AiChat.






End Routing.

Section Mentions.

Import AiChat.










End Mentions.

(** * Properties of the todo list *)

Section TodoOrder.

Import TodoDB.

Lemma ltb_asym a b : String.ltb a b = true → String.ltb b a = false.
Proof.
  unfold String.ltb. rewrite (String.compare_antisym a b).
  by destruct (b ?= a)%string.
Qed.

Lemma ltb_false_trans a b c :
  String.ltb a b = false → String.ltb b c = false → String.ltb a c = false.
Proof.
  rewrite !ltb_false_leb. intros Hab Hbc. by apply leb_trans with b.
Qed.

Lemma before_asym x y : before x y = true → before y x = false.
Proof.
  unfold before.
  destruct (td_completed x), (td_completed y); simpl; try done;
    apply ltb_asym.
Qed.

Lemma not_before_trans x y z :
  before y x = false → before z y = false → before z x = false.
Proof.
  unfold before.
  destruct (td_completed x), (td_completed y), (td_completed z); simpl;
    try done; intros Hxy Hyz; by apply ltb_false_trans with (td_createdAt y).
Qed.

Lemma insert_ordered_perm e l : insert_ordered e l ≡ₚ e :: l.
Proof.
  induction l as [|x l IH]; simpl; [done|].
  destruct (before x e); [|done].
  rewrite IH. apply Permutation_swap.
Qed.

Lemma order_by_perm l : order_by l ≡ₚ l.
Proof.
  unfold order_by. induction l as [|e l IH]; simpl; [done|].
  by rewrite insert_ordered_perm, IH.
Qed.

Lemma insert_ordered_sorted e l :
  listed_order l → listed_order (insert_ordered e l).
Proof.
  unfold listed_order. induction 1 as [|x l Hs IH Hx]; simpl.
  - repeat constructor.
  - destruct (before x e) eqn:Hb.
    + constructor; [done|]. rewrite insert_ordered_perm.
      constructor; [by apply before_asym | done].
    + constructor; [by constructor|]. constructor; [done|].
      eapply Forall_impl; [exact Hx|]. intros y Hy. simpl in Hy.
      by apply not_before_trans with x.
Qed.

Lemma order_by_sorted l : listed_order (order_by l).
Proof.
  unfold order_by. induction l as [|e l IH]; simpl.
  - constructor.
  - by apply insert_ordered_sorted.
Qed.

(** Sorting and selecting commute: the order of two rows does not depend
    on the rows around them. *)
Lemma insert_ordered_filter_in (P : Todo → Prop) `{!∀ x, Decision (P x)} e l :
  listed_order l → P e →
  insert_ordered e (filter P l) = filter P (insert_ordered e l).
Proof.
  unfold listed_order. intros Hs He. induction Hs as [|x l Hs IH Hx]; simpl.
  - by rewrite filter_cons_True, filter_nil.
  - destruct (before x e) eqn:Hb.
    + destruct (decide (P x)) as [Hp|Hp].
      * rewrite !(filter_cons_True _ x) by done. simpl. by rewrite Hb, IH.
      * by rewrite !(filter_cons_False _ x) by done.
    + rewrite (filter_cons_True _ e) by done.
      assert (Forall (λ y, before y e = false) (x :: l)) as Hall.
      { constructor; [done|]. eapply Forall_impl; [exact Hx|].
        intros y Hy. simpl in Hy. by apply not_before_trans with x. }
      destruct (filter P (x :: l)) as [|y l'] eqn:Hf; [done|].
      simpl.
      assert (y ∈ filter P (x :: l)) as Hy by (rewrite Hf; left).
      apply list_elem_of_filter in Hy as [_ Hy].
      rewrite Forall_forall in Hall. by rewrite (Hall y Hy).
Qed.

Lemma insert_ordered_filter_out (P : Todo → Prop) `{!∀ x, Decision (P x)} e l :
  ¬ P e → filter P (insert_ordered e l) = filter P l.
Proof.
  intros He. induction l as [|x l IH]; simpl.
  - by rewrite filter_cons_False.
  - destruct (before x e).
    + destruct (decide (P x)).
      * by rewrite !(filter_cons_True _ x), IH.
      * by rewrite !(filter_cons_False _ x).
    + by rewrite (filter_cons_False _ e).
Qed.

Lemma order_by_filter (P : Todo → Prop) `{!∀ x, Decision (P x)} l :
  order_by (filter P l) = filter P (order_by l).
Proof.
  unfold order_by. induction l as [|e l IH]; simpl; [done|].
  destruct (decide (P e)).
  - rewrite filter_cons_True by done. simpl. rewrite IH.
    apply insert_ordered_filter_in; [apply order_by_sorted | done].
  - rewrite filter_cons_False by done.
    by rewrite insert_ordered_filter_out.
Qed.

End TodoOrder.

Section TodoTable.

Import TodoDB.

Lemma getTodos_answered db includeCompleted t :
  is_Some db → getTodos db includeCompleted t = getTodos (Some "") includeCompleted t.
Proof. by intros [now ->]. Qed.

Lemma pending_eq t :
  pending t = order_by (filter (λ r, td_completed r = false) (rows t)).
Proof.
  unfold pending, getTodos. f_equal. apply list_filter_iff.
  intros r. split; [by intros [?|?] | by right].
Qed.

Lemma pending_elem t x :
  x ∈ pending t ↔ x ∈ rows t ∧ td_completed x = false.
Proof.
  rewrite pending_eq, order_by_perm, list_elem_of_filter. tauto.
Qed.

Lemma pending_sorted t : listed_order (pending t).
Proof. rewrite pending_eq. apply order_by_sorted. Qed.

Lemma pending_ids_NoDup t : NoDup (todo_ids t) → NoDup (map td_id (pending t)).
Proof.
  unfold todo_ids. intros Hnd. rewrite pending_eq, order_by_perm.
  eapply sublist_NoDup; [exact Hnd|].
  apply fmap_sublist, sublist_filter.
Qed.

Lemma filter_all {A} (P : A → Prop) `{!∀ x, Decision (P x)} l :
  Forall P l → filter P l = l.
Proof.
  induction 1 as [|x l Hx _ IH]; [done|].
  by rewrite filter_cons_True, IH.
Qed.

(** In a list without repeated ids, selecting the rows with another id
    removes one position. *)
Lemma filter_other_id l k todo :
  NoDup (map td_id l) → l !! k = Some todo →
  filter (λ x, td_id x ≠ td_id todo) l = delete k l.
Proof.
  revert k. induction l as [|x l IH]; intros k Hnd Hk; [done|].
  apply NoDup_cons in Hnd as [Hx Hnd]. destruct k as [|k]; simpl in *.
  - injection Hk as ->. rewrite filter_cons_False by (intros H; by apply H).
    apply filter_all, Forall_forall. intros y Hy Heq.
    apply Hx. rewrite <- Heq. by apply list_elem_of_fmap_2.
  - rewrite filter_cons_True.
    + by rewrite (IH k).
    + intros Heq. apply Hx. rewrite Heq.
      apply list_elem_of_fmap_2. by eapply list_elem_of_lookup_2.
Qed.

(** With distinct ids a row is found by its id, and it is the only row an
    update or a delete by this id touches. *)
Lemma row_of_member t todo :
  NoDup (todo_ids t) → todo ∈ rows t → row (td_id todo) t = Some todo.
Proof.
  unfold row, todo_ids. induction (rows t) as [|x l IH]; intros Hnd Hin.
  - by apply elem_of_nil in Hin.
  - apply NoDup_cons in Hnd as [Hx Hnd]. simpl.
    destruct (td_id x =? td_id todo)%nat eqn:Heq.
    + apply Nat.eqb_eq in Heq.
      apply elem_of_cons in Hin as [->|Hin]; [done|].
      exfalso. apply Hx. rewrite Heq. by apply list_elem_of_fmap_2.
    + apply elem_of_cons in Hin as [->|Hin]; [|by apply IH].
      by rewrite Nat.eqb_refl in Heq.
Qed.

Lemma row_is_member id t r : row id t = Some r → r ∈ rows t ∧ td_id r = id.
Proof.
  unfold row. intros H. apply find_some in H as [Hin Heq].
  split; [by apply list_elem_of_In | by apply Nat.eqb_eq].
Qed.

Lemma split_at_id l todo :
  NoDup (map td_id l) → todo ∈ l →
  ∃ l1 l2, l = l1 ++ todo :: l2
           ∧ Forall (λ x, td_id x ≠ td_id todo) (l1 ++ l2).
Proof.
  intros Hnd Hin. apply list_elem_of_split in Hin as (l1 & l2 & ->).
  exists l1, l2. split; [done|].
  rewrite fmap_app, fmap_cons in Hnd.
  apply NoDup_app in Hnd as (_ & H1 & Hnd).
  apply NoDup_cons in Hnd as [H2 _].
  apply Forall_app. split; apply Forall_forall; intros x Hx Heq.
  - apply (H1 (td_id x)); [by apply list_elem_of_fmap_2 | rewrite Heq; left].
  - apply H2. rewrite <- Heq. by apply list_elem_of_fmap_2.
Qed.

Lemma map_at_id (f : Todo → Todo) l1 l2 todo :
  Forall (λ x, td_id x ≠ td_id todo) (l1 ++ l2) →
  map (λ x, if (td_id x =? td_id todo)%nat then f x else x)
    (l1 ++ todo :: l2)
  = l1 ++ f todo :: l2.
Proof.
  intros [H1 H2]%Forall_app.
  assert (∀ l, Forall (λ x, td_id x ≠ td_id todo) l →
               map (λ x, if (td_id x =? td_id todo)%nat then f x else x) l
               = l) as Hid.
  { induction 1 as [|x l Hx _ IH]; [done|]. simpl.
    apply Nat.eqb_neq in Hx. by rewrite Hx, IH. }
  rewrite map_app. simpl. by rewrite Nat.eqb_refl, !Hid.
Qed.

Lemma filter_at_id l1 l2 todo :
  Forall (λ x, td_id x ≠ td_id todo) (l1 ++ l2) →
  filter (λ x, td_id x ≠ td_id todo) (l1 ++ todo :: l2) = l1 ++ l2.
Proof.
  intros H. rewrite filter_app, filter_cons_False by (intros H'; by apply H').
  rewrite <- filter_app. by apply filter_all.
Qed.

End TodoTable.

Section TodoCommands.

Import TodoDB.

Lemma pending_rows t t' : rows t' = rows t → pending t' = pending t.
Proof. intros H. by rewrite !pending_eq, H. Qed.

(** The list after the row of a listed todo has left the pending rows,
    by deletion or by completion. *)
Lemma pending_without t n todo l1 l2 s :
  NoDup (todo_ids t) → pending t !! n = Some todo →
  rows t = l1 ++ todo :: l2 →
  Forall (λ x, td_id x ≠ td_id todo) (l1 ++ l2) →
  pending {| rows := l1 ++ l2; sequence := s |} = delete n (pending t).
Proof.
  intros Hnd Hn Hrows Hother.
  rewrite <- (filter_other_id _ _ todo) by (by apply pending_ids_NoDup || done).
  rewrite !pending_eq. simpl.
  rewrite <- order_by_filter, Hrows. f_equal.
  rewrite <- (filter_at_id l1 l2 todo) by done.
  rewrite !list_filter_filter. apply list_filter_iff. tauto.
Qed.

Lemma pending_completed l1 l2 todo s :
  pending {| rows := l1 ++ set_completed todo :: l2; sequence := s |}
  = pending {| rows := l1 ++ l2; sequence := s |}.
Proof.
  rewrite !pending_eq. simpl. f_equal.
  by rewrite !filter_app, filter_cons_False.
Qed.

Lemma run_subcommand_add db word args t :
  JsText.toLowerCase word = "add" →
  TodoCommand.run_subcommand db (word :: args) t
  = let task := Js.join " " args in
    if String.eqb task "" then (t, Ok TodoCommand.specify_task)
    else
      match addTodo (TodoCommand.write db) task None "normal" t with
      | (t', Ok _) => (t', Ok ("✅ Added: " +:+ task))
      | (t', Throw e) => (t', Throw e)
      end.
Proof.
  intros H. unfold TodoCommand.run_subcommand.
  cbn [lookup list_lookup drop]. by rewrite H.
Qed.

Lemma run_subcommand_done db word args t :
  JsText.toLowerCase word = "done" ∨ JsText.toLowerCase word = "complete" →
  TodoCommand.run_subcommand db (word :: args) t
  = match JsText.parseInt (args !! 0%nat) with
    | None => (t, Ok TodoCommand.specify_number)
    | Some todoIndex =>
        if (todoIndex =? 0)%Z || (todoIndex <? 1)%Z
        then (t, Ok TodoCommand.specify_number)
        else
          let allTodos := getTodos (TodoCommand.find_many db) false t in
          if (Z.of_nat (length allTodos) <? todoIndex)%Z
          then (t, Ok (TodoCommand.does_not_exist todoIndex))
          else
            match allTodos !! Z.to_nat (todoIndex - 1) with
            | Some todoToComplete =>
                match completeTodo (TodoCommand.write db)
                        (td_id todoToComplete) t with
                | (t', Ok _) =>
                    (t', Ok ("✅ Completed: " +:+ td_task todoToComplete))
                | (t', Throw e) => (t', Throw e)
                end
            | None => (t, Throw "TypeError")
            end
    end.
Proof.
  intros H. unfold TodoCommand.run_subcommand.
  cbn [lookup list_lookup]. by destruct H as [-> | ->].
Qed.

Lemma run_subcommand_delete db word args t :
  JsText.toLowerCase word = "delete" ∨ JsText.toLowerCase word = "remove" →
  TodoCommand.run_subcommand db (word :: args) t
  = match JsText.parseInt (args !! 0%nat) with
    | None => (t, Ok TodoCommand.specify_number)
    | Some deleteIndex =>
        if (deleteIndex =? 0)%Z || (deleteIndex <? 1)%Z
        then (t, Ok TodoCommand.specify_number)
        else
          let todosToDelete := getTodos (TodoCommand.find_many db) false t in
          if (Z.of_nat (length todosToDelete) <? deleteIndex)%Z
          then (t, Ok (TodoCommand.does_not_exist deleteIndex))
          else
            match todosToDelete !! Z.to_nat (deleteIndex - 1) with
            | Some todoToDelete =>
                match deleteTodo (TodoCommand.write db)
                        (td_id todoToDelete) t with
                | (t', Ok _) =>
                    (t', Ok ("🗑️ Deleted: " +:+ td_task todoToDelete))
                | (t', Throw e) => (t', Throw e)
                end
            | None => (t, Throw "TypeError")
            end
    end.
Proof.
  intros H. unfold TodoCommand.run_subcommand.
  cbn [lookup list_lookup]. by destruct H as [-> | ->].
Qed.

(** The checks a valid number passes. *)
Lemma listed_number_passes db t n todo :
  is_Some (TodoCommand.find_many db) → pending t !! n = Some todo →
  ((Z.of_nat (S n) =? 0)%Z || (Z.of_nat (S n) <? 1)%Z = false)
  ∧ (Z.of_nat (length (getTodos (TodoCommand.find_many db) false t))
       <? Z.of_nat (S n))%Z = false
  ∧ getTodos (TodoCommand.find_many db) false t
      !! Z.to_nat (Z.of_nat (S n) - 1) = Some todo.
Proof.
  intros Hdb Hn. rewrite (getTodos_answered _ _ _ Hdb). fold (pending t).
  pose proof (lookup_lt_Some _ _ _ Hn) as Hlt.
  split; [|split].
  - apply orb_false_iff. split; [apply Z.eqb_neq | apply Z.ltb_ge]; lia.
  - apply Z.ltb_ge. lia.
  - by replace (Z.to_nat (Z.of_nat (S n) - 1)) with n by lia.
Qed.

(** X12: [!todo done n] (or [complete]) with the number of a listed todo,
    on a table with distinct ids and an answering database: exactly the row
    of the todo listed as number [n] is marked completed, every other row
    and the order of the rows are as before, the reply names its task, and
    the list afterwards is the old list without its n-th line. *)
Theorem done_completes_the_listed_todo db word index args t n todo :
  keyed t → answered db →
  JsText.toLowerCase word = "done" ∨ JsText.toLowerCase word = "complete" →
  JsText.parseInt (Some index) = Some (Z.of_nat (S n)) →
  pending t !! n = Some todo →
  ∃ l1 l2,
    rows t = l1 ++ todo :: l2
    ∧ TodoCommand.execute db (word :: index :: args) t
      = ({| rows := l1 ++ set_completed todo :: l2;
            sequence := sequence t |},
         Ok ("✅ Completed: " +:+ td_task todo))
    ∧ pending {| rows := l1 ++ set_completed todo :: l2;
                 sequence := sequence t |}
      = delete n (pending t).
Proof.
  intros [Hnd _] [Hread [now Hwrite]] Hword Hindex Hn.
  assert (todo ∈ pending t) as Hin by (by eapply list_elem_of_lookup_2).
  apply pending_elem in Hin as [Hin _].
  destruct (split_at_id _ _ Hnd Hin) as (l1 & l2 & Hrows & Hother).
  exists l1, l2. split; [done|]. split.
  - unfold TodoCommand.execute. rewrite run_subcommand_done by done.
    cbn [lookup list_lookup]. rewrite Hindex.
    destruct (listed_number_passes db t n todo Hread Hn) as (-> & H2 & H3).
    cbv zeta. rewrite H2, H3.
    unfold completeTodo. rewrite Hwrite, (row_of_member _ _ Hnd Hin).
    by rewrite Hrows, map_at_id.
  - rewrite pending_completed. by apply (pending_without t n todo).
Qed.

Lemma done_completes_the_listed_todo_witness :
  ∃ l1 l2,
    rows TodoSample.table = l1 ++ TodoSample.milk :: l2
    ∧ TodoCommand.execute TodoSample.db ["Done"; "2"] TodoSample.table
      = ({| rows := l1 ++ set_completed TodoSample.milk :: l2;
            sequence := sequence TodoSample.table |},
         Ok ("✅ Completed: " +:+ td_task TodoSample.milk))
    ∧ pending {| rows := l1 ++ set_completed TodoSample.milk :: l2;
                 sequence := sequence TodoSample.table |}
      = delete 1 (pending TodoSample.table).
Proof.
  apply (done_completes_the_listed_todo TodoSample.db "Done" "2" []
           TodoSample.table 1 TodoSample.milk).
  - split; by apply (bool_decide_unpack _).
  - by split; eexists.
  - by left.
  - reflexivity.
  - reflexivity.
Defined.

(** X13: [!todo delete n] (or [remove]) with the number of a listed todo:
    exactly the row of the todo listed as number [n] leaves the table, every
    other row and the order of the rows are as before, the reply names its
    task, and the list afterwards is the old list without its n-th line. *)
Theorem delete_removes_the_listed_todo db word index args t n todo :
  keyed t → answered db →
  JsText.toLowerCase word = "delete" ∨ JsText.toLowerCase word = "remove" →
  JsText.parseInt (Some index) = Some (Z.of_nat (S n)) →
  pending t !! n = Some todo →
  ∃ l1 l2,
    rows t = l1 ++ todo :: l2
    ∧ TodoCommand.execute db (word :: index :: args) t
      = ({| rows := l1 ++ l2; sequence := sequence t |},
         Ok ("🗑️ Deleted: " +:+ td_task todo))
    ∧ pending {| rows := l1 ++ l2; sequence := sequence t |}
      = delete n (pending t).
Proof.
  intros [Hnd _] [Hread [now Hwrite]] Hword Hindex Hn.
  assert (todo ∈ pending t) as Hin by (by eapply list_elem_of_lookup_2).
  apply pending_elem in Hin as [Hin _].
  destruct (split_at_id _ _ Hnd Hin) as (l1 & l2 & Hrows & Hother).
  exists l1, l2. split; [done|]. split.
  - unfold TodoCommand.execute. rewrite run_subcommand_delete by done.
    cbn [lookup list_lookup]. rewrite Hindex.
    destruct (listed_number_passes db t n todo Hread Hn) as (-> & H2 & H3).
    cbv zeta. rewrite H2, H3.
    unfold deleteTodo. rewrite Hwrite, (row_of_member _ _ Hnd Hin).
    by rewrite Hrows, filter_at_id.
  - by apply (pending_without t n todo).
Qed.

Lemma delete_removes_the_listed_todo_witness :
  ∃ l1 l2,
    rows TodoSample.table = l1 ++ TodoSample.call_mum :: l2
    ∧ TodoCommand.execute TodoSample.db ["remove"; " 1."] TodoSample.table
      = ({| rows := l1 ++ l2; sequence := sequence TodoSample.table |},
         Ok ("🗑️ Deleted: " +:+ td_task TodoSample.call_mum))
    ∧ pending {| rows := l1 ++ l2; sequence := sequence TodoSample.table |}
      = delete 0 (pending TodoSample.table).
Proof.
  apply (delete_removes_the_listed_todo TodoSample.db "remove" " 1." []
           TodoSample.table 0 TodoSample.call_mum).
  - split; by apply (bool_decide_unpack _).
  - by split; eexists.
  - by right.
  - reflexivity.
  - reflexivity.
Defined.

Lemma create_fresh now task dueDate priority t :
  keyed t → td_id (create now task dueDate priority t) ∉ todo_ids t.
Proof.
  intros [_ Hle] Hin. rewrite Forall_forall in Hle.
  apply Hle in Hin. simpl in Hin. lia.
Qed.

Lemma order_by_newest new l :
  Forall (λ x, before new x = true) l →
  foldr insert_ordered [new] l = new :: order_by l.
Proof.
  unfold order_by. induction 1 as [|x l Hx _ IH]; [done|].
  simpl. rewrite IH. simpl. by rewrite Hx.
Qed.

(** X14: [!todo add <words>] with a task that is not empty, on a table
    with distinct ids and an accepted write: one row is appended, pending,
    with the words joined by single spaces as its task, no due date,
    priority [normal] and an id no row has; the todos listed before keep
    their order among themselves, and the new todo heads the list when it
    is created later than all of them. *)
Theorem added_todo_is_listed db word words t now :
  keyed t →
  JsText.toLowerCase word = "add" →
  Js.join " " words ≠ "" →
  TodoCommand.write db = Some now →
  let task := Js.join " " words in
  let new := create now task None "normal" t in
  let t' := {| rows := rows t ++ [new]; sequence := S (sequence t) |} in
  TodoCommand.execute db (word :: words) t = (t', Ok ("✅ Added: " +:+ task))
  ∧ (td_id new ∉ todo_ids t)
  ∧ (new ∈ pending t')
  ∧ filter (λ x, td_id x ≠ td_id new) (pending t') = pending t
  ∧ (Forall (λ x, String.ltb (td_createdAt x) now = true) (pending t) →
     pending t' = new :: pending t).
Proof.
  intros Hkeyed Hword Htask Hwrite task new t'.
  assert (td_id new ∉ todo_ids t) as Hfresh by by apply create_fresh.
  assert (Forall (λ x, td_id x ≠ td_id new) (rows t)) as Hother.
  { apply Forall_forall. intros x Hx Heq. apply Hfresh. rewrite <- Heq.
    by apply list_elem_of_fmap_2. }
  split; [|split; [done|split; [|split]]].
  - unfold TodoCommand.execute. rewrite run_subcommand_add by done.
    cbv zeta. apply String.eqb_neq in Htask. rewrite Htask.
    unfold addTodo. by rewrite Hwrite.
  - apply pending_elem. split; [|done].
    subst t'. simpl. apply elem_of_app. right. left.
  - rewrite !pending_eq. subst t'. cbn [rows].
    rewrite <- order_by_filter. f_equal.
    rewrite list_filter_filter, filter_app.
    rewrite filter_cons_False by (intros [H _]; by apply H).
    rewrite filter_nil, app_nil_r.
    rewrite <- (filter_all (λ x, td_id x ≠ td_id new) (rows t)) at 2 by done.
    rewrite list_filter_filter. apply list_filter_iff. tauto.
  - intros Hlater. rewrite !pending_eq in *. subst t'. cbn [rows].
    rewrite filter_app, filter_cons_True, filter_nil by done.
    unfold order_by at 1. rewrite foldr_app. simpl.
    apply order_by_newest, Forall_forall. intros x Hx.
    apply list_elem_of_filter in Hx as Hpend. destruct Hpend as [Hpend _].
    rewrite Forall_forall in Hlater.
    assert (String.ltb (td_createdAt x) now = true) as Hlt.
    { apply Hlater. by rewrite order_by_perm. }
    unfold before. simpl. by rewrite Hpend.
Qed.

Lemma added_todo_is_listed_witness :
  TodoCommand.execute TodoSample.db ["ADD"; "Water"; "plants"]
    TodoSample.table
  = (TodoSample.watered, Ok "✅ Added: Water plants")
  ∧ (5 ∉ todo_ids TodoSample.table)
  ∧ (TodoSample.water ∈ pending TodoSample.watered)
  ∧ filter (λ x, td_id x ≠ 5) (pending TodoSample.watered)
    = pending TodoSample.table
  ∧ (Forall (λ x, String.ltb (td_createdAt x) "2024-05-02T09:00:00.000Z"
                  = true) (pending TodoSample.table) →
     pending TodoSample.watered = TodoSample.water :: pending TodoSample.table).
Proof.
  apply (added_todo_is_listed TodoSample.db "ADD" ["Water"; "plants"]
           TodoSample.table "2024-05-02T09:00:00.000Z").
  - split; by apply (bool_decide_unpack _).
  - reflexivity.
  - discriminate.
  - reflexivity.
Defined.

(** X15: a todo command always answers with a reply and never throws.  It
    leaves the table as it is unless the write is accepted and it is either
    [add] with a task that is not empty, or [done], [complete], [delete] or
    [remove] with an argument that [parseInt] reads as a number from 1 to
    the number of pending todos, the list having been read. *)
Theorem todo_command_is_guarded db args t :
  ∃ t' reply,
    TodoCommand.execute db args t = (t', Ok reply)
    ∧ (t' = t
       ∨ ∃ word,
           args !! 0%nat = Some word
           ∧ is_Some (TodoCommand.write db)
           ∧ (JsText.toLowerCase word = "add"
              ∧ Js.join " " (drop 1 args) ≠ ""
              ∨ JsText.toLowerCase word
                  ∈ ["done"; "complete"; "delete"; "remove"]
                ∧ is_Some (TodoCommand.find_many db)
                ∧ ∃ n, JsText.parseInt (args !! 1%nat) = Some n
                       ∧ (1 ≤ n ≤ Z.of_nat (length (pending t)))%Z)).
Proof.
  unfold TodoCommand.execute, TodoCommand.run_subcommand.
  destruct (args !! 0%nat) as [word|] eqn:Hword; [|by eexists _, _; split; [|left]].
  destruct (String.eqb (JsText.toLowerCase word) "add") eqn:Hadd.
  { apply String.eqb_eq in Hadd.
    destruct (String.eqb (Js.join " " (drop 1 args)) "") eqn:Htask;
      [by eexists _, _; split; [|left]|].
    apply String.eqb_neq in Htask. unfold addTodo.
    destruct (TodoCommand.write db) as [now|] eqn:Hwrite;
      [|by eexists _, _; split; [|left]].
    eexists _, _. split; [done|]. right. exists word.
    split; [done|]. split; [done|]. by left. }
  destruct (String.eqb (JsText.toLowerCase word) "list"
            || String.eqb (JsText.toLowerCase word) "show").
  { destruct (getTodos _ _ _); by eexists _, _; split; [|left]. }
  destruct (String.eqb (JsText.toLowerCase word) "done"
            || String.eqb (JsText.toLowerCase word) "complete") eqn:Hdone.
  { assert (JsText.toLowerCase word
              ∈ ["done"; "complete"; "delete"; "remove"]) as Hverb.
    { apply orb_true_iff in Hdone as [H|H]; apply String.eqb_eq in H;
        rewrite H; set_solver. }
    destruct (JsText.parseInt (args !! 1%nat)) as [n|] eqn:Hn;
      [|by eexists _, _; split; [|left]].
    destruct ((n =? 0)%Z || (n <? 1)%Z) eqn:Hvalid;
      [by eexists _, _; split; [|left]|].
    apply orb_false_iff in Hvalid as [_ Hone%Z.ltb_ge].
    destruct (TodoCommand.find_many db) as [read|] eqn:Hread.
    2:{ destruct (Z.of_nat (length (getTodos None false t)) <? n)%Z
          eqn:Hlen; [by eexists _, _; split; [|left]|].
        apply Z.ltb_ge in Hlen. simpl in Hlen. lia. }
    rewrite (getTodos_answered (Some read)) by done. fold (pending t).
    destruct (Z.of_nat (length (pending t)) <? n)%Z eqn:Hlen;
      [by eexists _, _; split; [|left]|].
    apply Z.ltb_ge in Hlen.
    destruct (pending t !! Z.to_nat (n - 1)) as [todo|] eqn:Htodo.
    2:{ apply lookup_ge_None in Htodo. lia. }
    unfold completeTodo.
    destruct (TodoCommand.write db) as [now|] eqn:Hwrite;
      [|by eexists _, _; split; [|left]].
    destruct (row (td_id todo) t); [|by eexists _, _; split; [|left]].
    eexists _, _. split; [done|]. right. exists word.
    split; [done|]. split; [done|]. right.
    split; [done|]. split; [done|]. exists n. split; [done|lia]. }
  destruct (String.eqb (JsText.toLowerCase word) "delete"
            || String.eqb (JsText.toLowerCase word) "remove") eqn:Hdelete;
    [|by eexists _, _; split; [|left]].
  assert (JsText.toLowerCase word
            ∈ ["done"; "complete"; "delete"; "remove"]) as Hverb.
  { apply orb_true_iff in Hdelete as [H|H]; apply String.eqb_eq in H;
      rewrite H; set_solver. }
  destruct (JsText.parseInt (args !! 1%nat)) as [n|] eqn:Hn;
    [|by eexists _, _; split; [|left]].
  destruct ((n =? 0)%Z || (n <? 1)%Z) eqn:Hvalid;
    [by eexists _, _; split; [|left]|].
  apply orb_false_iff in Hvalid as [_ Hone%Z.ltb_ge].
  destruct (TodoCommand.find_many db) as [read|] eqn:Hread.
  2:{ destruct (Z.of_nat (length (getTodos None false t)) <? n)%Z
        eqn:Hlen; [by eexists _, _; split; [|left]|].
      apply Z.ltb_ge in Hlen. simpl in Hlen. lia. }
  rewrite (getTodos_answered (Some read)) by done. fold (pending t).
  destruct (Z.of_nat (length (pending t)) <? n)%Z eqn:Hlen;
    [by eexists _, _; split; [|left]|].
  apply Z.ltb_ge in Hlen.
  destruct (pending t !! Z.to_nat (n - 1)) as [todo|] eqn:Htodo.
  2:{ apply lookup_ge_None in Htodo. lia. }
  unfold deleteTodo.
  destruct (TodoCommand.write db) as [now|] eqn:Hwrite;
    [|by eexists _, _; split; [|left]].
  destruct (row (td_id todo) t); [|by eexists _, _; split; [|left]].
  eexists _, _. split; [done|]. right. exists word.
  split; [done|]. split; [done|]. right.
  split; [done|]. split; [done|]. exists n. split; [done|lia].
Qed.

End TodoCommands.

Section TodoHistory.

Import TodoDB.

Lemma later_table_refl t : later_table t t.
Proof. split; [done|]. intros x Hx. right. by left. Qed.

Lemma set_completed_idem x : set_completed (set_completed x) = set_completed x.
Proof. done. Qed.

Lemma later_table_trans t1 t2 t3 :
  later_table t1 t2 → later_table t2 t3 → later_table t1 t3.
Proof.
  intros [Hs1 H1] [Hs2 H2]. split; [lia|]. intros x Hx.
  destruct (H2 x Hx) as [Hnew|[Hold|(y & Hy & ->)]].
  - left. lia.
  - by apply H1.
  - destruct (H1 y Hy) as [Hnew|[Hold|(z & Hz & ->)]].
    + left. simpl. lia.
    + right. right. by exists y.
    + right. right. by exists z.
Qed.

Lemma addTodo_later db task dueDate priority t :
  keyed t →
  keyed (fst (addTodo db task dueDate priority t))
  ∧ later_table t (fst (addTodo db task dueDate priority t)).
Proof.
  intros Hkeyed. unfold addTodo. destruct db as [now|]; simpl;
    [|by split; [|apply later_table_refl]].
  pose proof (create_fresh now task dueDate priority t Hkeyed) as Hfresh.
  destruct Hkeyed as [Hnd Hle]. split; [split|split]; simpl.
  - unfold todo_ids in *. simpl. rewrite fmap_app. apply NoDup_app.
    split; [done|]. split; [|apply NoDup_singleton].
    intros i Hi ->%list_elem_of_singleton. by apply Hfresh.
  - unfold todo_ids in *. simpl. rewrite fmap_app. apply Forall_app. split.
    + eapply Forall_impl; [exact Hle|]. simpl. lia.
    + by repeat constructor.
  - lia.
  - intros x [Hx| ->%list_elem_of_singleton]%elem_of_app.
    + right. by left.
    + left. simpl. lia.
Qed.

Lemma completeTodo_later db id t :
  keyed t →
  keyed (fst (completeTodo db id t))
  ∧ later_table t (fst (completeTodo db id t)).
Proof.
  intros Hkeyed. unfold completeTodo.
  destruct db as [now|]; [|by split; [|apply later_table_refl]].
  destruct (row id t); [|by split; [|apply later_table_refl]].
  simpl. split.
  - unfold keyed, todo_ids in *. simpl.
    replace (map td_id (map (λ x, if (td_id x =? id)%nat
                                  then set_completed x else x) (rows t)))
      with (map td_id (rows t)); [done|].
    rewrite map_map. apply map_ext. intros x. by destruct (td_id x =? id)%nat.
  - split; [done|]. simpl. intros x (y & -> & Hy)%list_elem_of_fmap.
    right. destruct (td_id y =? id)%nat; [right; by exists y | by left].
Qed.

Lemma deleteTodo_later db id t :
  keyed t →
  keyed (fst (deleteTodo db id t))
  ∧ later_table t (fst (deleteTodo db id t)).
Proof.
  intros [Hnd Hle]. unfold deleteTodo.
  destruct db as [now|]; [|by split; [|apply later_table_refl]].
  destruct (row id t); [|by split; [|apply later_table_refl]].
  simpl. split; [split|split]; unfold todo_ids in *; simpl.
  - eapply sublist_NoDup; [exact Hnd|]. apply fmap_sublist, sublist_filter.
  - apply Forall_forall. intros i (x & -> & [_ Hx]%list_elem_of_filter)%list_elem_of_fmap.
    rewrite Forall_forall in Hle. apply Hle. by apply list_elem_of_fmap_2.
  - done.
  - intros x [_ Hx]%list_elem_of_filter. right. by left.
Qed.

Ltac table_step :=
  simpl;
  match goal with
  | H : addTodo ?db ?task ?due ?prio ?t = (?t', _) |- _ =>
      replace t' with (fst (addTodo db task due prio t)) by (by rewrite H);
      by apply addTodo_later
  | H : completeTodo ?db ?id ?t = (?t', _) |- _ =>
      replace t' with (fst (completeTodo db id t)) by (by rewrite H);
      by apply completeTodo_later
  | H : deleteTodo ?db ?id ?t = (?t', _) |- _ =>
      replace t' with (fst (deleteTodo db id t)) by (by rewrite H);
      by apply deleteTodo_later
  | _ => by split; [|apply later_table_refl]
  end.

Lemma execute_later db args t :
  keyed t →
  keyed (fst (TodoCommand.execute db args t))
  ∧ later_table t (fst (TodoCommand.execute db args t)).
Proof.
  intros Hkeyed.
  unfold TodoCommand.execute, TodoCommand.run_subcommand.
  repeat case_match; simplify_eq; table_step.
Qed.

Lemma executeToolCall_later db toolCall t :
  keyed t →
  keyed (fst (Tools.executeToolCall db toolCall t))
  ∧ later_table t (fst (Tools.executeToolCall db toolCall t)).
Proof.
  intros Hkeyed.
  unfold Tools.executeToolCall, Tools.run_tool.
  repeat case_match; simplify_eq; table_step.
Qed.

(** X16: over every history of todo commands and tool calls, whatever the
    database answers, a table with distinct ids keeps distinct ids and an
    id is never given out again; a row of the later table is a row created
    in between, a row of the earlier table as it was, or such a row marked
    completed: task, due date, priority and creation time of a todo are
    never edited. *)
Theorem todo_rows_are_never_edited acts t :
  keyed t → keyed (todo_run acts t) ∧ later_table t (todo_run acts t).
Proof.
  unfold todo_run. revert t. induction acts as [|a acts IH]; intros t Hkeyed.
  - by split; [|apply later_table_refl].
  - simpl.
    assert (keyed (todo_step t a) ∧ later_table t (todo_step t a))
      as [Hk Hl].
    { destruct a; simpl;
        [by apply execute_later | by apply executeToolCall_later]. }
    destruct (IH _ Hk) as [Hk' Hl']. split; [done|].
    by apply later_table_trans with (todo_step t a).
Qed.

Lemma todo_rows_are_never_edited_witness :
  keyed (todo_run [Command TodoSample.db ["add"; "Water"; "plants"];
                   Command TodoSample.db ["done"; "3"];
                   Command TodoSample.read_only ["delete"; "1"]]
           TodoSample.table)
  ∧ later_table TodoSample.table
      (todo_run [Command TodoSample.db ["add"; "Water"; "plants"];
                 Command TodoSample.db ["done"; "3"];
                 Command TodoSample.read_only ["delete"; "1"]]
         TodoSample.table).
Proof.
  apply (todo_rows_are_never_edited
           [Command TodoSample.db ["add"; "Water"; "plants"];
            Command TodoSample.db ["done"; "3"];
            Command TodoSample.read_only ["delete"; "1"]]
           TodoSample.table).
  split; by apply (bool_decide_unpack _).
Defined.

End TodoHistory.

Section TodoTools.

Import TodoDB Tools.






End TodoTools.

Section CommandLine.

Import MessageEvent.


















End CommandLine.

Section ListNumbers.

Import TodoDB.

Lemma pretty_char_value d :
  (d < 10)%N →
  JsText.digit_of (pretty_N_char d) = Some (Z.of_N d)
  ∧ Js.is_digit (pretty_N_char d) = true.
Proof.
  intros Hd.
  assert (d = 0 ∨ d = 1 ∨ d = 2 ∨ d = 3 ∨ d = 4 ∨ d = 5 ∨ d = 6 ∨ d = 7
          ∨ d = 8 ∨ d = 9)%N as H by lia.
  by repeat destruct H as [->|H]; try subst d.
Qed.

Lemma pretty_go_digits x s :
  Forall (λ c, Js.is_digit c = true) (list_ascii_of_string s) →
  Forall (λ c, Js.is_digit c = true)
    (list_ascii_of_string (pretty_N_go x s)).
Proof.
  revert s. induction (N.lt_wf_0 x) as [x _ IH]. intros s Hs.
  destruct (decide (x = 0)%N) as [->|Hx]; [by rewrite pretty_N_go_0|].
  rewrite pretty_N_go_step by lia.
  apply IH; [apply N.div_lt; lia|]. simpl. constructor; [|done].
  apply pretty_char_value, N.mod_lt. lia.
Qed.

Lemma pretty_go_value x s :
  (0 < x)%N →
  JsText.leading_digits 10 None (list_ascii_of_string (pretty_N_go x s))
  = JsText.leading_digits 10 (Some (Z.of_N x)) (list_ascii_of_string s).
Proof.
  revert s. induction (N.lt_wf_0 x) as [x _ IH]. intros s Hx.
  rewrite pretty_N_go_step by done.
  assert (x `mod` 10 < 10)%N as Hmod by (apply N.mod_lt; lia).
  destruct (pretty_char_value _ Hmod) as [Hdigit _].
  assert ((Z.of_N (x `mod` 10) <? 10)%Z = true) as Hlt
    by (apply Z.ltb_lt; lia).
  pose proof (N.div_mod x 10) as Hdiv.
  destruct (decide (x `div` 10 = 0)%N) as [H0|H0].
  - rewrite H0, pretty_N_go_0. simpl. rewrite Hdigit, Hlt. simpl.
    do 2 f_equal. lia.
  - rewrite IH; [|apply N.div_lt; lia|lia].
    simpl. rewrite Hdigit, Hlt. simpl. do 2 f_equal. lia.
Qed.

(** [parseInt] reads a text of decimal digits in radix 10. *)
Lemma parseInt_digits s :
  Forall (λ c, Js.is_digit c = true) (list_ascii_of_string s) →
  JsText.parseInt (Some s)
  = match JsText.leading_digits 10 None (list_ascii_of_string s) with
    | Some mathInt => Some (1 * mathInt)%Z
    | None => None
    end.
Proof.
  unfold JsText.parseInt. change (default "undefined" (Some s)) with s.
  destruct (list_ascii_of_string s) as [|c l]; [done|].
  intros [Hc Hl]%Forall_cons.
  destruct c as [[] [] [] [] [] [] [] []]; try discriminate; try reflexivity.
  destruct l as [|c l]; [done|]. apply Forall_cons in Hl as [Hc' _].
  destruct c as [[] [] [] [] [] [] [] []]; try discriminate; reflexivity.
Qed.

Lemma parseInt_pretty n :
  JsText.parseInt (Some (pretty (S n))) = Some (Z.of_nat (S n)).
Proof.
  unfold pretty, pretty_nat, pretty, pretty_N.
  destruct (decide (N.of_nat (S n) = 0)%N) as [?|_]; [lia|].
  rewrite parseInt_digits by (by apply pretty_go_digits).
  rewrite pretty_go_value by lia. simpl JsText.leading_digits.
  f_equal; lia.
Qed.

(** X19: the number the list puts before a pending todo, typed back after
    [done] or [delete], selects this todo: the reply names its task. *)
Theorem listed_number_selects_its_todo db t n todo :
  keyed t → answered db →
  pending t !! n = Some todo →
  (∃ due, imap TodoCommand.line (pending t) !! n
          = Some (pretty (S n) +:+ ". " +:+ td_task todo +:+ due))
  ∧ snd (TodoCommand.execute db ["done"; pretty (S n)] t)
    = Ok ("✅ Completed: " +:+ td_task todo)
  ∧ snd (TodoCommand.execute db ["delete"; pretty (S n)] t)
    = Ok ("🗑️ Deleted: " +:+ td_task todo).
Proof.
  intros [Hnd _] [Hread [now Hwrite]] Hn.
  assert (todo ∈ pending t) as Hin by (by eapply list_elem_of_lookup_2).
  apply pending_elem in Hin as [Hin _].
  destruct (listed_number_passes db t n todo Hread Hn) as (H1 & H2 & H3).
  split; [|split].
  - rewrite list_lookup_imap, Hn. simpl. unfold TodoCommand.line.
    rewrite Nat.add_1_r. by eexists.
  - unfold TodoCommand.execute.
    rewrite run_subcommand_done by (by left).
    cbn [lookup list_lookup]. rewrite parseInt_pretty, H1.
    cbv zeta. rewrite H2, H3.
    unfold completeTodo. by rewrite Hwrite, (row_of_member _ _ Hnd Hin).
  - unfold TodoCommand.execute.
    rewrite run_subcommand_delete by (by left).
    cbn [lookup list_lookup]. rewrite parseInt_pretty, H1.
    cbv zeta. rewrite H2, H3.
    unfold deleteTodo. by rewrite Hwrite, (row_of_member _ _ Hnd Hin).
Qed.

Lemma listed_number_selects_its_todo_witness :
  (∃ due, imap TodoCommand.line (pending TodoSample.table) !! 1%nat
          = Some ("2" +:+ ". " +:+ "Buy milk" +:+ due))
  ∧ snd (TodoCommand.execute TodoSample.db ["done"; "2"] TodoSample.table)
    = Ok ("✅ Completed: " +:+ "Buy milk")
  ∧ snd (TodoCommand.execute TodoSample.db ["delete"; "2"] TodoSample.table)
    = Ok ("🗑️ Deleted: " +:+ "Buy milk").
Proof.
  apply (listed_number_selects_its_todo TodoSample.db TodoSample.table 1
           TodoSample.milk).
  - split; by apply (bool_decide_unpack _).
  - by split; eexists.
  - reflexivity.
Defined.

End ListNumbers.

Section ToolAnswers.

Import TodoDB Tools.

Lemma listed_order_lookup l i j x y :
  listed_order l → (i < j)%nat → l !! i = Some x → l !! j = Some y →
  before y x = false.
Proof.
  unfold listed_order. intros Hs. revert i j.
  induction Hs as [|z l Hs IH Hz]; intros i j Hij Hi Hj; [done|].
  destruct j as [|j]; [lia|]. simpl in Hj. destruct i as [|i]; simpl in Hi.
  - injection Hi as ->. rewrite Forall_forall in Hz.
    apply Hz. by eapply list_elem_of_lookup_2.
  - apply (IH i j); [lia | done..].
Qed.

(** X20: the tool [get_todos] never changes the table and never throws.
    It lists the pending rows, or all rows when [include_completed] is set,
    numbered from 1: pending todos come before completed ones, and among
    todos of the same state none is listed before a todo created later.
    When the read fails, the answer is a success with an empty list. *)
Theorem get_todos_lists_pending_first db args t :
  let result :=
    executeToolCall db
      {| function_name := "get_todos"; arguments := Some args |} t in
  let all := default false (arg_include_completed args) in
  fst result = t
  ∧ ∃ listed,
      snd result
      = Ok {| success := true; message := None; todo := None;
              todos := Some (imap numbered listed) |}
      ∧ (∀ i x, listed !! i = Some x →
                imap numbered listed !! i
                = Some {| number := S i; nb_task := td_task x;
                          nb_priority := td_priority x;
                          nb_completed := td_completed x;
                          nb_dueDate := td_dueDate x |})
      ∧ match TodoCommand.find_many db with
        | Some _ =>
            listed ≡ₚ filter (λ r, all = true ∨ td_completed r = false)
                        (rows t)
            ∧ ∀ i j x y,
                (i < j)%nat → listed !! i = Some x → listed !! j = Some y →
                (td_completed x = true → td_completed y = true)
                ∧ (td_completed x = td_completed y →
                   String.leb (td_createdAt y) (td_createdAt x) = true)
        | None => listed = []
        end.
Proof.
  cbv zeta. unfold executeToolCall, run_tool. cbn [arguments function_name].
  change (String.eqb "get_todos" "add_todo") with false.
  change (String.eqb "get_todos" "get_todos") with true.
  cbv iota. simpl. split; [done|].
  eexists. split; [done|]. split.
  - intros i x Hi. rewrite list_lookup_imap, Hi. simpl.
    unfold numbered. by rewrite Nat.add_1_r.
  - unfold getTodos. destruct (TodoCommand.find_many db) as [read|]; [|done].
    split; [apply order_by_perm|].
    intros i j x y Hij Hi Hj.
    pose proof (listed_order_lookup _ i j x y (order_by_sorted _) Hij Hi Hj)
      as Hb.
    unfold before in Hb.
    destruct (td_completed x), (td_completed y); simpl in Hb; try done;
      split; try done; intros _; by apply ltb_false_leb.
Qed.

(** X21: a tool call throws only when its arguments do not parse, which is
    when the chat turn sees it throw, and the table is then as it was.
    Otherwise it returns an answer, whatever the database does; the table
    changes only when the write is accepted, and an answer that reports a
    failure comes with an unchanged table. *)
Theorem tool_call_always_answers db toolCall t w :
  match arguments toolCall with
  | None =>
      executeToolCall db toolCall t = (t, Throw "JSON.parse")
      ∧ AiChat.executeToolCall (seen_by_chat toolCall) w
        = (w, Throw "JSON.parse")
  | Some _ =>
      AiChat.executeToolCall (seen_by_chat toolCall) w = (w, Ok tt)
      ∧ ∃ t' result,
          executeToolCall db toolCall t = (t', Ok result)
          ∧ (TodoCommand.write db = None → t' = t)
          ∧ (success result = false → t' = t)
  end.
Proof.
  unfold executeToolCall, AiChat.executeToolCall, seen_by_chat.
  destruct (arguments toolCall) as [args|]; [|done].
  split; [done|]. unfold run_tool, addTodo, completeTodo, deleteTodo.
  repeat case_match; simplify_eq; eexists _, _; (split; [done|]); by split.
Qed.

End ToolAnswers.
